(** * ConnectFour: the computer opponent of computer.go

    A shallow embedding of the board model, the static evaluator and the
    minimax search with alpha-beta pruning, followed by the properties of
    the specification that concern them.

    Conventions of the embedding.
    - Go's [int] cells, players and column numbers are integers of [Z];
      loop counters that range over the array dimensions are [nat].
    - [GameBoard], the array type [[Rows][Columns]int], is a list of rows;
      [wf_board] says that it has the shape of the array type.
    - The [float64] scores of the search are only ever built from
      [math.Inf(1)], [math.Inf(-1)], [0] and [float64(evaluateBoard(b))],
      an integer of magnitude at most 6900, and are only compared and
      passed to [math.Max] and [math.Min]: they are modelled exactly by
      the integers extended with the two infinities.
    - [math/rand] is an explicit stream of raw draws threaded through the
      search; an index out of range and [rand.Intn] of a non-positive
      bound are the run-time panics of Go. *)

From Stdlib Require Import ZArith List Bool Lia Sorted.
Import ListNotations.
Open Scope Z_scope.

(** ** Constants and the board type *)

Definition Rows : nat := 6.
Definition Columns : nat := 7.
Definition Empty : Z := 0.
Definition Player : Z := 1.
Definition Computer : Z := 2.

Definition GameBoard : Type := list (list Z).

(** The shape of [[Rows][Columns]int]. *)
Definition wf_board (board : GameBoard) : Prop :=
  length board = Rows /\ Forall (fun r => length r = Columns) board.

(** [board[row][col]], for indices inside the array. *)
Definition cell (board : GameBoard) (row col : nat) : Z :=
  nth col (nth row board []) Empty.

(** Assignment to one element of a list. *)
Fixpoint update {A : Type} (n : nat) (x : A) (l : list A) : list A :=
  match l, n with
  | [], _ => []
  | _ :: t, O => x :: t
  | h :: t, S n' => h :: update n' x t
  end.

(** [board[row][col] = v]. *)
Definition setCell (board : GameBoard) (row col : nat) (v : Z) : GameBoard :=
  update row (update col v (nth row board [])) board.

(** The slice [board[row][col:col+4]]. *)
Definition slice4 (board : GameBoard) (row col : nat) : list Z :=
  firstn 4 (skipn col (nth row board [])).

(** ** Static evaluator *)

(** One pass of the counting loop of [evaluateSegment]. *)
Definition countCell (player : Z) (counts : Z * Z) (c : Z) : Z * Z :=
  let '(countPlayer, countEmpty) := counts in
  if c =? player then (countPlayer + 1, countEmpty)
  else if c =? Empty then (countPlayer, countEmpty + 1)
  else (countPlayer, countEmpty).

Definition evaluateSegment (segment : list Z) (player : Z) : Z :=
  let '(countPlayer, countEmpty) := fold_left (countCell player) segment (0, 0) in
  if countPlayer =? 4 then 100
  else if (countPlayer =? 3) && (countEmpty =? 1) then 10
  else if (countPlayer =? 2) && (countEmpty =? 2) then 5
  else 0.

(** [for row in rows { for col in cols { score += f row col } }]. *)
Definition addLoop (outer inner : list nat) (f : nat -> nat -> Z) (score : Z) : Z :=
  fold_left (fun s i => fold_left (fun s' j => s' + f i j) inner s) outer score.

Definition evaluateLines (board : GameBoard) (player : Z) : Z :=
  let score := 0 in
  (* Horizontal *)
  let score :=
    addLoop (seq 0 Rows) (seq 0 (Columns - 3))
      (fun row col => evaluateSegment (slice4 board row col) player) score in
  (* Vertical *)
  let score :=
    addLoop (seq 0 Columns) (seq 0 (Rows - 3))
      (fun col row =>
         evaluateSegment
           [cell board row col; cell board (row + 1) col;
            cell board (row + 2) col; cell board (row + 3) col] player) score in
  (* Diagonal (top-left to bottom-right) *)
  let score :=
    addLoop (seq 0 (Rows - 3)) (seq 0 (Columns - 3))
      (fun row col =>
         evaluateSegment
           [cell board row col; cell board (row + 1) (col + 1);
            cell board (row + 2) (col + 2); cell board (row + 3) (col + 3)] player)
      score in
  (* Diagonal (bottom-left to top-right) *)
  let score :=
    addLoop (seq 3 (Rows - 3)) (seq 0 (Columns - 3))
      (fun row col =>
         evaluateSegment
           [cell board row col; cell board (row - 1) (col + 1);
            cell board (row - 2) (col + 2); cell board (row - 3) (col + 3)] player)
      score in
  score.

Definition evaluateBoard (board : GameBoard) : Z :=
  let score := 0 in
  let score := score + evaluateLines board Computer in
  let score := score - evaluateLines board Player in
  score.

(** ** Board queries *)

(** [for i in outer { for j in inner { if test i j { return true } } }]. *)
Definition anyLoop (outer inner : list nat) (test : nat -> nat -> bool) : bool :=
  existsb (fun i => existsb (test i) inner) outer.

Definition checkWin (board : GameBoard) (player : Z) : bool :=
  (* Horizontal *)
  if anyLoop (seq 0 Rows) (seq 0 (Columns - 3))
       (fun row col =>
          (cell board row col =? player) && (cell board row (col + 1) =? player)
          && (cell board row (col + 2) =? player) && (cell board row (col + 3) =? player))
  then true
  (* Vertical *)
  else if anyLoop (seq 0 Columns) (seq 0 (Rows - 3))
       (fun col row =>
          (cell board row col =? player) && (cell board (row + 1) col =? player)
          && (cell board (row + 2) col =? player) && (cell board (row + 3) col =? player))
  then true
  (* Diagonal (top-left to bottom-right) *)
  else if anyLoop (seq 0 (Rows - 3)) (seq 0 (Columns - 3))
       (fun row col =>
          (cell board row col =? player) && (cell board (row + 1) (col + 1) =? player)
          && (cell board (row + 2) (col + 2) =? player)
          && (cell board (row + 3) (col + 3) =? player))
  then true
  (* Diagonal (bottom-left to top-right) *)
  else if anyLoop (seq 3 (Rows - 3)) (seq 0 (Columns - 3))
       (fun row col =>
          (cell board row col =? player) && (cell board (row - 1) (col + 1) =? player)
          && (cell board (row - 2) (col + 2) =? player)
          && (cell board (row - 3) (col + 3) =? player))
  then true
  else false.

Fixpoint isBoardFull_loop (board : GameBoard) (cols : list nat) : bool :=
  match cols with
  | [] => true
  | col :: rest =>
      if cell board 0 col =? Empty then false else isBoardFull_loop board rest
  end.

Definition isBoardFull (board : GameBoard) : bool :=
  isBoardFull_loop board (seq 0 Columns).

Definition getValidColumns (board : GameBoard) : list Z :=
  fold_left
    (fun validColumns col =>
       if cell board 0 col =? Empty then validColumns ++ [Z.of_nat col]
       else validColumns)
    (seq 0 Columns) [].

Definition isTerminalNode (board : GameBoard) : bool :=
  checkWin board Player || checkWin board Computer || isBoardFull board.

(** ** Results of code that can panic or, in the model, run out of fuel *)

Inductive result (A : Type) : Type :=
| Ok (a : A)
| Panic
| OutOfFuel.
Arguments Ok {A} a.
Arguments Panic {A}.
Arguments OutOfFuel {A}.

(** ** Dropping a piece *)

(** The loop [for row := Rows - 1; row >= 0; row--] of [dropPiece], over
    the rows still to visit; [break] after the first assignment. *)
Fixpoint dropPiece_loop (board : GameBoard) (rows : list nat) (col : nat) (player : Z)
  : GameBoard :=
  match rows with
  | [] => board
  | row :: rest =>
      if cell board row col =? Empty then setCell board row col player
      else dropPiece_loop board rest col player
  end.

(** [dropPiece] receives the array by value and returns its own copy.
    Indexing with a column outside the array panics. *)
Definition dropPiece (board : GameBoard) (col player : Z) : result GameBoard :=
  if (0 <=? col) && (col <? Z.of_nat Columns) then
    Ok (dropPiece_loop board (rev (seq 0 Rows)) (Z.to_nat col) player)
  else Panic.

(** ** Scores: [float64] restricted to the integers and the two infinities *)

Inductive score : Type :=
| NegInf
| Fin (z : Z)
| PosInf.

(** [a < b] on scores. *)
Definition slt (a b : score) : bool :=
  match a, b with
  | NegInf, NegInf => false
  | NegInf, _ => true
  | Fin _, NegInf => false
  | Fin x, Fin y => x <? y
  | Fin _, PosInf => true
  | PosInf, _ => false
  end.

(** [a >= b] on scores. *)
Definition sge (a b : score) : bool := negb (slt a b).

(** [math.Max] and [math.Min]. *)
Definition smax (a b : score) : score := if slt a b then b else a.
Definition smin (a b : score) : score := if slt b a then b else a.

(** ** The random source and the monad of the search *)

(** The raw draws still to come from [math/rand]. *)
Definition Rand : Type := nat -> Z.

Definition M (A : Type) : Type := Rand -> result (A * Rand).

Definition ret {A : Type} (a : A) : M A := fun r => Ok (a, r).

Definition bind {A B : Type} (m : M A) (f : A -> M B) : M B :=
  fun r =>
    match m r with
    | Ok (a, r') => f a r'
    | Panic => Panic
    | OutOfFuel => OutOfFuel
    end.

Definition lift {A : Type} (x : result A) : M A :=
  fun r =>
    match x with
    | Ok a => Ok (a, r)
    | Panic => Panic
    | OutOfFuel => OutOfFuel
    end.

Notation "x <- m ;; k" := (bind m (fun x => k))
  (at level 61, m at next level, right associativity).

(** [rand.Intn(n)]: a value of [[0, n)], a panic when [n <= 0]. *)
Definition Intn (n : Z) : M Z :=
  fun r => if n <=? 0 then Panic else Ok (r O mod n, fun k => r (S k)).

(** [l[i]] on a slice of [int]. *)
Definition index (l : list Z) (i : Z) : result Z :=
  if i <? 0 then Panic
  else match nth_error l (Z.to_nat i) with
       | Some x => Ok x
       | None => Panic
       end.

(** [depth - 1] on Go's 64-bit [int]. *)
Definition wrap64 (z : Z) : Z := (z + 2 ^ 63) mod 2 ^ 64 - 2 ^ 63.

(** ** Minimax with alpha-beta pruning *)

Section Loops.

(** The recursive call [minimax(newBoard, depth-1, alpha, beta, _)]. *)
Variable rec : GameBoard -> score -> score -> M (Z * score).

(** The loop of the maximizing branch over the columns still to try. *)
Fixpoint maxLoop (board : GameBoard) (cols : list Z) (value : score) (column : Z)
    (alpha beta : score) : M (Z * score) :=
  match cols with
  | [] => ret (column, value)
  | col :: rest =>
      newBoard <- lift (dropPiece board col Computer) ;;
      res <- rec newBoard alpha beta ;;
      let newScore := snd res in
      let '(value, column) :=
        if slt value newScore then (newScore, col) else (value, column) in
      let alpha := smax alpha value in
      if sge alpha beta then ret (column, value)
      else maxLoop board rest value column alpha beta
  end.

(** The loop of the minimizing branch. *)
Fixpoint minLoop (board : GameBoard) (cols : list Z) (value : score) (column : Z)
    (alpha beta : score) : M (Z * score) :=
  match cols with
  | [] => ret (column, value)
  | col :: rest =>
      newBoard <- lift (dropPiece board col Player) ;;
      res <- rec newBoard alpha beta ;;
      let newScore := snd res in
      let '(value, column) :=
        if slt newScore value then (newScore, col) else (value, column) in
      let beta := smin beta value in
      if sge alpha beta then ret (column, value)
      else minLoop board rest value column alpha beta
  end.

End Loops.

Fixpoint minimax_fuel (fuel : nat) (board : GameBoard) (depth : Z) (alpha beta : score)
    (maximizingPlayer : bool) {struct fuel} : M (Z * score) :=
  match fuel with
  | O => fun _ => OutOfFuel
  | S fuel' =>
      let validColumns := getValidColumns board in
      let isTerminal := isTerminalNode board in
      if (depth =? 0) || isTerminal then
        if isTerminal then
          if checkWin board Computer then ret (-1, PosInf)
          else if checkWin board Player then ret (-1, NegInf)
          else ret (-1, Fin 0)
        else ret (-1, Fin (evaluateBoard board))
      else if maximizingPlayer then
        let value := NegInf in
        i <- Intn (Z.of_nat (length validColumns)) ;;
        column <- lift (index validColumns i) ;;
        maxLoop
          (fun newBoard a b => minimax_fuel fuel' newBoard (wrap64 (depth - 1)) a b false)
          board validColumns value column alpha beta
      else
        let value := PosInf in
        i <- Intn (Z.of_nat (length validColumns)) ;;
        column <- lift (index validColumns i) ;;
        minLoop
          (fun newBoard a b => minimax_fuel fuel' newBoard (wrap64 (depth - 1)) a b true)
          board validColumns value column alpha beta
  end.

(** Every move fills one of the [Rows * Columns] cells, so the recursion is
    at most that deep (lemmas [searchFuel_enough] and [minimax_fuel_sound]). *)
Definition searchFuel : nat := S (Rows * Columns).

Definition minimax (board : GameBoard) (depth : Z) (alpha beta : score)
    (maximizingPlayer : bool) : M (Z * score) :=
  minimax_fuel searchFuel board depth alpha beta maximizingPlayer.

(** [rand.Seed(time.Now().UnixNano())] fixes the stream of draws: it is the
    argument [rng]. *)
Definition getComputerMove (board : GameBoard) (depth : Z) (rng : Rand) : result Z :=
  match minimax board depth NegInf PosInf true rng with
  | Ok (res, _) => Ok (fst res)
  | Panic => Panic
  | OutOfFuel => OutOfFuel
  end.

(** ** Definitions of the specification, for comparison with the code *)

(** *** Unpruned minimax: the same cutoff rule, every valid column visited *)

Definition rbind {A B : Type} (x : result A) (f : A -> result B) : result B :=
  match x with
  | Ok a => f a
  | Panic => Panic
  | OutOfFuel => OutOfFuel
  end.

Section FullLoops.

Variable rec : GameBoard -> result score.

(** The best (by [better]) of [value] and the scores of the children
    reached by dropping a piece of [mover] in each column of [cols]. *)
Fixpoint fullLoop (better : score -> score -> score) (mover : Z)
    (board : GameBoard) (cols : list Z) (value : score) : result score :=
  match cols with
  | [] => Ok value
  | col :: rest =>
      rbind (dropPiece board col mover) (fun newBoard =>
      rbind (rec newBoard) (fun newScore =>
      fullLoop better mover board rest (better value newScore)))
  end.

End FullLoops.

Fixpoint fullMinimax_fuel (fuel : nat) (board : GameBoard) (depth : Z)
    (maximizingPlayer : bool) {struct fuel} : result score :=
  match fuel with
  | O => OutOfFuel
  | S fuel' =>
      if (depth =? 0) || isTerminalNode board then
        if checkWin board Computer then Ok PosInf
        else if checkWin board Player then Ok NegInf
        else if isBoardFull board then Ok (Fin 0)
        else Ok (Fin (evaluateBoard board))
      else if maximizingPlayer then
        fullLoop (fun b => fullMinimax_fuel fuel' b (wrap64 (depth - 1)) false)
          smax Computer board (getValidColumns board) NegInf
      else
        fullLoop (fun b => fullMinimax_fuel fuel' b (wrap64 (depth - 1)) true)
          smin Player board (getValidColumns board) PosInf
  end.

Definition fullMinimax (board : GameBoard) (depth : Z) (maximizingPlayer : bool)
  : result score :=
  fullMinimax_fuel searchFuel board depth maximizingPlayer.

(** *** The evaluator as a sum over the length-4 segments *)

Definition zsum (l : list Z) : Z := fold_right Z.add 0 l.

(** How many cells of [cells] hold [v]. *)
Definition occurrences (v : Z) (cells : list Z) : Z :=
  Z.of_nat (count_occ Z.eq_dec cells v).

(** The score of a segment from the perspective of [player]. *)
Definition segmentScore (cells : list Z) (player : Z) : Z :=
  let mine := occurrences player cells in
  let free := occurrences Empty cells in
  if mine =? 4 then 100
  else if (mine =? 3) && (free =? 1) then 10
  else if (mine =? 2) && (free =? 2) then 5
  else 0.

Definition Segment : Type := list (nat * nat).

Definition horizontalSegments : list Segment :=
  flat_map (fun row : nat =>
    map (fun col : nat => ([(row, col); (row, col + 1); (row, col + 2); (row, col + 3)])%nat)
        (seq 0 (Columns - 3)))
    (seq 0 Rows).

Definition verticalSegments : list Segment :=
  flat_map (fun col : nat =>
    map (fun row : nat => ([(row, col); (row + 1, col); (row + 2, col); (row + 3, col)])%nat)
        (seq 0 (Rows - 3)))
    (seq 0 Columns).

Definition fallingSegments : list Segment :=
  flat_map (fun row : nat =>
    map (fun col : nat =>
           ([(row, col); (row + 1, col + 1); (row + 2, col + 2); (row + 3, col + 3)])%nat)
        (seq 0 (Columns - 3)))
    (seq 0 (Rows - 3)).

Definition risingSegments : list Segment :=
  flat_map (fun row : nat =>
    map (fun col : nat =>
           ([(row, col); (row - 1, col + 1); (row - 2, col + 2); (row - 3, col + 3)])%nat)
        (seq 0 (Columns - 3)))
    (seq 3 (Rows - 3)).

Definition allSegments : list Segment :=
  horizontalSegments ++ verticalSegments ++ fallingSegments ++ risingSegments.

Definition cellsOf (board : GameBoard) (seg : Segment) : list Z :=
  map (fun rc => cell board (fst rc) (snd rc)) seg.

Definition evaluateSpec (board : GameBoard) : Z :=
  zsum (map (fun seg => segmentScore (cellsOf board seg) Computer
                        - segmentScore (cellsOf board seg) Player) allSegments).

(** A cell of the opponent, seen from [player]: neither [player]'s nor Empty. *)
Definition opposing (player c : Z) : Prop := c <> player /\ c <> Empty.

(** *** Four in a row *)

Inductive FourInARow (board : GameBoard) (player : Z) : Prop :=
| FourHorizontal (row col : nat) :
    (row < Rows)%nat -> (col + 3 < Columns)%nat ->
    (forall i, (i < 4)%nat -> cell board row (col + i) = player) ->
    FourInARow board player
| FourVertical (row col : nat) :
    (row + 3 < Rows)%nat -> (col < Columns)%nat ->
    (forall i, (i < 4)%nat -> cell board (row + i) col = player) ->
    FourInARow board player
| FourFalling (row col : nat) :
    (row + 3 < Rows)%nat -> (col + 3 < Columns)%nat ->
    (forall i, (i < 4)%nat -> cell board (row + i) (col + i) = player) ->
    FourInARow board player
| FourRising (row col : nat) :
    (3 <= row < Rows)%nat -> (col + 3 < Columns)%nat ->
    (forall i, (i < 4)%nat -> cell board (row - i) (col + i) = player) ->
    FourInARow board player.

(** *** Exchanging the two players *)

Definition swapCell (c : Z) : Z :=
  if c =? Player then Computer else if c =? Computer then Player else c.

Definition swapPlayers (board : GameBoard) : GameBoard := map (map swapCell) board.

(** *** Counting cells *)

Definition countCells (p : Z -> bool) (board : GameBoard) : nat :=
  list_sum (map (fun r => length (filter p r)) board).

Definition countEmpty (board : GameBoard) : nat :=
  countCells (fun c => c =? Empty) board.

Definition countNonEmpty (board : GameBoard) : nat :=
  countCells (fun c => negb (c =? Empty)) board.

(** The lowest Empty row of a column: Empty, and nothing Empty below it. *)
Definition lowestEmptyRow (board : GameBoard) (col row : nat) : Prop :=
  (row < Rows)%nat /\ cell board row col = Empty /\
  forall r, (row < r < Rows)%nat -> cell board r col <> Empty.

(** *** Boards used as examples *)

Definition emptyBoard : GameBoard := repeat (repeat Empty Columns) Rows.

(** The Player has completed the bottom row; three columns of the
    Computer next to it. Every column is still open. *)
Definition playerWonBoard : GameBoard :=
  [ [0; 0; 0; 0; 0; 0; 0];
    [0; 0; 0; 0; 0; 0; 0];
    [0; 0; 0; 0; 0; 0; 0];
    [0; 0; 0; 0; 0; 0; 0];
    [0; 0; 0; 0; 0; 0; 0];
    [1; 1; 1; 1; 2; 2; 2] ].

(** Column 0 is full, the others are open. *)
Definition fullColumnBoard : GameBoard :=
  [ [2; 0; 0; 0; 0; 0; 0];
    [1; 0; 0; 0; 0; 0; 0];
    [2; 0; 0; 0; 0; 0; 0];
    [1; 0; 0; 0; 0; 0; 0];
    [2; 0; 0; 0; 0; 0; 0];
    [1; 0; 0; 0; 0; 0; 0] ].

(** A position after two moves each. *)
Definition midgameBoard : GameBoard :=
  [ [0; 0; 0; 0; 0; 0; 0];
    [0; 0; 0; 0; 0; 0; 0];
    [0; 0; 0; 0; 0; 0; 0];
    [0; 0; 0; 0; 0; 0; 0];
    [0; 0; 0; 1; 0; 0; 0];
    [0; 0; 2; 1; 2; 0; 0] ].

(** The Computer holds three cells of the bottom row; column 3 completes it. *)
Definition computerThreeBoard : GameBoard :=
  [ [0; 0; 0; 0; 0; 0; 0];
    [0; 0; 0; 0; 0; 0; 0];
    [0; 0; 0; 0; 0; 0; 0];
    [0; 0; 0; 0; 0; 0; 0];
    [0; 0; 0; 0; 0; 0; 0];
    [2; 2; 2; 0; 0; 0; 0] ].

(** The Player threatens to complete the bottom row in column 3. *)
Definition playerThreeBoard : GameBoard :=
  [ [0; 0; 0; 0; 0; 0; 0];
    [0; 0; 0; 0; 0; 0; 0];
    [0; 0; 0; 0; 0; 0; 0];
    [0; 0; 0; 0; 0; 0; 0];
    [0; 0; 0; 0; 0; 2; 2];
    [1; 1; 1; 0; 0; 0; 2] ].

(** A full board without four in a row. *)
Definition drawnBoard : GameBoard :=
  [ [1; 1; 2; 2; 1; 1; 2];
    [2; 2; 1; 1; 2; 2; 1];
    [1; 1; 2; 2; 1; 1; 2];
    [2; 2; 1; 1; 2; 2; 1];
    [1; 1; 2; 2; 1; 1; 2];
    [2; 2; 1; 1; 2; 2; 1] ].

(** A random source whose every raw draw is 0. *)
Definition zeroRand : Rand := fun _ => 0.

(** *** Auxiliary definitions of the proofs *)

(** Clamping a score to the window of the search. *)
Definition clamp (alpha beta x : score) : score := smax alpha (smin beta x).

(** The score of the cutoff rule. *)
Definition leafScore (board : GameBoard) : score :=
  if checkWin board Computer then PosInf
  else if checkWin board Player then NegInf
  else if isBoardFull board then Fin 0
  else Fin (evaluateBoard board).

(** A column that [getValidColumns] lists. *)
Definition validCol (board : GameBoard) (col : Z) : Prop :=
  0 <= col < Z.of_nat Columns /\ cell board 0 (Z.to_nat col) = Empty.

Definition b2n (b : bool) : nat := if b then 1%nat else 0%nat.

(** ** Further definitions for the properties of the engine *)

(** A score that the search can return: an infinity, or an integer in the
    range of the evaluator. *)
Definition boundedScore (s : score) : Prop :=
  match s with
  | Fin z => -6900 <= z <= 6900
  | _ => True
  end.

(** The caller's pattern [dropPiece(board, getComputerMove(board, depth), Computer)]. *)
Definition computerTurn (board : GameBoard) (depth : Z) (rng : Rand) : result GameBoard :=
  rbind (getComputerMove board depth rng) (fun col => dropPiece board col Computer).

(** The exact score of the position reached by the Computer's move [col]:
    the unpruned search of the child, one level down. *)
Definition childScore (board : GameBoard) (depth : Z) (col : Z) : result score :=
  rbind (dropPiece board col Computer) (fun newBoard =>
  fullMinimax newBoard (wrap64 (depth - 1)) false).

(** The column that [rand.Intn] picks from the valid columns with the
    first raw draw of [rng]. *)
Definition randomColumn (board : GameBoard) (rng : Rand) : Z :=
  nth (Z.to_nat (rng O mod Z.of_nat (length (getValidColumns board))))
      (getValidColumns board) 0.

(** The Computer wins at once by a move in [col]. *)
Definition winsAt (board : GameBoard) (col : Z) : Prop :=
  exists newBoard,
    dropPiece board col Computer = Ok newBoard /\ checkWin newBoard Computer = true.

(** Gravity: in no column does an Empty cell lie below a piece. *)
Definition gravity (board : GameBoard) : Prop :=
  forall row row' col : nat,
    (row < row' < Rows)%nat ->
    cell board row col <> Empty -> cell board row' col <> Empty.

(** A depth that a 64-bit [int] holds. *)
Definition int64 (z : Z) : Prop := - 2 ^ 63 <= z < 2 ^ 63.

(** The Player would win at once by a move in [col]. *)
Definition threatAt (board : GameBoard) (col : Z) : Prop :=
  exists newBoard,
    dropPiece board col Player = Ok newBoard /\ checkWin newBoard Player = true.

(** A depth below 0, or above the number of Empty cells. *)
Definition beyond (board : GameBoard) (depth : Z) : Prop :=
  int64 depth /\ (depth < 0 \/ Z.of_nat (countEmpty board) < depth).

(** The four pairs of loops of [checkWin], one by one. *)
Definition winHorizontal (board : GameBoard) (player : Z) : bool :=
  anyLoop (seq 0 Rows) (seq 0 (Columns - 3))
    (fun row col =>
       (cell board row col =? player) && (cell board row (col + 1) =? player)
       && (cell board row (col + 2) =? player) && (cell board row (col + 3) =? player)).

Definition winVertical (board : GameBoard) (player : Z) : bool :=
  anyLoop (seq 0 Columns) (seq 0 (Rows - 3))
    (fun col row =>
       (cell board row col =? player) && (cell board (row + 1) col =? player)
       && (cell board (row + 2) col =? player) && (cell board (row + 3) col =? player)).

Definition winFalling (board : GameBoard) (player : Z) : bool :=
  anyLoop (seq 0 (Rows - 3)) (seq 0 (Columns - 3))
    (fun row col =>
       (cell board row col =? player) && (cell board (row + 1) (col + 1) =? player)
       && (cell board (row + 2) (col + 2) =? player)
       && (cell board (row + 3) (col + 3) =? player)).

Definition winRising (board : GameBoard) (player : Z) : bool :=
  anyLoop (seq 3 (Rows - 3)) (seq 0 (Columns - 3))
    (fun row col =>
       (cell board row col =? player) && (cell board (row - 1) (col + 1) =? player)
       && (cell board (row - 2) (col + 2) =? player)
       && (cell board (row - 3) (col + 3) =? player)).

(** ** The game screen of gui.go

    [ConnectFourGame] with the fields of the game proper and of the
    buttons; layout, drawing, the text of the inputs and the decorative
    discs with their animation are left out, and of [activeInput] only
    whether it is nil. What [Update] reads from the window system in a
    frame (cursor tests, clicks, keys, the random source) is the record
    [Frame]. *)

From Stdlib Require String.

Module Gui.

Import String.

Definition StateLogin : Z := 0.
Definition StateGameMode : Z := 1.
Definition StateGame : Z := 2.
Definition StateGameOver : Z := 3.

(** The closures that [initUI] attaches to the buttons. *)
Inductive Action : Type :=
| ActLogin
| ActPlayComputer
| ActPlayOnline
| ActBack
| ActPlayAgain
| ActBackToMenu.

Record ConnectFourGame : Type := mkGame {
  state : Z;
  board : GameBoard;
  turn : Z;
  gameInProgress : bool;
  gameResult : string;
  hoverColumn : Z;
  isHovering : bool;
  computerThinking : bool;
  thinkingTimer : Z;
  buttons : list Action;
  activeInput : bool  (* [activeInput != nil] *)
}.

Definition withState (g : ConnectFourGame) (v : Z) : ConnectFourGame :=
  mkGame v (board g) (turn g) (gameInProgress g) (gameResult g) (hoverColumn g)
         (isHovering g) (computerThinking g) (thinkingTimer g) (buttons g) (activeInput g).

Definition withBoard (g : ConnectFourGame) (v : GameBoard) : ConnectFourGame :=
  mkGame (state g) v (turn g) (gameInProgress g) (gameResult g) (hoverColumn g)
         (isHovering g) (computerThinking g) (thinkingTimer g) (buttons g) (activeInput g).

Definition withTurn (g : ConnectFourGame) (v : Z) : ConnectFourGame :=
  mkGame (state g) (board g) v (gameInProgress g) (gameResult g) (hoverColumn g)
         (isHovering g) (computerThinking g) (thinkingTimer g) (buttons g) (activeInput g).

Definition withGameInProgress (g : ConnectFourGame) (v : bool) : ConnectFourGame :=
  mkGame (state g) (board g) (turn g) v (gameResult g) (hoverColumn g)
         (isHovering g) (computerThinking g) (thinkingTimer g) (buttons g) (activeInput g).

Definition withGameResult (g : ConnectFourGame) (v : string) : ConnectFourGame :=
  mkGame (state g) (board g) (turn g) (gameInProgress g) v (hoverColumn g)
         (isHovering g) (computerThinking g) (thinkingTimer g) (buttons g) (activeInput g).

Definition withHoverColumn (g : ConnectFourGame) (v : Z) : ConnectFourGame :=
  mkGame (state g) (board g) (turn g) (gameInProgress g) (gameResult g) v
         (isHovering g) (computerThinking g) (thinkingTimer g) (buttons g) (activeInput g).

Definition withIsHovering (g : ConnectFourGame) (v : bool) : ConnectFourGame :=
  mkGame (state g) (board g) (turn g) (gameInProgress g) (gameResult g) (hoverColumn g)
         v (computerThinking g) (thinkingTimer g) (buttons g) (activeInput g).

Definition withComputerThinking (g : ConnectFourGame) (v : bool) : ConnectFourGame :=
  mkGame (state g) (board g) (turn g) (gameInProgress g) (gameResult g) (hoverColumn g)
         (isHovering g) v (thinkingTimer g) (buttons g) (activeInput g).

Definition withThinkingTimer (g : ConnectFourGame) (v : Z) : ConnectFourGame :=
  mkGame (state g) (board g) (turn g) (gameInProgress g) (gameResult g) (hoverColumn g)
         (isHovering g) (computerThinking g) v (buttons g) (activeInput g).

Definition withButtons (g : ConnectFourGame) (v : list Action) : ConnectFourGame :=
  mkGame (state g) (board g) (turn g) (gameInProgress g) (gameResult g) (hoverColumn g)
         (isHovering g) (computerThinking g) (thinkingTimer g) v (activeInput g).

Definition withActiveInput (g : ConnectFourGame) (v : bool) : ConnectFourGame :=
  mkGame (state g) (board g) (turn g) (gameInProgress g) (gameResult g) (hoverColumn g)
         (isHovering g) (computerThinking g) (thinkingTimer g) (buttons g) v.

(** [initUI]: the buttons of the current screen. *)
Definition initUI (g : ConnectFourGame) : ConnectFourGame :=
  let g := withButtons g [] in
  if state g =? StateLogin then withActiveInput (withButtons g [ActLogin]) true
  else if state g =? StateGameMode then withButtons g [ActPlayComputer; ActPlayOnline]
  else if state g =? StateGame then withButtons g [ActBack]
  else if state g =? StateGameOver then withButtons g [ActPlayAgain; ActBackToMenu]
  else g.

(** The zero value [GameBoard{}]. *)
Definition zeroBoard : GameBoard := repeat (repeat 0 Columns) Rows.

Definition initializeGame (g : ConnectFourGame) : ConnectFourGame :=
  let g := withBoard g zeroBoard in
  let g := withGameInProgress g true in
  let g := withTurn g Player in
  let g := withGameResult g EmptyString in
  let g := withHoverColumn g (-1) in
  let g := withIsHovering g false in
  let g := withComputerThinking g false in
  let g := withThinkingTimer g 0 in
  (* Initialize the board to empty *)
  withBoard g
    (fold_left
       (fun b row => fold_left (fun b' col => setCell b' row col Empty) (seq 0 Columns) b)
       (seq 0 Rows) (board g)).

(** [NewConnectFourGame], as far as the modelled fields go. *)
Definition NewConnectFourGame : ConnectFourGame :=
  initUI (mkGame StateLogin zeroBoard 0 false EmptyString (-1) false false 0 [] false).

(** [btn.action()]. *)
Definition runAction (a : Action) (g : ConnectFourGame) : ConnectFourGame :=
  match a with
  | ActLogin => initUI (withState g StateGameMode)
  | ActPlayComputer => initUI (withState (initializeGame g) StateGame)
  | ActPlayOnline => g
  | ActBack => initUI (withState g StateGameMode)
  | ActPlayAgain => initUI (withState (initializeGame g) StateGame)
  | ActBackToMenu => initUI (withState g StateGameMode)
  end.

(** What a frame reads from outside. *)
Record Frame : Type := mkFrame {
  resized : bool;            (* the window size changed *)
  overBoard : bool;          (* the cursor's y lies in the board area *)
  columnHit : nat -> bool;   (* the cursor's x lies in the span of the column *)
  clicked : bool;            (* [IsMouseButtonJustPressed(MouseButtonLeft)] *)
  buttonHit : nat -> bool;   (* the cursor lies in the rectangle of the i-th button *)
  inputHit : bool;           (* the cursor lies in the rectangle of a text input *)
  enter : bool;              (* [IsKeyJustPressed(KeyEnter)] *)
  rng : Rand                 (* the random source of this frame *)
}.

(** The loop over the columns of the hover block; [break] at the first hit. *)
Fixpoint hoverLoop (hit : nat -> bool) (cols : list nat) (g : ConnectFourGame)
  : ConnectFourGame :=
  match cols with
  | [] => g
  | col :: rest =>
      if hit col then withIsHovering (withHoverColumn g (Z.of_nat col)) true
      else hoverLoop hit rest g
  end.

Definition hover (g : ConnectFourGame) (f : Frame) : ConnectFourGame :=
  if (state g =? StateGame) && gameInProgress g && (turn g =? Player) then
    if overBoard f then
      hoverLoop (columnHit f) (seq 0 Columns) (withHoverColumn (withIsHovering g false) (-1))
    else withHoverColumn (withIsHovering g false) (-1)
  else g.

(** The click on the board: the Player's move. *)
Definition playerMove (g : ConnectFourGame) : result ConnectFourGame :=
  if (state g =? StateGame) && gameInProgress g && (turn g =? Player)
     && isHovering g && (0 <=? hoverColumn g) && (hoverColumn g <? Z.of_nat Columns)
  then
    if cell (board g) 0 (Z.to_nat (hoverColumn g)) =? Empty then
      rbind (dropPiece (board g) (hoverColumn g) Player) (fun b =>
      let g := withBoard g b in
      if checkWin (board g) Player then
        Ok (initUI (withState (withGameInProgress (withGameResult g "You Won!") false)
                              StateGameOver))
      else if isBoardFull (board g) then
        Ok (initUI (withState (withGameInProgress (withGameResult g "It's a Tie!") false)
                              StateGameOver))
      else Ok (withTurn g Computer))
    else Ok g
  else Ok g.

(** The loop over the buttons; the first one hit runs its action, and
    [Update] returns (the result is [Some]). *)
Fixpoint buttonLoop (hit : nat -> bool) (i : nat) (btns : list Action)
    (g : ConnectFourGame) : option ConnectFourGame :=
  match btns with
  | [] => None
  | a :: rest => if hit i then Some (runAction a g) else buttonLoop hit (S i) rest g
  end.

(** The click on a text input makes it the active one. *)
Definition focusClick (g : ConnectFourGame) (f : Frame) : ConnectFourGame :=
  if inputHit f then withActiveInput g true else g.

(** The Enter key. *)
Definition keyboard (g : ConnectFourGame) (f : Frame) : ConnectFourGame :=
  if activeInput g then
    if enter f then
      if state g =? StateLogin then initUI (withState g StateGameMode) else g
    else g
  else g.

(** The Computer's move, after its thinking delay. *)
Definition computerLogic (g : ConnectFourGame) (f : Frame) : result ConnectFourGame :=
  if (state g =? StateGame) && gameInProgress g && (turn g =? Computer) then
    if negb (computerThinking g) then
      Ok (withThinkingTimer (withComputerThinking g true) 18)
    else
      let g := withThinkingTimer g (thinkingTimer g - 1) in
      if thinkingTimer g <=? 0 then
        rbind (getComputerMove (board g) 5 (rng f)) (fun computerCol =>
        rbind (dropPiece (board g) computerCol Computer) (fun b =>
        let g := withBoard g b in
        let g := withComputerThinking g false in
        if checkWin (board g) Computer then
          Ok (initUI (withState (withGameInProgress (withGameResult g "Computer Won!") false)
                                StateGameOver))
        else if isBoardFull (board g) then
          Ok (initUI (withState (withGameInProgress (withGameResult g "It's a Tie!") false)
                                StateGameOver))
        else Ok (withTurn g Player)))
      else Ok g
  else Ok g.

Definition Update (g : ConnectFourGame) (f : Frame) : result ConnectFourGame :=
  let g := if resized f then initUI g else g in
  let g := hover g f in
  if clicked f then
    rbind (playerMove g) (fun g =>
    match buttonLoop (buttonHit f) 0 (buttons g) g with
    | Some g' => Ok g'
    | None => computerLogic (keyboard (focusClick g f) f) f
    end)
  else computerLogic (keyboard g f) f.

(** The games that a run of the program can show. *)
Inductive reachable : ConnectFourGame -> Prop :=
| reach_new : reachable NewConnectFourGame
| reach_update (g g' : ConnectFourGame) (f : Frame) :
    reachable g -> Update g f = Ok g' -> reachable g'.

(** How many cells hold [v]. *)
Definition pieces (v : Z) (b : GameBoard) : nat := countCells (fun c => c =? v) b.

(** Every cell holds Empty, a piece of the Player or one of the Computer. *)
Definition cellsOk (b : GameBoard) : Prop :=
  forall r c : nat, cell b r c = Empty \/ cell b r c = Player \/ cell b r c = Computer.

(** A game in progress: nobody has won, a column is open, and the side
    to move is the Player with as many pieces as the Computer, or the
    Computer with one piece less than the Player. *)
Definition inPlay (b : GameBoard) (t : Z) : Prop :=
  isTerminalNode b = false /\
  ((t = Player /\ pieces Player b = pieces Computer b) \/
   (t = Computer /\ pieces Player b = S (pieces Computer b))).

(** A finished game and the message shown for it. *)
Definition finished (b : GameBoard) (res : string) : Prop :=
  (res = "You Won!"%string /\ checkWin b Player = true /\ checkWin b Computer = false) \/
  (res = "Computer Won!"%string /\ checkWin b Computer = true /\ checkWin b Player = false) \/
  (res = "It's a Tie!"%string /\ isBoardFull b = true /\
   checkWin b Player = false /\ checkWin b Computer = false).

Definition Inv (g : ConnectFourGame) : Prop :=
  wf_board (board g) /\ gravity (board g) /\ cellsOk (board g) /\
  (state g = StateGame -> gameInProgress g = true /\ inPlay (board g) (turn g)) /\
  (state g = StateGameOver -> gameInProgress g = false /\ finished (board g) (gameResult g)).

(** The cursor is over a column of the board, or nowhere. *)
Definition hoverOk (g : ConnectFourGame) : Prop :=
  (isHovering g = false /\ hoverColumn g = -1) \/
  (isHovering g = true /\ 0 <= hoverColumn g < Z.of_nat Columns).

(** Frames and runs used as examples. *)
Definition idle : Frame :=
  mkFrame false false (fun _ => false) false (fun _ => false) false false zeroRand.

Definition clickButton (i : nat) : Frame :=
  mkFrame false false (fun _ => false) true (fun j => Nat.eqb j i) false false zeroRand.

Definition clickColumn (c : nat) : Frame :=
  mkFrame false true (fun j => Nat.eqb j c) true (fun _ => false) false false zeroRand.

(** [Update] frame after frame. *)
Fixpoint run (g : ConnectFourGame) (fs : list Frame) : result ConnectFourGame :=
  match fs with
  | [] => Ok g
  | f :: rest => rbind (Update g f) (fun g' => run g' rest)
  end.

(** Log in, start a game against the Computer. *)
Definition startFrames : list Frame := [clickButton 0; clickButton 0].

(** A move of the Player in column [c], then the Computer's thinking
    delay and its move. *)
Definition roundFrames (c : nat) : list Frame := clickColumn c :: repeat idle 19.

End Gui.

(** The game right after its start, and a game played to its end. *)
Definition startedGame :=
  Eval vm_compute in
    match Gui.run Gui.NewConnectFourGame Gui.startFrames with
    | Ok g => g
    | _ => Gui.NewConnectFourGame
    end.

Definition playedFrames : list Gui.Frame :=
  Gui.startFrames ++ Gui.roundFrames 3 ++ Gui.roundFrames 3 ++ Gui.roundFrames 3
              ++ Gui.roundFrames 0 ++ Gui.roundFrames 0.

Definition playedGame :=
  Eval vm_compute in
    match Gui.run Gui.NewConnectFourGame playedFrames with
    | Ok g => g
    | _ => Gui.NewConnectFourGame
    end.

(** ** The console game of main.go

    The grid with its list of columns that are not full. Runes are
    their code points; what the functions print is left out. *)

Module Cli.

Definition columns : nat := 7.
Definition rows : nat := 6.
Definition local : Z := 88.     (* 'X' *)
Definition opponent : Z := 79.  (* 'O' *)
Definition empty : Z := 46.     (* '.' *)

Record Grid : Type := mkGrid {
  board : GameBoard;
  winner : Z;
  nonFullCols : list Z
}.

Definition withBoard (g : Grid) (b : GameBoard) : Grid :=
  mkGrid b (winner g) (nonFullCols g).

Definition withWinner (g : Grid) (w : Z) : Grid :=
  mkGrid (board g) w (nonFullCols g).

Definition withNonFullCols (g : Grid) (l : list Z) : Grid :=
  mkGrid (board g) (winner g) l.

Definition initGrid : Grid :=
  let g := mkGrid (repeat (repeat 0 columns) rows) empty [0; 1; 2; 3; 4; 5; 6] in
  withBoard g
    (fold_left
       (fun b i => fold_left (fun b' j => setCell b' i j empty) (seq 0 columns) b)
       (seq 0 rows) (board g)).

(** The loop of [drop] that looks for [column] in [nonFullCols] and cuts
    it out: [append(s[:idx], s[idx+1:]...)] at the first match. *)
Fixpoint removeColumn (column : Z) (cols : list Z) : list Z :=
  match cols with
  | [] => []
  | col :: rest => if col =? column then rest else col :: removeColumn column rest
  end.

(** The loop [for i := rows - 1; i >= 0; i--] of [drop], over the rows
    still to visit. *)
Fixpoint drop_loop (g : Grid) (todo : list nat) (column : Z) (player : Z) : Grid :=
  match todo with
  | [] => g  (* g.print() *)
  | i :: rest =>
      if cell (board g) i (Z.to_nat column) =? empty then
        withBoard g (setCell (board g) i (Z.to_nat column) player)
      else
        let g := if Nat.eqb i 1
                 then withNonFullCols g (removeColumn column (nonFullCols g))
                 else g in
        drop_loop g rest column player
  end.

(** Indexing the board with a column outside the array panics. *)
Definition drop (g : Grid) (column player : Z) : result Grid :=
  if (0 <=? column) && (column <? Z.of_nat columns) then
    Ok (drop_loop g (rev (seq 0 rows)) column player)
  else Panic.

(** A pair of nested loops of [checkWin]; every match overwrites the
    winner. *)
Definition winLoop (outer inner : list nat) (test : nat -> nat -> bool)
    (value : nat -> nat -> Z) (w : Z) : Z :=
  fold_left (fun w1 i => fold_left (fun w2 j => if test i j then value i j else w2) inner w1)
            outer w.

(** [a != empty && a == b && a == c && a == d]. *)
Definition sameFour (a b c d : Z) : bool :=
  negb (a =? empty) && (a =? b) && (a =? c) && (a =? d).

Definition checkWin (g : Grid) : Grid :=
  let b := board g in
  (* Check horizontal *)
  let w := winLoop (seq 0 rows) (seq 0 (columns - 3))
             (fun i j => sameFour (cell b i j) (cell b i (j + 1))
                                  (cell b i (j + 2)) (cell b i (j + 3)))
             (fun i j => cell b i j) (winner g) in
  (* Check vertical *)
  let w := winLoop (seq 0 (rows - 3)) (seq 0 columns)
             (fun i j => sameFour (cell b i j) (cell b (i + 1) j)
                                  (cell b (i + 2) j) (cell b (i + 3) j))
             (fun i j => cell b i j) w in
  (* Check diagonal *)
  let w := winLoop (seq 0 (rows - 3)) (seq 0 (columns - 3))
             (fun i j => sameFour (cell b i j) (cell b (i + 1) (j + 1))
                                  (cell b (i + 2) (j + 2)) (cell b (i + 3) (j + 3)))
             (fun i j => cell b i j) w in
  (* Check diagonal *)
  let w := winLoop (seq 3 (rows - 3)) (seq 0 (columns - 3))
             (fun i j => sameFour (cell b i j) (cell b (i - 1) (j + 1))
                                  (cell b (i - 2) (j + 2)) (cell b (i - 3) (j + 3)))
             (fun i j => cell b i j) w in
  withWinner g w.

(** [computerMove]: the loop [for { ... }] runs until the column drawn
    has an empty top cell; [fuel] bounds its passes. *)
Fixpoint computerMove (fuel : nat) (g : Grid) : M Grid :=
  match fuel with
  | O => fun _ => OutOfFuel
  | S fuel' =>
      i <- Intn (Z.of_nat (length (nonFullCols g)) - 1) ;;
      column <- lift (index (nonFullCols g) i) ;;
      if (0 <=? column) && (column <? Z.of_nat columns) then
        if cell (board g) 0 (Z.to_nat column) =? empty then lift (drop g column opponent)
        else computerMove fuel' g
      else fun _ => Panic
  end.

(** [nonFullCols] lists, in ascending order, the columns whose top cell
    is empty. *)
Definition inSync (g : Grid) : Prop :=
  wf_board (board g) /\ StronglySorted Z.lt (nonFullCols g) /\
  forall c : Z,
    In c (nonFullCols g) <->
    0 <= c < Z.of_nat columns /\ cell (board g) 0 (Z.to_nat c) = empty.

(** Four cells in a row that hold [v]. *)
Definition line (b : GameBoard) (v : Z) : Prop := v <> empty /\ FourInARow b v.

(** A grid with one column left. *)
Definition lastColumnGrid : Grid :=
  mkGrid [ [88; 79; 88; 79; 88; 79; 46];
           [79; 88; 79; 88; 79; 88; 46];
           [88; 79; 88; 79; 88; 79; 46];
           [88; 79; 88; 79; 88; 79; 46];
           [79; 88; 79; 88; 79; 88; 46];
           [88; 79; 88; 79; 88; 79; 46] ] empty [6].

End Cli.

(** * Properties *)

(** ** The embedding on the scenarios of the specification *)

Example getComputerMove_takes_the_win :
  getComputerMove computerThreeBoard 1 zeroRand = Ok 3 /\
  getComputerMove computerThreeBoard 3 (fun k => Z.of_nat k + 5) = Ok 3.
Proof. split; vm_compute; reflexivity. Qed.

Example getComputerMove_blocks_the_threat :
  getComputerMove playerThreeBoard 2 zeroRand = Ok 3.
Proof. vm_compute. reflexivity. Qed.

Example getComputerMove_on_the_empty_board :
  getComputerMove emptyBoard 2 (fun _ => 4) = Ok 0.
Proof. vm_compute. reflexivity. Qed.

Example drawnBoard_is_terminal :
  checkWin drawnBoard Player = false /\ checkWin drawnBoard Computer = false /\
  isBoardFull drawnBoard = true /\ isTerminalNode drawnBoard = true /\
  evaluateBoard drawnBoard = 0.
Proof. repeat split; vm_compute; reflexivity. Qed.

Example dropPiece_on_midgameBoard :
  dropPiece midgameBoard 3 Computer
  = Ok [ [0; 0; 0; 0; 0; 0; 0];
         [0; 0; 0; 0; 0; 0; 0];
         [0; 0; 0; 0; 0; 0; 0];
         [0; 0; 0; 2; 0; 0; 0];
         [0; 0; 0; 1; 0; 0; 0];
         [0; 0; 2; 1; 2; 0; 0] ] /\
  dropPiece midgameBoard 7 Computer = Panic /\
  dropPiece midgameBoard (-1) Computer = Panic.
Proof. repeat split; vm_compute; reflexivity. Qed.

Example evaluateBoard_values :
  evaluateBoard midgameBoard = -5 /\ evaluateBoard computerThreeBoard = 15.
Proof. split; vm_compute; reflexivity. Qed.

(** ** Lists *)

Lemma length_update {A : Type} (n : nat) (x : A) (l : list A) :
  length (update n x l) = length l.
Proof.
  revert n; induction l as [|h t IH]; intros [|n]; simpl; auto.
Qed.

Lemma nth_update_eq {A : Type} (n : nat) (x d : A) (l : list A) :
  (n < length l)%nat -> nth n (update n x l) d = x.
Proof.
  revert n; induction l as [|h t IH]; intros [|n] Hn; simpl in *; try lia; auto.
  apply IH; lia.
Qed.

Lemma nth_update_neq {A : Type} (n m : nat) (x d : A) (l : list A) :
  n <> m -> nth n (update m x l) d = nth n l d.
Proof.
  revert n m; induction l as [|h t IH]; intros [|n] [|m] Hnm; simpl; auto.
  - congruence.
Qed.

Lemma fold_left_append_filter {A B : Type} (p : A -> bool) (f : A -> B) (l : list A) :
  forall acc,
    fold_left (fun acc x => if p x then acc ++ [f x] else acc) l acc
    = acc ++ map f (filter p l).
Proof.
  induction l as [|x l IH]; intros acc; simpl.
  - now rewrite app_nil_r.
  - rewrite IH. destruct (p x); simpl; auto. now rewrite <- app_assoc.
Qed.

Lemma StronglySorted_filter {A : Type} (R : A -> A -> Prop) (p : A -> bool) (l : list A) :
  StronglySorted R l -> StronglySorted R (filter p l).
Proof.
  induction 1 as [|x l Hs IH Hall]; simpl; [constructor|].
  destruct (p x); auto. constructor; auto.
  rewrite Forall_forall in *. intros y Hy. apply filter_In in Hy. apply Hall, Hy.
Qed.

Lemma StronglySorted_seq (a n : nat) : StronglySorted lt (seq a n).
Proof.
  revert a; induction n as [|n IH]; intros a; simpl; constructor; auto.
  rewrite Forall_forall. intros y Hy. apply in_seq in Hy. lia.
Qed.

Lemma StronglySorted_map_of_nat (l : list nat) :
  StronglySorted lt l -> StronglySorted Z.lt (map Z.of_nat l).
Proof.
  induction 1 as [|x l Hs IH Hall]; simpl; constructor; auto.
  rewrite Forall_forall in *. intros y Hy. apply in_map_iff in Hy.
  destruct Hy as (k & <- & Hk). apply Hall in Hk. lia.
Qed.

(** ** Valid columns and full boards *)

Lemma getValidColumns_filter (board : GameBoard) :
  getValidColumns board
  = map Z.of_nat (filter (fun col => cell board 0 col =? Empty) (seq 0 Columns)).
Proof.
  unfold getValidColumns.
  now rewrite (fold_left_append_filter (fun col => cell board 0 col =? Empty) Z.of_nat).
Qed.

Lemma In_getValidColumns (board : GameBoard) (col : Z) :
  In col (getValidColumns board) <->
  0 <= col < Z.of_nat Columns /\ cell board 0 (Z.to_nat col) = Empty.
Proof.
  rewrite getValidColumns_filter, in_map_iff. split.
  - intros (k & <- & Hk). apply filter_In in Hk. destruct Hk as [Hk He].
    apply in_seq in Hk. apply Z.eqb_eq in He. rewrite Nat2Z.id. split; [lia | exact He].
  - intros [Hr He]. exists (Z.to_nat col). split; [lia|].
    apply filter_In. split; [apply in_seq; lia | now apply Z.eqb_eq].
Qed.

Lemma isBoardFull_loop_true (board : GameBoard) (cols : list nat) :
  isBoardFull_loop board cols = true <->
  forall col, In col cols -> cell board 0 col <> Empty.
Proof.
  induction cols as [|c cols IH]; simpl.
  - split; [intros _ col [] | reflexivity].
  - destruct (Z.eqb_spec (cell board 0 c) Empty) as [He|Hne].
    + split; [discriminate|]. intros H. exfalso. apply (H c); auto.
    + rewrite IH. split.
      * intros H col [<-|Hin]; auto.
      * intros H col Hin. apply H; auto.
Qed.

Lemma isBoardFull_true (board : GameBoard) :
  isBoardFull board = true <->
  forall col, (col < Columns)%nat -> cell board 0 col <> Empty.
Proof.
  unfold isBoardFull. rewrite isBoardFull_loop_true. split.
  - intros H col Hc. apply H, in_seq. lia.
  - intros H col Hc. apply H. apply in_seq in Hc. lia.
Qed.

Lemma getValidColumns_nil (board : GameBoard) :
  getValidColumns board = [] <-> isBoardFull board = true.
Proof.
  rewrite isBoardFull_true. split.
  - intros Hnil col Hc He.
    assert (Hin : In (Z.of_nat col) (getValidColumns board)).
    { apply In_getValidColumns. rewrite Nat2Z.id. split; [lia | exact He]. }
    rewrite Hnil in Hin. exact Hin.
  - intros Hfull. destruct (getValidColumns board) as [|c l] eqn:E; auto.
    assert (Hin : In c (getValidColumns board)) by (rewrite E; left; reflexivity).
    apply In_getValidColumns in Hin. destruct Hin as [Hr He].
    exfalso. apply (Hfull (Z.to_nat c)); [lia | exact He].
Qed.

(** C8. [getValidColumns] is the strictly ascending list of exactly the
    columns whose top cell is Empty; it is empty if and only if
    [isBoardFull] holds, and [isBoardFull] holds if and only if the top
    cell of each of the seven columns is not Empty. *)
Theorem getValidColumns_spec : forall board : GameBoard,
  StronglySorted Z.lt (getValidColumns board) /\
  (forall col : Z,
      In col (getValidColumns board) <->
      0 <= col < Z.of_nat Columns /\ cell board 0 (Z.to_nat col) = Empty) /\
  (getValidColumns board = [] <-> isBoardFull board = true) /\
  (isBoardFull board = true <->
   forall col : nat, (col < Columns)%nat -> cell board 0 col <> Empty).
Proof.
  intros board. split; [|split; [|split]].
  - rewrite getValidColumns_filter.
    apply StronglySorted_map_of_nat, StronglySorted_filter, StronglySorted_seq.
  - apply In_getValidColumns.
  - apply getValidColumns_nil.
  - apply isBoardFull_true.
Qed.

(** ** Cells of an updated board *)

Lemma wf_board_row (board : GameBoard) (row : nat) :
  wf_board board -> (row < Rows)%nat -> length (nth row board []) = Columns.
Proof.
  intros [Hlen Hall] Hrow. rewrite Forall_forall in Hall.
  apply Hall, nth_In. lia.
Qed.

Lemma wf_board_setCell (board : GameBoard) (row col : nat) (v : Z) :
  wf_board board -> wf_board (setCell board row col v).
Proof.
  intros Hwf. pose proof Hwf as [Hlen Hall]. unfold setCell. split.
  - now rewrite length_update.
  - rewrite Forall_forall in *. intros r Hr.
    destruct (In_nth _ _ [] Hr) as (k & Hk & <-).
    rewrite length_update in Hk.
    destruct (Nat.eq_dec k row) as [->|Hne].
    + rewrite nth_update_eq by lia. rewrite length_update.
      apply wf_board_row; auto; lia.
    + rewrite nth_update_neq by auto. apply Hall, nth_In, Hk.
Qed.

Lemma cell_setCell_eq (board : GameBoard) (row col : nat) (v : Z) :
  wf_board board -> (row < Rows)%nat -> (col < Columns)%nat ->
  cell (setCell board row col v) row col = v.
Proof.
  intros Hwf Hrow Hcol. unfold cell, setCell.
  rewrite nth_update_eq by (destruct Hwf; lia).
  apply nth_update_eq. rewrite wf_board_row; auto.
Qed.

Lemma cell_setCell_neq (board : GameBoard) (row col r c : nat) (v : Z) :
  (r, c) <> (row, col) ->
  cell (setCell board row col v) r c = cell board r c.
Proof.
  intros Hne. unfold cell, setCell.
  destruct (Nat.eq_dec r row) as [->|Hr].
  - destruct (Nat.lt_ge_cases row (length board)) as [Hlt|Hge].
    + rewrite nth_update_eq by auto. apply nth_update_neq. congruence.
    + assert (E : forall l : GameBoard, (length l <= row)%nat -> nth row l [] = [])
        by (intros l Hl; now apply nth_overflow).
      rewrite !E; auto. now rewrite length_update.
  - now rewrite nth_update_neq.
Qed.

(** ** Counting the cells that satisfy a test *)

Lemma filter_update_count (p : Z -> bool) (col : nat) (v : Z) (l : list Z) :
  (col < length l)%nat ->
  (length (filter p (update col v l)) + b2n (p (nth col l Empty))
   = length (filter p l) + b2n (p v))%nat.
Proof.
  revert col; induction l as [|h t IH]; intros [|col] Hc; simpl in *; try lia.
  - destruct (p h), (p v); simpl; lia.
  - specialize (IH col ltac:(lia)). destruct (p h); simpl; lia.
Qed.

Lemma list_sum_update_count (f : list Z -> nat) (row : nat) (r' : list Z)
    (board : GameBoard) :
  (row < length board)%nat ->
  (list_sum (map f (update row r' board)) + f (nth row board [])
   = list_sum (map f board) + f r')%nat.
Proof.
  revert row; induction board as [|h t IH]; intros [|row] Hr; simpl in *; try lia.
  specialize (IH row ltac:(lia)). lia.
Qed.

Lemma countCells_setCell (p : Z -> bool) (board : GameBoard) (row col : nat) (v : Z) :
  wf_board board -> (row < Rows)%nat -> (col < Columns)%nat ->
  (countCells p (setCell board row col v) + b2n (p (cell board row col))
   = countCells p board + b2n (p v))%nat.
Proof.
  intros Hwf Hrow Hcol. unfold countCells, setCell, cell.
  pose proof (list_sum_update_count (fun r => length (filter p r)) row
                (update col v (nth row board [])) board) as H1.
  pose proof (filter_update_count p col v (nth row board [])) as H2.
  rewrite wf_board_row in H2 by auto.
  destruct Hwf as [Hlen _]. rewrite Hlen in H1.
  specialize (H1 Hrow). specialize (H2 Hcol). cbv beta in H1.
  set (A := list_sum (map _ (update _ _ _))) in *. set (B := list_sum _) in *.
  set (X := length (filter p (nth row board []))) in *.
  set (Y := length (filter p (update _ _ _))) in *.
  clearbody A B X Y.
  generalize dependent (b2n (p (nth col (nth row board []) Empty))).
  generalize (b2n (p v)).
  intros; lia.
Qed.

Lemma countCells_le (p : Z -> bool) (board : GameBoard) :
  wf_board board -> (countCells p board <= Rows * Columns)%nat.
Proof.
  intros [Hlen Hall]. unfold countCells. rewrite <- Hlen. clear Hlen.
  induction Hall as [|r l Hr Hall IH]; simpl; [lia|].
  pose proof (filter_length_le p r). unfold Columns in *. lia.
Qed.

(** ** Dropping a piece *)

Lemma dropPiece_loop_full (board : GameBoard) (rows : list nat) (col : nat) (player : Z) :
  (forall row, In row rows -> cell board row col <> Empty) ->
  dropPiece_loop board rows col player = board.
Proof.
  induction rows as [|row rest IH]; intros Hfull; simpl; auto.
  destruct (Z.eqb_spec (cell board row col) Empty) as [He|_].
  - exfalso. apply (Hfull row); simpl; auto.
  - apply IH. intros r Hr. apply Hfull. simpl; auto.
Qed.

Lemma dropPiece_loop_lowest (board : GameBoard) (col : nat) (player : Z) (n : nat) :
  (exists r, (r < n)%nat /\ cell board r col = Empty) ->
  exists row,
    (row < n)%nat /\ cell board row col = Empty /\
    (forall r, (row < r < n)%nat -> cell board r col <> Empty) /\
    dropPiece_loop board (rev (seq 0 n)) col player = setCell board row col player.
Proof.
  induction n as [|n IH]; intros (r & Hr & He); [lia|].
  rewrite seq_S, rev_app_distr. simpl.
  destruct (Z.eqb_spec (cell board n col) Empty) as [Hn|Hn].
  - exists n. repeat split; auto; intros; lia.
  - assert (Hrn : (r < n)%nat).
    { destruct (Nat.eq_dec r n) as [->|]; [contradiction | lia]. }
    destruct IH as (row & Hrow & Hrow_e & Hbelow & Hloop); [now exists r|].
    exists row. repeat split; auto.
    intros r' Hr'. destruct (Nat.eq_dec r' n) as [->|]; auto. apply Hbelow. lia.
Qed.

(** What [dropPiece] does on a column whose top cell is Empty. *)
Lemma dropPiece_valid (board : GameBoard) (col player : Z) :
  wf_board board ->
  0 <= col < Z.of_nat Columns ->
  cell board 0 (Z.to_nat col) = Empty ->
  exists row,
    dropPiece board col player = Ok (setCell board row (Z.to_nat col) player) /\
    lowestEmptyRow board (Z.to_nat col) row.
Proof.
  intros Hwf Hcol Htop. unfold dropPiece.
  replace ((0 <=? col) && (col <? Z.of_nat Columns)) with true
    by (symmetry; apply andb_true_iff; split; [apply Z.leb_le | apply Z.ltb_lt]; lia).
  destruct (dropPiece_loop_lowest board (Z.to_nat col) player Rows)
    as (row & Hrow & He & Hbelow & Hloop).
  { exists 0%nat. split; [unfold Rows; lia | exact Htop]. }
  exists row. rewrite Hloop. repeat split; auto.
Qed.

(** C5. On a column whose top cell is Empty, [dropPiece] returns a board
    that holds [player] in the lowest Empty row of that column and agrees
    with the input in every other cell; as [player] is not Empty, the
    result differs from the input in exactly that cell and has exactly one
    more non-Empty cell. The board is passed by value (a Go array): the
    caller's [board] is the same value before and after the call. *)
Theorem dropPiece_places_one_piece :
  forall (board : GameBoard) (col player : Z),
    wf_board board ->
    0 <= col < Z.of_nat Columns ->
    player <> Empty ->
    cell board 0 (Z.to_nat col) = Empty ->
    exists (board' : GameBoard) (row : nat),
      dropPiece board col player = Ok board' /\
      wf_board board' /\
      lowestEmptyRow board (Z.to_nat col) row /\
      cell board' row (Z.to_nat col) = player /\
      cell board' row (Z.to_nat col) <> cell board row (Z.to_nat col) /\
      (forall r c : nat,
          (r, c) <> (row, Z.to_nat col) -> cell board' r c = cell board r c) /\
      countNonEmpty board' = S (countNonEmpty board).
Proof.
  intros board col player Hwf Hcol Hp Htop.
  destruct (dropPiece_valid board col player Hwf Hcol Htop) as (row & Hdrop & Hlow).
  pose proof Hlow as (Hrow & He & _).
  assert (Hc : (Z.to_nat col < Columns)%nat) by lia.
  exists (setCell board row (Z.to_nat col) player), row.
  split; [exact Hdrop|]. split; [now apply wf_board_setCell|].
  split; [exact Hlow|].
  rewrite cell_setCell_eq by auto.
  split; [reflexivity|]. split; [now rewrite He|].
  split; [intros r c Hne; now apply cell_setCell_neq|].
  pose proof (countCells_setCell (fun c => negb (c =? Empty)) board row
                (Z.to_nat col) player Hwf Hrow Hc) as Hcount.
  rewrite He in Hcount. simpl in Hcount.
  destruct (Z.eqb_spec player Empty) as [|_]; [contradiction|].
  unfold countNonEmpty. simpl in Hcount. lia.
Qed.

Lemma dropPiece_places_one_piece_witness :
  exists (board' : GameBoard) (row : nat),
    dropPiece midgameBoard 3 Computer = Ok board' /\
    wf_board board' /\
    lowestEmptyRow midgameBoard (Z.to_nat 3) row /\
    cell board' row (Z.to_nat 3) = Computer /\
    cell board' row (Z.to_nat 3) <> cell midgameBoard row (Z.to_nat 3) /\
    (forall r c : nat,
        (r, c) <> (row, Z.to_nat 3) -> cell board' r c = cell midgameBoard r c) /\
    countNonEmpty board' = S (countNonEmpty midgameBoard).
Proof.
  apply (dropPiece_places_one_piece midgameBoard 3 Computer).
  - split; [reflexivity | repeat constructor].
  - unfold Columns. lia.
  - discriminate.
  - reflexivity.
Defined.

(** C10. On a column with no Empty cell, [dropPiece] returns the input
    board unchanged, and without an error. *)
Theorem dropPiece_full_column_unchanged :
  forall (board : GameBoard) (col player : Z),
    0 <= col < Z.of_nat Columns ->
    (forall row : nat, (row < Rows)%nat -> cell board row (Z.to_nat col) <> Empty) ->
    dropPiece board col player = Ok board.
Proof.
  intros board col player Hcol Hfull. unfold dropPiece.
  replace ((0 <=? col) && (col <? Z.of_nat Columns)) with true
    by (symmetry; apply andb_true_iff; split; [apply Z.leb_le | apply Z.ltb_lt]; lia).
  f_equal. apply dropPiece_loop_full.
  intros row Hin. apply Hfull. apply in_rev, in_seq in Hin. lia.
Qed.

Lemma dropPiece_full_column_unchanged_witness :
  dropPiece fullColumnBoard 0 Player = Ok fullColumnBoard.
Proof.
  apply (dropPiece_full_column_unchanged fullColumnBoard 0 Player).
  - unfold Columns. lia.
  - intros row Hrow. unfold Rows in Hrow.
    do 6 (destruct row as [|row]; [vm_compute; discriminate|]). lia.
Defined.

(** C6, as the code has it. [dropPiece] fails exactly when the column
    index lies outside the array (the index panic of Go); for a column
    inside the array it returns a board, and when that column is full the
    board it returns is the one it received. *)
Theorem dropPiece_panics_iff_out_of_range :
  forall (board : GameBoard) (col player : Z),
    (dropPiece board col player = Panic <-> (col < 0 \/ Z.of_nat Columns <= col)) /\
    ((exists board' : GameBoard, dropPiece board col player = Ok board') <->
     0 <= col < Z.of_nat Columns) /\
    (0 <= col < Z.of_nat Columns ->
     (forall row : nat, (row < Rows)%nat -> cell board row (Z.to_nat col) <> Empty) ->
     dropPiece board col player = Ok board).
Proof.
  intros board col player. unfold dropPiece.
  destruct (Z.leb_spec 0 col) as [H0|H0], (Z.ltb_spec col (Z.of_nat Columns)) as [H1|H1];
    cbn [andb]; (split; [|split]);
    try (split; intro H; try discriminate; try lia; try reflexivity;
         try (destruct H; discriminate); eauto; fail);
    try (intros; lia).
  intros _ Hfull. f_equal. apply dropPiece_loop_full.
  intros row Hin. apply Hfull. apply in_rev, in_seq in Hin. lia.
Qed.

(** C6: column 0 of [fullColumnBoard] is full, and yet the drop returns
    normally, with the board as it was. *)
Lemma dropPiece_full_column_no_error :
  (forall row : nat, (row < Rows)%nat -> cell fullColumnBoard row 0 <> Empty) /\
  dropPiece fullColumnBoard 0 Player = Ok fullColumnBoard /\
  dropPiece fullColumnBoard 0 Player <> Panic.
Proof.
  split; [|split].
  - intros row Hrow. unfold Rows in Hrow.
    do 6 (destruct row as [|row]; [vm_compute; discriminate|]). lia.
  - reflexivity.
  - discriminate.
Qed.

(** ** Winning lines *)

Lemma anyLoop_true (outer inner : list nat) (test : nat -> nat -> bool) :
  anyLoop outer inner test = true <->
  exists i j, In i outer /\ In j inner /\ test i j = true.
Proof.
  unfold anyLoop. rewrite existsb_exists. split.
  - intros (i & Hi & Hex). apply existsb_exists in Hex.
    destruct Hex as (j & Hj & Ht). now exists i, j.
  - intros (i & j & Hi & Hj & Ht). exists i. split; auto.
    apply existsb_exists. now exists j.
Qed.

Lemma four_eqb (a b c d p : Z) :
  (a =? p) && (b =? p) && (c =? p) && (d =? p) = true <->
  a = p /\ b = p /\ c = p /\ d = p.
Proof.
  rewrite !andb_true_iff, !Z.eqb_eq. tauto.
Qed.

Lemma forall_lt_4 (P : nat -> Prop) :
  (forall i, (i < 4)%nat -> P i) <-> P 0%nat /\ P 1%nat /\ P 2%nat /\ P 3%nat.
Proof.
  split.
  - intros H. repeat split; apply H; lia.
  - intros (H0 & H1 & H2 & H3) i Hi.
    do 4 (destruct i as [|i]; [assumption|]). lia.
Qed.

(** C7. [checkWin] holds exactly when four consecutive cells of a row, of
    a column or of a diagonal of either direction all hold [player]. *)
Theorem checkWin_iff_four_in_a_row : forall (board : GameBoard) (player : Z),
  checkWin board player = true <-> FourInARow board player.
Proof.
  intros board player. unfold checkWin. split.
  - intros H.
    destruct (anyLoop (seq 0 Rows) _ _) eqn:E1.
    { apply anyLoop_true in E1. destruct E1 as (row & col & Hr & Hc & Ht).
      apply in_seq in Hr. apply in_seq in Hc. apply four_eqb in Ht.
      apply (FourHorizontal board player row col); [lia | unfold Columns in *; lia |].
      apply forall_lt_4. now rewrite Nat.add_0_r. }
    destruct (anyLoop (seq 0 Columns) _ _) eqn:E2.
    { apply anyLoop_true in E2. destruct E2 as (col & row & Hc & Hr & Ht).
      apply in_seq in Hr. apply in_seq in Hc. apply four_eqb in Ht.
      apply (FourVertical board player row col); [unfold Rows in *; lia | lia |].
      apply forall_lt_4. now rewrite Nat.add_0_r. }
    destruct (anyLoop (seq 0 (Rows - 3)) _ _) eqn:E3.
    { apply anyLoop_true in E3. destruct E3 as (row & col & Hr & Hc & Ht).
      apply in_seq in Hr. apply in_seq in Hc. apply four_eqb in Ht.
      apply (FourFalling board player row col);
        [unfold Rows in *; lia | unfold Columns in *; lia |].
      apply forall_lt_4. now rewrite !Nat.add_0_r. }
    destruct (anyLoop (seq 3 (Rows - 3)) _ _) eqn:E4; [|discriminate].
    apply anyLoop_true in E4. destruct E4 as (row & col & Hr & Hc & Ht).
    apply in_seq in Hr. apply in_seq in Hc. apply four_eqb in Ht.
    apply (FourRising board player row col);
      [unfold Rows in *; lia | unfold Columns in *; lia |].
    apply forall_lt_4. now rewrite Nat.add_0_r, Nat.sub_0_r.
  - intros [row col Hr Hc Hall | row col Hr Hc Hall | row col Hr Hc Hall
           | row col Hr Hc Hall];
      apply forall_lt_4 in Hall;
      rewrite ?Nat.add_0_r, ?Nat.sub_0_r in Hall; apply four_eqb in Hall.
    + replace (anyLoop (seq 0 Rows) _ _) with true; [reflexivity|].
      symmetry. apply anyLoop_true. exists row, col.
      repeat split; auto; apply in_seq; unfold Rows, Columns in *; lia.
    + destruct (anyLoop (seq 0 Rows) _ _); [reflexivity|].
      replace (anyLoop (seq 0 Columns) _ _) with true; [reflexivity|].
      symmetry. apply anyLoop_true. exists col, row.
      repeat split; auto; apply in_seq; unfold Rows, Columns in *; lia.
    + destruct (anyLoop (seq 0 Rows) _ _); [reflexivity|].
      destruct (anyLoop (seq 0 Columns) _ _); [reflexivity|].
      replace (anyLoop (seq 0 (Rows - 3)) _ _) with true; [reflexivity|].
      symmetry. apply anyLoop_true. exists row, col.
      repeat split; auto; apply in_seq; unfold Rows, Columns in *; lia.
    + destruct (anyLoop (seq 0 Rows) _ _); [reflexivity|].
      destruct (anyLoop (seq 0 Columns) _ _); [reflexivity|].
      destruct (anyLoop (seq 0 (Rows - 3)) _ _); [reflexivity|].
      replace (anyLoop (seq 3 (Rows - 3)) _ _) with true; [reflexivity|].
      symmetry. apply anyLoop_true. exists row, col.
      repeat split; auto; apply in_seq; unfold Rows, Columns in *; lia.
Qed.

(** ** The evaluator *)

Lemma addLoop_ext_in (outer inner : list nat) (f g : nat -> nat -> Z) (s : Z) :
  (forall i j, In i outer -> In j inner -> f i j = g i j) ->
  addLoop outer inner f s = addLoop outer inner g s.
Proof.
  unfold addLoop. revert s. induction outer as [|i outer IH]; intros s H; simpl; auto.
  rewrite IH by (intros; apply H; simpl; auto). f_equal.
  assert (Hi : forall j, In j inner -> f i j = g i j) by (intros; apply H; simpl; auto).
  clear IH H. revert s. induction inner as [|j inner IHi]; intros s; simpl; auto.
  rewrite (Hi j) by (simpl; auto). apply IHi. intros; apply Hi; simpl; auto.
Qed.

Lemma zsum_app (l1 l2 : list Z) : zsum (l1 ++ l2) = zsum l1 + zsum l2.
Proof.
  induction l1 as [|x l1 IH]; simpl; [reflexivity|]. rewrite IH. lia.
Qed.

Lemma zsum_map_sub {A : Type} (f g : A -> Z) (l : list A) :
  zsum (map (fun x => f x - g x) l) = zsum (map f l) - zsum (map g l).
Proof.
  induction l as [|x l IH]; simpl; [reflexivity|]. rewrite IH. lia.
Qed.

Lemma fold_left_add_zsum {A : Type} (f : A -> Z) (l : list A) (s : Z) :
  fold_left (fun s' j => s' + f j) l s = s + zsum (map f l).
Proof.
  revert s; induction l as [|x l IH]; intros s; simpl; [lia|]. rewrite IH. lia.
Qed.

(** A pair of nested accumulating loops adds up the terms of all its passes. *)
Lemma addLoop_zsum (outer inner : list nat) (f : nat -> nat -> Z) (s : Z) :
  addLoop outer inner f s = s + zsum (flat_map (fun i => map (f i) inner) outer).
Proof.
  unfold addLoop. revert s; induction outer as [|i outer IH]; intros s; simpl; [lia|].
  rewrite IH, fold_left_add_zsum, zsum_app. lia.
Qed.

Lemma map_flat_map_map {A B C D : Type} (g : C -> D) (h : A -> B -> C)
    (outer : list A) (inner : list B) :
  map g (flat_map (fun i => map (h i) inner) outer)
  = flat_map (fun i => map (fun j => g (h i j)) inner) outer.
Proof.
  induction outer as [|i outer IH]; simpl; [reflexivity|].
  now rewrite map_app, map_map, IH.
Qed.

Lemma slice4_cells (board : GameBoard) (row col : nat) :
  wf_board board -> (row < Rows)%nat -> (col + 3 < Columns)%nat ->
  slice4 board row col
  = [cell board row col; cell board row (col + 1);
     cell board row (col + 2); cell board row (col + 3)].
Proof.
  intros Hwf Hrow Hcol. unfold slice4, cell.
  pose proof (wf_board_row board row Hwf Hrow) as Hlen.
  destruct (nth row board []) as [|c0 [|c1 [|c2 [|c3 [|c4 [|c5 [|c6 [|c7 r]]]]]]]];
    try discriminate.
  unfold Columns in Hcol.
  do 4 (destruct col as [|col]; [reflexivity|]). lia.
Qed.

(** The counting loop of [evaluateSegment], for a player that is not Empty. *)
Lemma fold_countCell (player : Z) (cells : list Z) (a e : Z) :
  player <> Empty ->
  fold_left (countCell player) cells (a, e)
  = (a + occurrences player cells, e + occurrences Empty cells).
Proof.
  intros Hp. unfold occurrences. revert a e.
  induction cells as [|c cells IH]; intros a e; simpl.
  - f_equal; lia.
  - destruct (Z.eqb_spec c player) as [->|Hcp].
    + rewrite IH. destruct (Z.eq_dec player player) as [_|]; [|contradiction].
      destruct (Z.eq_dec player Empty) as [|_]; [contradiction|]. f_equal; lia.
    + destruct (Z.eq_dec c player) as [|_]; [contradiction|].
      destruct (Z.eqb_spec c Empty) as [->|Hce]; rewrite IH.
      * destruct (Z.eq_dec Empty Empty) as [_|]; [|contradiction]. f_equal; lia.
      * destruct (Z.eq_dec c Empty) as [|_]; [contradiction|]. reflexivity.
Qed.

Lemma evaluateSegment_segmentScore (cells : list Z) (player : Z) :
  player <> Empty -> evaluateSegment cells player = segmentScore cells player.
Proof.
  intros Hp. unfold evaluateSegment, segmentScore.
  now rewrite fold_countCell by exact Hp.
Qed.

(** The four loops of [evaluateLines] visit the segments of [allSegments]. *)
Lemma evaluateLines_zsum (board : GameBoard) (player : Z) :
  wf_board board ->
  evaluateLines board player
  = zsum (map (fun seg => evaluateSegment (cellsOf board seg) player) allSegments).
Proof.
  intros Hwf. unfold evaluateLines.
  rewrite (addLoop_ext_in (seq 0 Rows) _ _
             (fun row col =>
                evaluateSegment
                  [cell board row col; cell board row (col + 1);
                   cell board row (col + 2); cell board row (col + 3)] player)).
  2:{ intros row col Hr Hc. apply in_seq in Hr. apply in_seq in Hc.
      rewrite slice4_cells; auto; unfold Columns in *; lia. }
  rewrite !addLoop_zsum.
  unfold allSegments, horizontalSegments, verticalSegments, fallingSegments,
    risingSegments.
  rewrite !map_app, !zsum_app, !map_flat_map_map. unfold cellsOf. simpl map. lia.
Qed.

Lemma evaluateSegment_range (cells : list Z) (player : Z) :
  0 <= evaluateSegment cells player <= 100.
Proof.
  unfold evaluateSegment.
  destruct (fold_left (countCell player) cells (0, 0)) as [cp ce].
  destruct (cp =? 4); [lia|].
  destruct ((cp =? 3) && (ce =? 1)); [lia|].
  destruct ((cp =? 2) && (ce =? 2)); lia.
Qed.

Lemma zsum_map_range {A : Type} (f : A -> Z) (l : list A) :
  (forall x, 0 <= f x <= 100) -> 0 <= zsum (map f l) <= 100 * Z.of_nat (length l).
Proof.
  intros H. induction l as [|x l IH]; simpl zsum; simpl length; [lia|].
  specialize (H x). lia.
Qed.

(** The sums of the evaluator stay far inside Go's [int], and its value
    is a [float64] without rounding. *)
Lemma evaluateBoard_range (board : GameBoard) :
  wf_board board -> -6900 <= evaluateBoard board <= 6900.
Proof.
  intros Hwf. unfold evaluateBoard. cbn zeta.
  rewrite !evaluateLines_zsum by exact Hwf.
  pose proof (zsum_map_range (fun seg => evaluateSegment (cellsOf board seg) Computer)
                allSegments (fun seg => evaluateSegment_range _ _)) as HC.
  pose proof (zsum_map_range (fun seg => evaluateSegment (cellsOf board seg) Player)
                allSegments (fun seg => evaluateSegment_range _ _)) as HP.
  change (length allSegments) with 69%nat in HC, HP. lia.
Qed.

Lemma length_flat_map_map {A B C : Type} (h : A -> B -> C)
    (outer : list A) (inner : list B) :
  length (flat_map (fun i => map (h i) inner) outer)
  = (length outer * length inner)%nat.
Proof.
  induction outer as [|i outer IH]; simpl; [reflexivity|].
  now rewrite length_app, length_map, IH.
Qed.

(** A cell that is neither the player's nor Empty is not counted, so the
    two counters of [evaluateSegment] add up to less than the length. *)
Lemma fold_countCell_bound (player : Z) (cells : list Z) :
  forall a e a' e',
    fold_left (countCell player) cells (a, e) = (a', e') ->
    a <= a' /\ e <= e' /\
    ((exists c, In c cells /\ opposing player c) ->
     (a' - a) + (e' - e) < Z.of_nat (length cells)) /\
    (a' - a) + (e' - e) <= Z.of_nat (length cells).
Proof.
  induction cells as [|c cells IH]; intros a e a' e' H.
  - simpl in H. inversion H; subst. repeat split; try lia.
    intros (c & [] & _).
  - cbn [fold_left] in H. unfold countCell at 2 in H.
    destruct (Z.eqb_spec c player) as [Hcp|Hcp];
      [|destruct (Z.eqb_spec c Empty) as [Hce|Hce]];
      apply IH in H; destruct H as (Ha & He & Hopp & Hle);
      cbn [length]; rewrite Nat2Z.inj_succ; repeat split; try lia.
    + intros (c' & [<-|Hin] & Ho); [destruct Ho; contradiction|].
      specialize (Hopp (ex_intro _ c' (conj Hin Ho))). lia.
    + intros (c' & [<-|Hin] & Ho); [destruct Ho; contradiction|].
      specialize (Hopp (ex_intro _ c' (conj Hin Ho))). lia.
Qed.

Lemma evaluateSegment_opposing (cells : list Z) (player : Z) :
  length cells = 4%nat ->
  (exists c, In c cells /\ opposing player c) ->
  evaluateSegment cells player = 0.
Proof.
  intros Hlen Hopp. unfold evaluateSegment.
  destruct (fold_left (countCell player) cells (0, 0)) as [cp ce] eqn:E.
  apply fold_countCell_bound in E. destruct E as (Ha & He & Hlt & _).
  specialize (Hlt Hopp). rewrite Hlen in Hlt.
  destruct (Z.eqb_spec cp 4); [lia|].
  destruct (Z.eqb_spec cp 3), (Z.eqb_spec ce 1); simpl; try lia;
    destruct (Z.eqb_spec cp 2), (Z.eqb_spec ce 2); simpl; lia.
Qed.

(** C3. [evaluateBoard] is the sum, over the 69 segments of length 4 (24
    horizontal, 21 vertical, 12 for each diagonal direction), of the score
    of the segment for the Computer minus its score for the Player, where
    a segment scores 100, 10 or 5 for four cells, three cells and one
    Empty, two cells and two Empty of that player, and 0 otherwise; a
    segment with a cell of the opponent scores 0. *)
Theorem evaluateBoard_sum_of_segments : forall board : GameBoard,
  wf_board board ->
  evaluateBoard board = evaluateSpec board /\
  (length horizontalSegments = (Rows * (Columns - 3))%nat /\
   length verticalSegments = (Columns * (Rows - 3))%nat /\
   length fallingSegments = ((Rows - 3) * (Columns - 3))%nat /\
   length risingSegments = ((Rows - 3) * (Columns - 3))%nat /\
   length allSegments = 69%nat) /\
  (forall seg, In seg allSegments -> length seg = 4%nat) /\
  (forall (seg : Segment) (player : Z),
      In seg allSegments ->
      (exists c, In c (cellsOf board seg) /\ opposing player c) ->
      evaluateSegment (cellsOf board seg) player = 0 /\
      (player <> Empty -> segmentScore (cellsOf board seg) player = 0)).
Proof.
  intros board Hwf.
  assert (Hlen4 : forall seg, In seg allSegments -> length seg = 4%nat).
  { assert (H : forallb (fun seg => Nat.eqb (length seg) 4) allSegments = true)
      by reflexivity.
    rewrite forallb_forall in H. intros seg Hin. now apply Nat.eqb_eq, H. }
  split; [|split; [|split]].
  - unfold evaluateBoard, evaluateSpec.
    rewrite !evaluateLines_zsum by exact Hwf.
    rewrite zsum_map_sub. cbn zeta.
    rewrite (map_ext (fun seg => segmentScore (cellsOf board seg) Computer)
               (fun seg => evaluateSegment (cellsOf board seg) Computer))
      by (intros; symmetry; apply evaluateSegment_segmentScore; discriminate).
    rewrite (map_ext (fun seg => segmentScore (cellsOf board seg) Player)
               (fun seg => evaluateSegment (cellsOf board seg) Player))
      by (intros; symmetry; apply evaluateSegment_segmentScore; discriminate).
    lia.
  - repeat split; reflexivity.
  - exact Hlen4.
  - intros seg player Hin Hopp.
    assert (E : evaluateSegment (cellsOf board seg) player = 0).
    { apply evaluateSegment_opposing; auto.
      unfold cellsOf. rewrite length_map. now apply Hlen4. }
    split; [exact E|]. intros Hp. now rewrite <- evaluateSegment_segmentScore.
Qed.

Lemma evaluateBoard_sum_of_segments_witness :
  evaluateBoard midgameBoard = evaluateSpec midgameBoard.
Proof.
  refine (proj1 (evaluateBoard_sum_of_segments midgameBoard _)).
  split; [reflexivity | repeat constructor].
Defined.

(** ** Exchanging the players *)

Lemma nth_swapPlayers (board : GameBoard) (row : nat) :
  nth row (swapPlayers board) [] = map swapCell (nth row board []).
Proof.
  unfold swapPlayers. change (@nil Z) with (map swapCell []) at 1. apply map_nth.
Qed.

Lemma cell_swapPlayers (board : GameBoard) (row col : nat) :
  cell (swapPlayers board) row col = swapCell (cell board row col).
Proof.
  unfold cell. rewrite nth_swapPlayers.
  change Empty with (swapCell Empty) at 1. apply map_nth.
Qed.

Lemma slice4_swapPlayers (board : GameBoard) (row col : nat) :
  slice4 (swapPlayers board) row col = map swapCell (slice4 board row col).
Proof.
  unfold slice4. now rewrite nth_swapPlayers, skipn_map, firstn_map.
Qed.

Lemma swapCell_eqb (c p : Z) : (swapCell c =? swapCell p) = (c =? p).
Proof.
  unfold swapCell, Player, Computer.
  destruct (Z.eqb_spec c 1), (Z.eqb_spec c 2), (Z.eqb_spec p 1), (Z.eqb_spec p 2);
    subst; try lia; try reflexivity;
    repeat match goal with
           | |- context [?x =? ?y] => destruct (Z.eqb_spec x y)
           end; try lia; reflexivity.
Qed.

Lemma swapCell_Empty (c : Z) : (swapCell c =? Empty) = (c =? Empty).
Proof. exact (swapCell_eqb c Empty). Qed.

Lemma evaluateSegment_swap (cells : list Z) (player : Z) :
  evaluateSegment (map swapCell cells) (swapCell player) = evaluateSegment cells player.
Proof.
  unfold evaluateSegment.
  assert (H : forall acc,
             fold_left (countCell (swapCell player)) (map swapCell cells) acc
             = fold_left (countCell player) cells acc).
  { induction cells as [|c cells IH]; intros [a e]; simpl; [reflexivity|].
    rewrite swapCell_eqb, swapCell_Empty. apply IH. }
  now rewrite H.
Qed.

Lemma addLoop_ext (outer inner : list nat) (f g : nat -> nat -> Z) (s s' : Z) :
  (forall i j, f i j = g i j) -> s = s' ->
  addLoop outer inner f s = addLoop outer inner g s'.
Proof.
  intros H ->. apply addLoop_ext_in. intros; apply H.
Qed.

Lemma evaluateLines_swap (board : GameBoard) (player : Z) :
  evaluateLines (swapPlayers board) (swapCell player) = evaluateLines board player.
Proof.
  unfold evaluateLines. cbn zeta.
  repeat apply addLoop_ext; try reflexivity;
    intros i j; rewrite ?slice4_swapPlayers, ?cell_swapPlayers;
    first [ apply evaluateSegment_swap | apply (evaluateSegment_swap [_; _; _; _]) ].
Qed.

(** C9. Exchanging the cells of the Player and of the Computer negates
    the evaluator. *)
Theorem evaluateBoard_swap_negates : forall board : GameBoard,
  evaluateBoard (swapPlayers board) = - evaluateBoard board.
Proof.
  intros board. unfold evaluateBoard. cbn zeta.
  change Computer with (swapCell Player) at 1.
  change Player with (swapCell Computer) at 2.
  rewrite !evaluateLines_swap. lia.
Qed.

(** ** The order of scores *)

Ltac score_cases :=
  unfold clamp, sge, smax, smin in *;
  repeat match goal with s : score |- _ => destruct s end;
  simpl in *;
  repeat match goal with
         | H : context [?x <? ?y] |- _ => destruct (Z.ltb_spec x y); simpl in *
         | |- context [?x <? ?y] => destruct (Z.ltb_spec x y); simpl in *
         end;
  try discriminate;
  repeat match goal with
         | H : Fin _ = Fin _ |- _ => injection H as H
         end;
  repeat split;
  first [ reflexivity | assumption | f_equal; lia | exfalso; lia | idtac ].

Lemma sge_refl (a : score) : sge a a = true.
Proof. score_cases. Qed.

Lemma sge_trans (a b c : score) : sge a b = true -> sge b c = true -> sge a c = true.
Proof. intros; score_cases. Qed.

Lemma sge_smax_l (s v w : score) : sge s (smax v w) = true -> sge s v = true.
Proof. intros; score_cases. Qed.

Lemma sge_smax_r (s v w : score) : sge s (smax v w) = true -> sge s w = true.
Proof. intros; score_cases. Qed.

Lemma sge_smin_l (s v w : score) : sge (smin v w) s = true -> sge v s = true.
Proof. intros; score_cases. Qed.

Lemma sge_smin_r (s v w : score) : sge (smin v w) s = true -> sge w s = true.
Proof. intros; score_cases. Qed.

Lemma smax_absorb (a w s : score) : sge s w = true -> smax (smax a w) s = smax a s.
Proof. intros; score_cases. Qed.

Lemma smin_absorb (b w s : score) : sge w s = true -> smin (smin b w) s = smin b s.
Proof. intros; score_cases. Qed.

Lemma sge_NegInf (a : score) : sge a NegInf = true.
Proof. score_cases. Qed.

Lemma sge_PosInf (a : score) : sge PosInf a = true.
Proof. score_cases. Qed.

(** The new value of the maximizing loop is the larger of the two. *)
Lemma max_update (value newScore : score) (col column : Z) :
  (if slt value newScore then (newScore, col) else (value, column))
  = (smax value newScore, if slt value newScore then col else column).
Proof. unfold smax. now destruct (slt value newScore). Qed.

Lemma min_update (value newScore : score) (col column : Z) :
  (if slt newScore value then (newScore, col) else (value, column))
  = (smin value newScore, if slt newScore value then col else column).
Proof. unfold smin. now destruct (slt newScore value). Qed.

(** The maximizing loop stops: the child and its exact score reach beta. *)
Lemma max_break (ac beta value s1 e1 : score) :
  slt ac beta = true -> sge ac value = true ->
  clamp ac beta s1 = clamp ac beta e1 ->
  sge (smax ac (smax value s1)) beta = true ->
  sge (smax value s1) beta = true /\ sge e1 beta = true.
Proof. intros; score_cases. Qed.

(** The maximizing loop goes on: the window's lower end follows the exact
    maximum. *)
Lemma max_continue (ac beta value m s1 e1 : score) :
  slt ac beta = true -> sge ac value = true -> sge ac m = true ->
  clamp ac beta s1 = clamp ac beta e1 ->
  sge (smax ac (smax value s1)) beta = false ->
  slt (smax ac (smax value s1)) beta = true /\
  sge (smax ac (smax value s1)) (smax value s1) = true /\
  sge (smax ac (smax value s1)) (smax m e1) = true /\
  smax ac (smax value s1) = smax ac s1 /\
  smax ac (smax value s1) = smax ac e1.
Proof. intros; score_cases. Qed.

Lemma min_break (alpha bc value s1 e1 : score) :
  slt alpha bc = true -> sge value bc = true ->
  clamp alpha bc s1 = clamp alpha bc e1 ->
  sge alpha (smin bc (smin value s1)) = true ->
  sge alpha (smin value s1) = true /\ sge alpha e1 = true.
Proof. intros; score_cases. Qed.

Lemma min_continue (alpha bc value m s1 e1 : score) :
  slt alpha bc = true -> sge value bc = true -> sge m bc = true ->
  clamp alpha bc s1 = clamp alpha bc e1 ->
  sge alpha (smin bc (smin value s1)) = false ->
  slt alpha (smin bc (smin value s1)) = true /\
  sge (smin value s1) (smin bc (smin value s1)) = true /\
  sge (smin m e1) (smin bc (smin value s1)) = true /\
  smin bc (smin value s1) = smin bc s1 /\
  smin bc (smin value s1) = smin bc e1.
Proof. intros; score_cases. Qed.

Lemma clamp_of_max (alpha beta s e : score) :
  slt alpha beta = true ->
  (sge s beta = true /\ sge e beta = true) \/
  (smax alpha s = smax alpha e /\ slt (smax alpha s) beta = true) ->
  clamp alpha beta s = clamp alpha beta e.
Proof. intros H [[H1 H2]|[H1 H2]]; score_cases. Qed.

Lemma clamp_of_min (alpha beta s e : score) :
  slt alpha beta = true ->
  (sge alpha s = true /\ sge alpha e = true) \/
  (smin beta s = smin beta e /\ slt alpha (smin beta s) = true) ->
  clamp alpha beta s = clamp alpha beta e.
Proof. intros H [[H1 H2]|[H1 H2]]; score_cases. Qed.

Lemma clamp_full_window (x : score) : clamp NegInf PosInf x = x.
Proof. score_cases. Qed.

(** ** One level of the search *)

Lemma getValidColumns_validCol (board : GameBoard) :
  Forall (validCol board) (getValidColumns board).
Proof.
  apply Forall_forall. intros col Hin. now apply In_getValidColumns.
Qed.

(** A move into a valid column leaves a board with one Empty cell less. *)
Lemma dropPiece_child (board : GameBoard) (col mover : Z) :
  wf_board board -> mover <> Empty -> validCol board col ->
  exists newBoard,
    dropPiece board col mover = Ok newBoard /\ wf_board newBoard /\
    S (countEmpty newBoard) = countEmpty board.
Proof.
  intros Hwf Hm [Hcol Htop].
  destruct (dropPiece_valid board col mover Hwf Hcol Htop) as (row & Hdrop & Hlow).
  destruct Hlow as (Hrow & He & _).
  exists (setCell board row (Z.to_nat col) mover).
  split; [exact Hdrop|]. split; [now apply wf_board_setCell|].
  pose proof (countCells_setCell (fun c => c =? Empty) board row (Z.to_nat col) mover
                Hwf Hrow ltac:(lia)) as Hcount.
  rewrite He in Hcount. simpl in Hcount.
  destruct (Z.eqb_spec mover Empty) as [|_]; [contradiction|].
  unfold countEmpty. simpl in Hcount. lia.
Qed.

(** The column a loop returns is the initial one or one of those it tried. *)
Lemma maxLoop_column (rec : GameBoard -> score -> score -> M (Z * score))
    (board : GameBoard) (cols : list Z) :
  forall value column alpha beta rng col s rng',
    maxLoop rec board cols value column alpha beta rng = Ok ((col, s), rng') ->
    col = column \/ In col cols.
Proof.
  induction cols as [|c cols IH]; intros value column alpha beta rng col s rng' H.
  - inversion H; auto.
  - cbn [maxLoop] in H. unfold bind, lift in H.
    destruct (dropPiece board c Computer) as [nb| |]; try discriminate.
    destruct (rec nb alpha beta rng) as [[[c1 s1] r1]| |]; try discriminate.
    cbn [snd] in H. rewrite max_update in H.
    destruct (sge _ beta).
    + inversion H; subst. destruct (slt value s1); simpl; auto.
    + apply IH in H. destruct H as [->|H]; simpl; auto.
      destruct (slt value s1); auto.
Qed.

Lemma minLoop_column (rec : GameBoard -> score -> score -> M (Z * score))
    (board : GameBoard) (cols : list Z) :
  forall value column alpha beta rng col s rng',
    minLoop rec board cols value column alpha beta rng = Ok ((col, s), rng') ->
    col = column \/ In col cols.
Proof.
  induction cols as [|c cols IH]; intros value column alpha beta rng col s rng' H.
  - inversion H; auto.
  - cbn [minLoop] in H. unfold bind, lift in H.
    destruct (dropPiece board c Player) as [nb| |]; try discriminate.
    destruct (rec nb alpha beta rng) as [[[c1 s1] r1]| |]; try discriminate.
    cbn [snd] in H. rewrite min_update in H.
    destruct (sge alpha _).
    + inversion H; subst. destruct (slt s1 value); simpl; auto.
    + apply IH in H. destruct H as [->|H]; simpl; auto.
      destruct (slt s1 value); auto.
Qed.

Section SearchLoops.

(** The search one level down, pruned and unpruned, on boards with fewer
    than [n] Empty cells: both return, and inside the window they agree. *)
Variable n : nat.
Variable rec : GameBoard -> score -> score -> M (Z * score).
Variable recF : GameBoard -> result score.
Hypothesis rec_sound :
  forall newBoard a b rng,
    wf_board newBoard -> (countEmpty newBoard < n)%nat -> slt a b = true ->
    exists col s rng' e,
      rec newBoard a b rng = Ok ((col, s), rng') /\
      recF newBoard = Ok e /\
      clamp a b s = clamp a b e.

Variable board : GameBoard.
Hypothesis board_wf : wf_board board.
Hypothesis board_count : (countEmpty board <= n)%nat.

Lemma recF_total (col mover : Z) :
  mover <> Empty -> validCol board col ->
  exists newBoard e,
    dropPiece board col mover = Ok newBoard /\ recF newBoard = Ok e.
Proof.
  intros Hm Hv.
  destruct (dropPiece_child board col mover board_wf Hm Hv) as (nb & Hd & Hwf & Hc).
  destruct (rec_sound nb NegInf PosInf zeroRand Hwf ltac:(lia) eq_refl)
    as (c & s & r & e & _ & HF & _).
  now exists nb, e.
Qed.

(** The unpruned loops return, with a score no worse than they start from. *)
Lemma fullLoop_max_total (cols : list Z) :
  Forall (validCol board) cols ->
  forall m, exists e,
    fullLoop recF smax Computer board cols m = Ok e /\ sge e m = true.
Proof.
  induction 1 as [|c cols Hc Hall IH]; intros m; simpl.
  - exists m. split; [reflexivity | apply sge_refl].
  - destruct (recF_total c Computer ltac:(discriminate) Hc) as (nb & e1 & -> & HF).
    simpl. rewrite HF. simpl.
    destruct (IH (smax m e1)) as (e & He & Hge).
    exists e. split; [exact He | now apply sge_smax_l in Hge].
Qed.

Lemma fullLoop_min_total (cols : list Z) :
  Forall (validCol board) cols ->
  forall m, exists e,
    fullLoop recF smin Player board cols m = Ok e /\ sge m e = true.
Proof.
  induction 1 as [|c cols Hc Hall IH]; intros m; simpl.
  - exists m. split; [reflexivity | apply sge_refl].
  - destruct (recF_total c Player ltac:(discriminate) Hc) as (nb & e1 & -> & HF).
    simpl. rewrite HF. simpl.
    destruct (IH (smin m e1)) as (e & He & Hge).
    exists e. split; [exact He | now apply sge_smin_l in Hge].
Qed.

(** The maximizing loop against the unpruned one: [ac] is the current
    alpha, [value] the running best, [m] the exact running maximum. *)
Lemma maxLoop_sound (beta : score) (cols : list Z) :
  Forall (validCol board) cols ->
  forall value column ac m rng,
    slt ac beta = true -> sge ac value = true -> sge ac m = true ->
    exists col s rng' e,
      maxLoop rec board cols value column ac beta rng = Ok ((col, s), rng') /\
      fullLoop recF smax Computer board cols m = Ok e /\
      sge s value = true /\ sge e m = true /\
      ((sge s beta = true /\ sge e beta = true) \/
       (smax ac s = smax ac e /\ slt (smax ac s) beta = true)).
Proof.
  induction 1 as [|c cols Hc Hall IH]; intros value column ac m rng Hlt Hv Hm.
  - exists column, value, rng, m. cbn [maxLoop fullLoop]. unfold ret.
    repeat split; try apply sge_refl.
    right. split; [clear - Hv Hm; score_cases | clear - Hlt Hv; score_cases].
  - destruct (dropPiece_child board c Computer board_wf ltac:(discriminate) Hc)
      as (nb & Hd & Hwf & Hcount).
    destruct (rec_sound nb ac beta rng Hwf ltac:(lia) Hlt)
      as (c1 & s1 & r1 & e1 & HR & HF & Hclamp).
    cbn [maxLoop fullLoop]. unfold bind, lift. rewrite Hd, HR. cbn [snd rbind].
    rewrite HF. cbn [rbind]. rewrite max_update.
    destruct (sge (smax ac (smax value s1)) beta) eqn:Hbreak.
    + destruct (max_break ac beta value s1 e1 Hlt Hv Hclamp Hbreak) as [Hs He].
      destruct (fullLoop_max_total cols Hall (smax m e1)) as (e & Hfull & Hge).
      exists (if slt value s1 then c else column), (smax value s1), r1, e.
      unfold ret. split; [reflexivity|]. split; [exact Hfull|].
      split; [clear; score_cases|].
      split; [now apply sge_smax_l in Hge|].
      left. split; [exact Hs|].
      apply sge_smax_r in Hge. now apply (sge_trans e e1 beta).
    + destruct (max_continue ac beta value m s1 e1 Hlt Hv Hm Hclamp Hbreak)
        as (Hlt' & Hv' & Hm' & Hac_s & Hac_e).
      destruct (IH (smax value s1) (if slt value s1 then c else column)
                  (smax ac (smax value s1)) (smax m e1) r1 Hlt' Hv' Hm')
        as (col & s & rng' & e & Hloop & Hfull & Hsv & Hem & Hpost).
      exists col, s, rng', e.
      split; [exact Hloop|]. split; [exact Hfull|].
      split; [now apply sge_smax_l in Hsv|].
      split; [now apply sge_smax_l in Hem|].
      destruct Hpost as [Hpost|[Heq Hlt2]]; [now left|]. right.
      apply sge_smax_r in Hsv. apply sge_smax_r in Hem.
      rewrite Hac_s in Heq at 1. rewrite Hac_e in Heq at 1.
      rewrite Hac_s in Hlt2.
      rewrite smax_absorb in Heq by exact Hsv.
      rewrite smax_absorb in Heq by exact Hem.
      rewrite smax_absorb in Hlt2 by exact Hsv.
      now split.
Qed.

Lemma minLoop_sound (alpha : score) (cols : list Z) :
  Forall (validCol board) cols ->
  forall value column bc m rng,
    slt alpha bc = true -> sge value bc = true -> sge m bc = true ->
    exists col s rng' e,
      minLoop rec board cols value column alpha bc rng = Ok ((col, s), rng') /\
      fullLoop recF smin Player board cols m = Ok e /\
      sge value s = true /\ sge m e = true /\
      ((sge alpha s = true /\ sge alpha e = true) \/
       (smin bc s = smin bc e /\ slt alpha (smin bc s) = true)).
Proof.
  induction 1 as [|c cols Hc Hall IH]; intros value column bc m rng Hlt Hv Hm.
  - exists column, value, rng, m. cbn [minLoop fullLoop]. unfold ret.
    repeat split; try apply sge_refl.
    right. split; [clear - Hv Hm; score_cases | clear - Hlt Hv; score_cases].
  - destruct (dropPiece_child board c Player board_wf ltac:(discriminate) Hc)
      as (nb & Hd & Hwf & Hcount).
    destruct (rec_sound nb alpha bc rng Hwf ltac:(lia) Hlt)
      as (c1 & s1 & r1 & e1 & HR & HF & Hclamp).
    cbn [minLoop fullLoop]. unfold bind, lift. rewrite Hd, HR. cbn [snd rbind].
    rewrite HF. cbn [rbind]. rewrite min_update.
    destruct (sge alpha (smin bc (smin value s1))) eqn:Hbreak.
    + destruct (min_break alpha bc value s1 e1 Hlt Hv Hclamp Hbreak) as [Hs He].
      destruct (fullLoop_min_total cols Hall (smin m e1)) as (e & Hfull & Hge).
      exists (if slt s1 value then c else column), (smin value s1), r1, e.
      unfold ret. split; [reflexivity|]. split; [exact Hfull|].
      split; [clear; score_cases|].
      split; [now apply sge_smin_l in Hge|].
      left. split; [exact Hs|].
      apply sge_smin_r in Hge. now apply (sge_trans alpha e1 e).
    + destruct (min_continue alpha bc value m s1 e1 Hlt Hv Hm Hclamp Hbreak)
        as (Hlt' & Hv' & Hm' & Hbc_s & Hbc_e).
      destruct (IH (smin value s1) (if slt s1 value then c else column)
                  (smin bc (smin value s1)) (smin m e1) r1 Hlt' Hv' Hm')
        as (col & s & rng' & e & Hloop & Hfull & Hsv & Hem & Hpost).
      exists col, s, rng', e.
      split; [exact Hloop|]. split; [exact Hfull|].
      split; [now apply sge_smin_l in Hsv|].
      split; [now apply sge_smin_l in Hem|].
      destruct Hpost as [Hpost|[Heq Hlt2]]; [now left|]. right.
      apply sge_smin_r in Hsv. apply sge_smin_r in Hem.
      rewrite Hbc_s in Heq at 1. rewrite Hbc_e in Heq at 1.
      rewrite Hbc_s in Hlt2.
      rewrite smin_absorb in Heq by exact Hsv.
      rewrite smin_absorb in Heq by exact Hem.
      rewrite smin_absorb in Hlt2 by exact Hsv.
      now split.
Qed.

End SearchLoops.

(** ** The search *)

(** The cutoff rule: no recursion, no random draw. *)
Lemma minimax_fuel_leaf (fuel : nat) (board : GameBoard) (depth : Z)
    (alpha beta : score) (maximizingPlayer : bool) (rng : Rand) :
  (depth =? 0) || isTerminalNode board = true ->
  minimax_fuel (S fuel) board depth alpha beta maximizingPlayer rng
  = Ok ((-1, leafScore board), rng).
Proof.
  intros H. cbn [minimax_fuel]. rewrite H. unfold leafScore, isTerminalNode in *.
  destruct (checkWin board Computer), (checkWin board Player), (isBoardFull board);
    reflexivity.
Qed.

Lemma fullMinimax_fuel_leaf (fuel : nat) (board : GameBoard) (depth : Z)
    (maximizingPlayer : bool) :
  (depth =? 0) || isTerminalNode board = true ->
  fullMinimax_fuel (S fuel) board depth maximizingPlayer = Ok (leafScore board).
Proof.
  intros H. cbn [fullMinimax_fuel]. rewrite H. unfold leafScore.
  destruct (checkWin board Computer), (checkWin board Player), (isBoardFull board);
    reflexivity.
Qed.

(** The initial column: a random element of a non-empty list. *)
Lemma random_column (cols : list Z) (rng : Rand) :
  cols <> [] ->
  exists column,
    In column cols /\
    forall (B : Type) (k : Z -> M B),
      (i <- Intn (Z.of_nat (length cols)) ;; column <- lift (index cols i) ;; k column) rng
      = k column (fun j => rng (S j)).
Proof.
  intros Hne. unfold bind, Intn, lift, index.
  assert (Hlen : 0 < Z.of_nat (length cols)) by (destruct cols; simpl; [congruence | lia]).
  destruct (Z.leb_spec (Z.of_nat (length cols)) 0) as [|_]; [lia|].
  pose proof (Z.mod_pos_bound (rng O) _ Hlen) as Hi.
  destruct (Z.ltb_spec (rng O mod Z.of_nat (length cols)) 0) as [|_]; [lia|].
  destruct (nth_error cols (Z.to_nat (rng O mod Z.of_nat (length cols)))) as [x|] eqn:E.
  - exists x. split; [now apply nth_error_In in E | reflexivity].
  - apply nth_error_None in E. lia.
Qed.

Lemma not_terminal_valid_columns (board : GameBoard) :
  isTerminalNode board = false -> getValidColumns board <> [].
Proof.
  unfold isTerminalNode. intros H Hnil. apply getValidColumns_nil in Hnil.
  rewrite Hnil in H. now rewrite orb_true_r in H.
Qed.

(** The pruned search returns, so does the unpruned one, and their scores
    agree once clamped to the window. *)
Lemma minimax_fuel_sound (fuel : nat) :
  forall (board : GameBoard) (depth : Z) (alpha beta : score)
         (maximizingPlayer : bool) (rng : Rand),
    wf_board board -> (countEmpty board < fuel)%nat -> slt alpha beta = true ->
    exists col s rng' e,
      minimax_fuel fuel board depth alpha beta maximizingPlayer rng
      = Ok ((col, s), rng') /\
      fullMinimax_fuel fuel board depth maximizingPlayer = Ok e /\
      clamp alpha beta s = clamp alpha beta e.
Proof.
  induction fuel as [|fuel IH]; intros board depth alpha beta mx rng Hwf Hcount Hlt;
    [lia|].
  destruct ((depth =? 0) || isTerminalNode board) eqn:Hleaf.
  - exists (-1), (leafScore board), rng, (leafScore board).
    rewrite minimax_fuel_leaf, fullMinimax_fuel_leaf by exact Hleaf. auto.
  - apply orb_false_iff in Hleaf. destruct Hleaf as [Hd Hterm].
    pose proof (not_terminal_valid_columns board Hterm) as Hne.
    destruct (random_column (getValidColumns board) rng Hne) as (column & _ & Hrand).
    cbn [minimax_fuel fullMinimax_fuel]. rewrite Hd, Hterm. cbn [orb].
    assert (Hcount' : (countEmpty board <= fuel)%nat) by lia.
    destruct mx; rewrite Hrand.
    + destruct (maxLoop_sound fuel _ _
                  (fun nb a b r =>
                     IH nb (wrap64 (depth - 1)) a b false r)
                  board Hwf Hcount' beta (getValidColumns board)
                  (getValidColumns_validCol board) NegInf column alpha NegInf
                  (fun k => rng (S k)) Hlt (sge_NegInf _) (sge_NegInf _))
        as (col & s & rng' & e & Hloop & Hfull & _ & _ & Hpost).
      exists col, s, rng', e. split; [exact Hloop|]. split; [exact Hfull|].
      now apply clamp_of_max.
    + destruct (minLoop_sound fuel _ _
                  (fun nb a b r =>
                     IH nb (wrap64 (depth - 1)) a b true r)
                  board Hwf Hcount' alpha (getValidColumns board)
                  (getValidColumns_validCol board) PosInf column beta PosInf
                  (fun k => rng (S k)) Hlt (sge_PosInf _) (sge_PosInf _))
        as (col & s & rng' & e & Hloop & Hfull & _ & _ & Hpost).
      exists col, s, rng', e. split; [exact Hloop|]. split; [exact Hfull|].
      now apply clamp_of_min.
Qed.

Lemma searchFuel_enough (board : GameBoard) :
  wf_board board -> (countEmpty board < searchFuel)%nat.
Proof.
  intros Hwf. pose proof (countCells_le (fun c => c =? Empty) board Hwf).
  unfold countEmpty, searchFuel. lia.
Qed.

(** On a board that is not terminal, at a depth other than 0, the search
    returns one of the valid columns. *)
Lemma minimax_fuel_column (fuel : nat) (board : GameBoard) (depth : Z)
    (alpha beta : score) (maximizingPlayer : bool) (rng rng' : Rand) (col : Z) (s : score) :
  isTerminalNode board = false -> depth <> 0 ->
  minimax_fuel fuel board depth alpha beta maximizingPlayer rng = Ok ((col, s), rng') ->
  In col (getValidColumns board).
Proof.
  intros Hterm Hd H. destruct fuel as [|fuel]; [discriminate|].
  cbn [minimax_fuel] in H. rewrite Hterm in H.
  apply Z.eqb_neq in Hd. rewrite Hd in H. cbn [orb] in H.
  pose proof (not_terminal_valid_columns board Hterm) as Hne.
  destruct (random_column (getValidColumns board) rng Hne) as (column & Hin & Hrand).
  destruct maximizingPlayer; rewrite Hrand in H.
  - apply maxLoop_column in H. destruct H as [->|H]; auto.
  - apply minLoop_column in H. destruct H as [->|H]; auto.
Qed.

(** C4. At a terminal board or at depth 0, [minimax] returns the sentinel
    column -1 and the score: plus infinity when the Computer has won
    (tested first), minus infinity when the Player has won, 0 when the
    board is full with no winner, and the evaluator's value when depth 0
    cuts the search off on a board that is not terminal. *)
Theorem minimax_cutoff : forall (board : GameBoard) (depth : Z) (alpha beta : score)
    (maximizingPlayer : bool) (rng : Rand),
  depth = 0 \/ isTerminalNode board = true ->
  minimax board depth alpha beta maximizingPlayer rng
  = Ok ((-1,
         if checkWin board Computer then PosInf
         else if checkWin board Player then NegInf
         else if isBoardFull board then Fin 0
         else Fin (evaluateBoard board)),
        rng).
Proof.
  intros board depth alpha beta mx rng H. unfold minimax, searchFuel.
  apply (minimax_fuel_leaf (Rows * Columns)). apply orb_true_iff.
  destruct H as [->|H]; auto.
Qed.

Lemma minimax_cutoff_witness :
  (0 = 0 \/ isTerminalNode midgameBoard = true) /\
  minimax midgameBoard 0 NegInf PosInf true zeroRand = Ok ((-1, Fin (-5)), zeroRand).
Proof.
  split; [left; reflexivity|].
  rewrite (minimax_cutoff midgameBoard 0 NegInf PosInf true zeroRand)
    by (left; reflexivity).
  vm_compute. reflexivity.
Defined.

(** C2. From the full window, the score of the pruned search is the score
    of the unpruned search of the same board and depth, for the
    maximizing and for the minimizing side; both searches return. *)
Theorem alphabeta_equals_full_minimax :
  forall (board : GameBoard) (depth : Z) (maximizingPlayer : bool) (rng : Rand),
    wf_board board ->
    exists (col : Z) (s : score) (rng' : Rand),
      minimax board depth NegInf PosInf maximizingPlayer rng = Ok ((col, s), rng') /\
      fullMinimax board depth maximizingPlayer = Ok s.
Proof.
  intros board depth mx rng Hwf.
  destruct (minimax_fuel_sound searchFuel board depth NegInf PosInf mx rng Hwf
              (searchFuel_enough board Hwf) eq_refl)
    as (col & s & rng' & e & Hmm & Hfull & Hclamp).
  rewrite !clamp_full_window in Hclamp. subst e.
  exists col, s, rng'. unfold minimax, fullMinimax. split; assumption.
Qed.

Lemma alphabeta_equals_full_minimax_witness :
  exists (col : Z) (s : score) (rng' : Rand),
    minimax midgameBoard 3 NegInf PosInf false zeroRand = Ok ((col, s), rng') /\
    fullMinimax midgameBoard 3 false = Ok s.
Proof.
  apply (alphabeta_equals_full_minimax midgameBoard 3 false zeroRand).
  split; [reflexivity | repeat constructor].
Defined.

(** C1, as the code has it. On a board that is not terminal (no four in a
    row for either side, some column open) and for a positive depth,
    [getComputerMove] returns a column of [[0, 6]] that [getValidColumns]
    lists. *)
Theorem getComputerMove_valid :
  forall (board : GameBoard) (depth : Z) (rng : Rand),
    wf_board board ->
    isTerminalNode board = false ->
    0 < depth ->
    exists col : Z,
      getComputerMove board depth rng = Ok col /\
      0 <= col <= 6 /\
      In col (getValidColumns board).
Proof.
  intros board depth rng Hwf Hterm Hdepth. unfold getComputerMove, minimax.
  destruct (minimax_fuel_sound searchFuel board depth NegInf PosInf true rng Hwf
              (searchFuel_enough board Hwf) eq_refl)
    as (col & s & rng' & e & Hmm & _).
  rewrite Hmm. exists col. split; [reflexivity|].
  apply minimax_fuel_column in Hmm; [|exact Hterm|lia].
  split; [|exact Hmm].
  apply In_getValidColumns in Hmm. unfold Columns in Hmm. lia.
Qed.

Lemma getComputerMove_valid_witness :
  exists col : Z,
    getComputerMove midgameBoard 3 zeroRand = Ok col /\
    0 <= col <= 6 /\
    In col (getValidColumns midgameBoard).
Proof.
  apply (getComputerMove_valid midgameBoard 3 zeroRand).
  - split; [reflexivity | repeat constructor].
  - vm_compute. reflexivity.
  - reflexivity.
Defined.

(** C1: on [playerWonBoard] every column is open and the depth is
    positive, yet the answer is the sentinel -1, which is no column. *)
Lemma getComputerMove_terminal_sentinel :
  getValidColumns playerWonBoard = [0; 1; 2; 3; 4; 5; 6] /\
  wf_board playerWonBoard /\
  0 < 5 /\
  getComputerMove playerWonBoard 5 zeroRand = Ok (-1) /\
  ~ In (-1) (getValidColumns playerWonBoard).
Proof.
  split; [vm_compute; reflexivity|].
  split; [split; [reflexivity | repeat constructor]|].
  split; [reflexivity|].
  split; [vm_compute; reflexivity|].
  intros H. apply In_getValidColumns in H. lia.
Qed.

(** * Further properties of the engine *)

(** ** The search returns, whatever the window *)

Lemma boundedScore_leafScore (board : GameBoard) :
  wf_board board -> boundedScore (leafScore board).
Proof.
  intros Hwf. unfold leafScore.
  destruct (checkWin board Computer); [exact I|].
  destruct (checkWin board Player); [exact I|].
  destruct (isBoardFull board); simpl; [lia|].
  now apply evaluateBoard_range.
Qed.

Section TotalLoops.

Variable n : nat.
Variable rec : GameBoard -> score -> score -> M (Z * score).
Hypothesis rec_total :
  forall newBoard a b rng,
    wf_board newBoard -> (countEmpty newBoard < n)%nat ->
    exists col s rng', rec newBoard a b rng = Ok ((col, s), rng') /\ boundedScore s.

Variable board : GameBoard.
Hypothesis board_wf : wf_board board.
Hypothesis board_count : (countEmpty board <= n)%nat.

Lemma maxLoop_total (cols : list Z) :
  Forall (validCol board) cols ->
  forall value column alpha beta rng,
    boundedScore value ->
    exists col s rng',
      maxLoop rec board cols value column alpha beta rng = Ok ((col, s), rng') /\
      boundedScore s.
Proof.
  induction 1 as [|c cols Hc Hall IH]; intros value column alpha beta rng Hv.
  - now exists column, value, rng.
  - destruct (dropPiece_child board c Computer board_wf ltac:(discriminate) Hc)
      as (nb & Hd & Hwf & Hcount).
    destruct (rec_total nb alpha beta rng Hwf ltac:(lia)) as (c1 & s1 & r1 & HR & Hs1).
    cbn [maxLoop]. unfold bind, lift. rewrite Hd, HR. cbn [snd].
    rewrite max_update.
    assert (Hv' : boundedScore (smax value s1))
      by (unfold smax; destruct (slt value s1); assumption).
    destruct (sge _ beta).
    + eexists _, _, _. split; [reflexivity | exact Hv'].
    + apply IH, Hv'.
Qed.

Lemma minLoop_total (cols : list Z) :
  Forall (validCol board) cols ->
  forall value column alpha beta rng,
    boundedScore value ->
    exists col s rng',
      minLoop rec board cols value column alpha beta rng = Ok ((col, s), rng') /\
      boundedScore s.
Proof.
  induction 1 as [|c cols Hc Hall IH]; intros value column alpha beta rng Hv.
  - now exists column, value, rng.
  - destruct (dropPiece_child board c Player board_wf ltac:(discriminate) Hc)
      as (nb & Hd & Hwf & Hcount).
    destruct (rec_total nb alpha beta rng Hwf ltac:(lia)) as (c1 & s1 & r1 & HR & Hs1).
    cbn [minLoop]. unfold bind, lift. rewrite Hd, HR. cbn [snd].
    rewrite min_update.
    assert (Hv' : boundedScore (smin value s1))
      by (unfold smin; destruct (slt s1 value); assumption).
    destruct (sge alpha _).
    + eexists _, _, _. split; [reflexivity | exact Hv'].
    + apply IH, Hv'.
Qed.

End TotalLoops.

(** With more fuel than Empty cells the search returns, for every depth,
    window and side, and its score is bounded. *)
Lemma minimax_fuel_total (fuel : nat) :
  forall (board : GameBoard) (depth : Z) (alpha beta : score)
         (maximizingPlayer : bool) (rng : Rand),
    wf_board board -> (countEmpty board < fuel)%nat ->
    exists col s rng',
      minimax_fuel fuel board depth alpha beta maximizingPlayer rng
      = Ok ((col, s), rng') /\
      boundedScore s.
Proof.
  induction fuel as [|fuel IH]; intros board depth alpha beta mx rng Hwf Hcount; [lia|].
  destruct ((depth =? 0) || isTerminalNode board) eqn:Hleaf.
  - exists (-1), (leafScore board), rng.
    rewrite minimax_fuel_leaf by exact Hleaf.
    split; [reflexivity | now apply boundedScore_leafScore].
  - apply orb_false_iff in Hleaf. destruct Hleaf as [Hd Hterm].
    pose proof (not_terminal_valid_columns board Hterm) as Hne.
    destruct (random_column (getValidColumns board) rng Hne) as (column & _ & Hrand).
    cbn [minimax_fuel]. rewrite Hd, Hterm. cbn [orb].
    assert (Hcount' : (countEmpty board <= fuel)%nat) by lia.
    destruct mx; rewrite Hrand.
    + apply (maxLoop_total fuel _
               (fun nb a b r _ Hc => IH nb (wrap64 (depth - 1)) a b false r ltac:(assumption) Hc)
               board Hwf Hcount' _ (getValidColumns_validCol board)).
      exact I.
    + apply (minLoop_total fuel _
               (fun nb a b r _ Hc => IH nb (wrap64 (depth - 1)) a b true r ltac:(assumption) Hc)
               board Hwf Hcount' _ (getValidColumns_validCol board)).
      exact I.
Qed.

Lemma sentinel_not_valid (board : GameBoard) : ~ In (-1) (getValidColumns board).
Proof. intros H. apply In_getValidColumns in H. lia. Qed.

(** X1. [minimax] never panics and always returns, for every board,
    depth (negative ones too), window and side and for every random
    source: [rand.Intn] is not called on 0 and no index leaves its
    slice. The column it returns is the sentinel -1 exactly at a cutoff
    (depth 0 or a terminal board), and one of the valid columns
    otherwise. *)
Theorem minimax_never_panics :
  forall (board : GameBoard) (depth : Z) (alpha beta : score)
         (maximizingPlayer : bool) (rng : Rand),
    wf_board board ->
    exists (col : Z) (s : score) (rng' : Rand),
      minimax board depth alpha beta maximizingPlayer rng = Ok ((col, s), rng') /\
      (col = -1 <-> depth = 0 \/ isTerminalNode board = true) /\
      (col <> -1 -> In col (getValidColumns board)).
Proof.
  intros board depth alpha beta mx rng Hwf. unfold minimax.
  destruct (minimax_fuel_total searchFuel board depth alpha beta mx rng Hwf
              (searchFuel_enough board Hwf)) as (col & s & rng' & Hmm & _).
  exists col, s, rng'. split; [exact Hmm|].
  destruct (Z.eq_dec depth 0) as [Hd|Hd].
  - unfold searchFuel in Hmm. rewrite minimax_fuel_leaf in Hmm
      by (apply orb_true_iff; left; now apply Z.eqb_eq).
    inversion Hmm; subst. split; [tauto | congruence].
  - destruct (isTerminalNode board) eqn:Hterm.
    + unfold searchFuel in Hmm. rewrite minimax_fuel_leaf in Hmm
        by (apply orb_true_iff; now right).
      inversion Hmm; subst. split; [tauto | congruence].
    + pose proof (minimax_fuel_column _ _ _ _ _ _ _ _ _ _ Hterm Hd Hmm) as Hin.
      split; [|auto]. split.
      * intros ->. exfalso. exact (sentinel_not_valid board Hin).
      * intros [H|H]; [contradiction | discriminate].
Qed.

Lemma minimax_never_panics_witness :
  exists (col : Z) (s : score) (rng' : Rand),
    minimax midgameBoard (-3) (Fin 7) (Fin 2) false zeroRand = Ok ((col, s), rng') /\
    (col = -1 <-> -3 = 0 \/ isTerminalNode midgameBoard = true) /\
    (col <> -1 -> In col (getValidColumns midgameBoard)).
Proof.
  apply (minimax_never_panics midgameBoard (-3) (Fin 7) (Fin 2) false zeroRand).
  split; [reflexivity | repeat constructor].
Defined.

(** X2. The score that [minimax] returns is plus or minus infinity or an
    integer between -6900 and 6900: the [float64] holds it exactly. *)
Theorem minimax_score_bounded :
  forall (board : GameBoard) (depth : Z) (alpha beta : score)
         (maximizingPlayer : bool) (rng rng' : Rand) (col : Z) (s : score),
    wf_board board ->
    minimax board depth alpha beta maximizingPlayer rng = Ok ((col, s), rng') ->
    s = PosInf \/ s = NegInf \/ exists z, s = Fin z /\ -6900 <= z <= 6900.
Proof.
  intros board depth alpha beta mx rng rng' col s Hwf Hmm. unfold minimax in Hmm.
  destruct (minimax_fuel_total searchFuel board depth alpha beta mx rng Hwf
              (searchFuel_enough board Hwf)) as (col' & s' & r' & Hmm' & Hb).
  rewrite Hmm in Hmm'. inversion Hmm'; subst.
  clear Hmm Hmm'. destruct s' as [|z|]; auto.
  right; right. exists z. split; [reflexivity | exact Hb].
Qed.

Lemma minimax_score_bounded_witness :
  Fin 5 = PosInf \/ Fin 5 = NegInf \/ exists z, Fin 5 = Fin z /\ -6900 <= z <= 6900.
Proof.
  refine (minimax_score_bounded midgameBoard 3 NegInf PosInf true zeroRand
            _ _ (Fin 5) _ _).
  - split; [reflexivity | repeat constructor].
  - vm_compute. reflexivity.
Defined.

(** X3. The caller's pattern: dropping the Computer's piece in the column
    that [getComputerMove] returns panics (index -1) exactly when the
    depth is 0 or the board is terminal; in every other case the piece
    lands, and the board has one more non-Empty cell. *)
Theorem computerTurn_panics_iff_cutoff :
  forall (board : GameBoard) (depth : Z) (rng : Rand),
    wf_board board ->
    (computerTurn board depth rng = Panic <->
     depth = 0 \/ isTerminalNode board = true) /\
    (depth <> 0 -> isTerminalNode board = false ->
     exists newBoard,
       computerTurn board depth rng = Ok newBoard /\
       wf_board newBoard /\
       countNonEmpty newBoard = S (countNonEmpty board)).
Proof.
  intros board depth rng Hwf. unfold computerTurn, getComputerMove, minimax.
  destruct (minimax_fuel_total searchFuel board depth NegInf PosInf true rng Hwf
              (searchFuel_enough board Hwf)) as (col & s & rng' & Hmm & _).
  rewrite Hmm. cbn [fst rbind].
  destruct (Z.eq_dec depth 0) as [Hd|Hd].
  { unfold searchFuel in Hmm. rewrite minimax_fuel_leaf in Hmm
      by (apply orb_true_iff; left; now apply Z.eqb_eq).
    inversion Hmm; subst. split; [split; [auto | reflexivity] | congruence]. }
  destruct (isTerminalNode board) eqn:Hterm.
  { unfold searchFuel in Hmm. rewrite minimax_fuel_leaf in Hmm
      by (apply orb_true_iff; now right).
    inversion Hmm; subst. split; [split; [auto | reflexivity] | discriminate]. }
  pose proof (minimax_fuel_column _ _ _ _ _ _ _ _ _ _ Hterm Hd Hmm) as Hin.
  apply In_getValidColumns in Hin. destruct Hin as [Hcol Htop].
  destruct (dropPiece_valid board col Computer Hwf Hcol Htop) as (row & Hdrop & Hlow).
  destruct Hlow as (Hrow & He & _).
  rewrite Hdrop. split.
  - split; [discriminate | intros [H|H]; [contradiction | discriminate]].
  - intros _ _. eexists. split; [reflexivity|].
    split; [now apply wf_board_setCell|].
    pose proof (countCells_setCell (fun c => negb (c =? Empty)) board row
                  (Z.to_nat col) Computer Hwf Hrow ltac:(lia)) as Hcount.
    rewrite He in Hcount. simpl in Hcount. unfold countNonEmpty. lia.
Qed.

Lemma computerTurn_panics_iff_cutoff_witness :
  (computerTurn playerWonBoard 5 zeroRand = Panic <->
   5 = 0 \/ isTerminalNode playerWonBoard = true) /\
  (5 <> 0 -> isTerminalNode playerWonBoard = false ->
   exists newBoard,
     computerTurn playerWonBoard 5 zeroRand = Ok newBoard /\
     wf_board newBoard /\
     countNonEmpty newBoard = S (countNonEmpty playerWonBoard)).
Proof.
  apply (computerTurn_panics_iff_cutoff playerWonBoard 5 zeroRand).
  split; [reflexivity | repeat constructor].
Defined.

(** ** The column chosen at the root *)

Lemma slt_trans (a b c : score) : slt a b = true -> slt b c = true -> slt a c = true.
Proof. intros; score_cases. Qed.

Lemma sge_slt_trans (a b c : score) : sge a b = true -> slt a c = true -> slt b c = true.
Proof. intros; score_cases. Qed.

Lemma smax_idem_l (a b : score) : smax a (smax a b) = smax a b.
Proof. score_cases. Qed.

Lemma sge_PosInf_eq (a : score) : sge a PosInf = true -> a = PosInf.
Proof. intros; score_cases. Qed.

Lemma sge_NegInf_eq (a : score) : sge NegInf a = true -> a = NegInf.
Proof. intros; score_cases. Qed.

Lemma slt_not_PosInf (a : score) : a <> PosInf -> slt a PosInf = true.
Proof. intros; score_cases; congruence. Qed.

(** With beta at plus infinity and alpha at the running best, a child's
    pruned score improves on the best exactly when its exact score does,
    and then the two are equal. *)
Lemma root_child (value s1 e1 : score) :
  clamp value PosInf s1 = clamp value PosInf e1 ->
  (slt value s1 = true -> s1 = e1) /\
  (slt value s1 = false -> sge value e1 = true).
Proof. intros H; split; intros H1; score_cases. Qed.

Section RootLoop.

Variable n : nat.
Variable rec : GameBoard -> score -> score -> M (Z * score).
Variable recF : GameBoard -> result score.
Hypothesis rec_sound :
  forall newBoard a b rng,
    wf_board newBoard -> (countEmpty newBoard < n)%nat -> slt a b = true ->
    exists col s rng' e,
      rec newBoard a b rng = Ok ((col, s), rng') /\
      recF newBoard = Ok e /\
      clamp a b s = clamp a b e.

Variable board : GameBoard.
Hypothesis board_wf : wf_board board.
Hypothesis board_count : (countEmpty board <= n)%nat.

(** The exact score of the child reached through [col]. *)
Let exact (col : Z) : result score := rbind (dropPiece board col Computer) recF.

Lemma exact_total (col : Z) :
  validCol board col -> exists e, exact col = Ok e.
Proof.
  intros Hv.
  destruct (recF_total n rec recF rec_sound board board_wf board_count col Computer
              ltac:(discriminate) Hv) as (nb & e & Hd & HF).
  exists e. unfold exact. now rewrite Hd.
Qed.

(** The maximizing loop at the root keeps the first column whose exact
    score is the largest, or the initial column when no score improves
    on the initial value. *)
Lemma maxLoop_root (cols : list Z) :
  Forall (validCol board) cols ->
  forall value column rng,
    slt value PosInf = true ->
    exists col s rng',
      maxLoop rec board cols value column value PosInf rng = Ok ((col, s), rng') /\
      ((col = column /\ s = value /\
        forall c, In c cols -> exists e, exact c = Ok e /\ sge value e = true) \/
       (exists pre post,
           cols = pre ++ col :: post /\
           exact col = Ok s /\ slt value s = true /\
           (forall c, In c pre -> exists e, exact c = Ok e /\ slt e s = true) /\
           (forall c, In c post -> exists e, exact c = Ok e /\ sge s e = true))).
Proof.
  induction 1 as [|c cols Hc Hall IH]; intros value column rng Hlt.
  - exists column, value, rng. split; [reflexivity|]. left.
    repeat split. intros c [].
  - destruct (dropPiece_child board c Computer board_wf ltac:(discriminate) Hc)
      as (nb & Hd & Hwf & Hcount).
    destruct (rec_sound nb value PosInf rng Hwf ltac:(lia) Hlt)
      as (c1 & s1 & r1 & e1 & HR & HF & Hclamp).
    assert (Hexact : exact c = Ok e1) by (unfold exact; now rewrite Hd).
    apply root_child in Hclamp. destruct Hclamp as [Himp Hnot].
    cbn [maxLoop]. unfold bind, lift. rewrite Hd, HR. cbn [snd].
    rewrite max_update, smax_idem_l.
    destruct (slt value s1) eqn:Hs1.
    + specialize (Himp eq_refl). subst e1.
      replace (smax value s1) with s1 by (unfold smax; now rewrite Hs1).
      destruct (sge s1 PosInf) eqn:Hbreak.
      * exists c, s1, r1. split; [reflexivity|]. right. exists [], cols.
        repeat split; auto.
        -- intros c' [].
        -- intros c' Hin. rewrite Forall_forall in Hall.
           destruct (exact_total c' (Hall c' Hin)) as (e & He). exists e.
           split; [exact He|]. apply sge_PosInf_eq in Hbreak. subst s1.
           apply sge_PosInf.
      * assert (Hlt' : slt s1 PosInf = true)
          by (unfold sge in Hbreak; now apply negb_false_iff in Hbreak).
        destruct (IH s1 c r1 Hlt') as (col & s & rng' & Hloop & Hpost).
        exists col, s, rng'. split; [exact Hloop|]. right.
        destruct Hpost as [(-> & -> & Hrest)|(pre & post & -> & He & Hlt2 & Hpre & Hpo)].
        -- exists [], cols. repeat split; auto. intros c' [].
        -- exists (c :: pre), post. repeat split; auto.
           ++ now apply (slt_trans value s1 s).
           ++ intros c' [<-|Hin]; [now exists s1 | now apply Hpre].
    + specialize (Hnot eq_refl).
      replace (smax value s1) with value by (unfold smax; now rewrite Hs1).
      replace (sge value PosInf) with false
        by (unfold sge; now rewrite Hlt).
      destruct (IH value column r1 Hlt) as (col & s & rng' & Hloop & Hpost).
      exists col, s, rng'. split; [exact Hloop|].
      destruct Hpost as [(-> & -> & Hrest)|(pre & post & -> & He & Hlt2 & Hpre & Hpo)].
      * left. repeat split; auto.
        intros c' [<-|Hin]; [now exists e1 | now apply Hrest].
      * right. exists (c :: pre), post. repeat split; auto.
        intros c' [<-|Hin]; [|now apply Hpre].
        exists e1. split; [exact Hexact|]. now apply (sge_slt_trans value e1 s).
Qed.

End RootLoop.

(** ** The unpruned search does not depend on the fuel *)

Lemma fullLoop_ext (rec1 rec2 : GameBoard -> result score)
    (better : score -> score -> score) (mover : Z) (board : GameBoard) (cols : list Z) :
  wf_board board -> mover <> Empty ->
  (forall nb, wf_board nb -> S (countEmpty nb) = countEmpty board -> rec1 nb = rec2 nb) ->
  Forall (validCol board) cols ->
  forall value,
    fullLoop rec1 better mover board cols value
    = fullLoop rec2 better mover board cols value.
Proof.
  intros Hwf Hm Hrec. induction 1 as [|c cols Hc Hall IH]; intros value; [reflexivity|].
  destruct (dropPiece_child board c mover Hwf Hm Hc) as (nb & Hd & Hwf' & Hcount).
  cbn [fullLoop]. rewrite Hd. cbn [rbind]. rewrite (Hrec nb Hwf' Hcount).
  destruct (rec2 nb); cbn [rbind]; auto.
Qed.

Lemma fullMinimax_fuel_enough (f1 : nat) :
  forall (f2 : nat) (board : GameBoard) (depth : Z) (maximizingPlayer : bool),
    wf_board board -> (countEmpty board < f1)%nat -> (countEmpty board < f2)%nat ->
    fullMinimax_fuel f1 board depth maximizingPlayer
    = fullMinimax_fuel f2 board depth maximizingPlayer.
Proof.
  induction f1 as [|f1 IH]; intros [|f2] board depth mx Hwf H1 H2; try lia.
  cbn [fullMinimax_fuel].
  destruct ((depth =? 0) || isTerminalNode board); [reflexivity|].
  destruct mx.
  - apply fullLoop_ext; auto; [discriminate | | apply getValidColumns_validCol].
    intros nb Hwf' Hc. apply IH; auto; lia.
  - apply fullLoop_ext; auto; [discriminate | | apply getValidColumns_validCol].
    intros nb Hwf' Hc. apply IH; auto; lia.
Qed.

(** The choice of [getComputerMove], read on the exact scores of the
    children. *)
Lemma getComputerMove_root (board : GameBoard) (depth : Z) (rng : Rand) :
  wf_board board -> isTerminalNode board = false -> depth <> 0 ->
  exists col : Z,
    getComputerMove board depth rng = Ok col /\
    ((col = randomColumn board rng /\
      forall c, In c (getValidColumns board) -> childScore board depth c = Ok NegInf) \/
     (exists (pre post : list Z) (v : score),
         getValidColumns board = pre ++ col :: post /\
         childScore board depth col = Ok v /\ v <> NegInf /\
         (forall c, In c pre ->
                    exists e, childScore board depth c = Ok e /\ slt e v = true) /\
         (forall c, In c post ->
                    exists e, childScore board depth c = Ok e /\ sge v e = true))).
Proof.
  intros Hwf Hterm Hd.
  pose proof (searchFuel_enough board Hwf) as Hfuel. unfold searchFuel in Hfuel.
  set (fuel := (Rows * Columns)%nat) in *.
  assert (Hexact : forall c e,
             validCol board c ->
             rbind (dropPiece board c Computer)
                   (fun nb => fullMinimax_fuel fuel nb (wrap64 (depth - 1)) false) = Ok e ->
             childScore board depth c = Ok e).
  { intros c e Hv He. unfold childScore, fullMinimax, searchFuel. fold fuel.
    destruct (dropPiece_child board c Computer Hwf ltac:(discriminate) Hv)
      as (nb & Hdrop & Hwf' & Hcount).
    rewrite Hdrop in *. cbn [rbind] in *. rewrite <- He.
    apply fullMinimax_fuel_enough; auto; lia. }
  pose proof (getValidColumns_validCol board) as Hvalid.
  pose proof (not_terminal_valid_columns board Hterm) as Hne.
  unfold getComputerMove, minimax, searchFuel. fold fuel.
  cbn [minimax_fuel]. rewrite Hterm.
  apply Z.eqb_neq in Hd. rewrite Hd. cbn [orb].
  assert (Hrand : forall (B : Type) (k : Z -> M B),
             (i <- Intn (Z.of_nat (length (getValidColumns board))) ;;
              column <- lift (index (getValidColumns board) i) ;; k column) rng
             = k (randomColumn board rng) (fun j => rng (S j))).
  { intros B k. unfold bind, Intn, lift, index, randomColumn.
    assert (Hlen : 0 < Z.of_nat (length (getValidColumns board)))
      by (destruct (getValidColumns board); simpl; [congruence | lia]).
    destruct (Z.leb_spec (Z.of_nat (length (getValidColumns board))) 0) as [|_]; [lia|].
    pose proof (Z.mod_pos_bound (rng O) _ Hlen) as Hi.
    destruct (Z.ltb_spec (rng O mod Z.of_nat (length (getValidColumns board))) 0)
      as [|_]; [lia|].
    destruct (nth_error (getValidColumns board) _) as [x|] eqn:E.
    - now rewrite (nth_error_nth _ _ 0 E).
    - apply nth_error_None in E. lia. }
  rewrite Hrand.
  destruct (maxLoop_root fuel
              (fun nb a b => minimax_fuel fuel nb (wrap64 (depth - 1)) a b false)
              (fun nb => fullMinimax_fuel fuel nb (wrap64 (depth - 1)) false)
              (fun nb a b r => minimax_fuel_sound fuel nb (wrap64 (depth - 1)) a b false r)
              board Hwf ltac:(lia) (getValidColumns board) Hvalid
              NegInf (randomColumn board rng) (fun j => rng (S j)) eq_refl)
    as (col & s & rng' & Hloop & Hpost).
  rewrite Hloop. exists col. split; [reflexivity|].
  rewrite Forall_forall in Hvalid.
  destruct Hpost as [(-> & -> & Hall)|(pre & post & Hsplit & He & Hlt & Hpre & Hpo)].
  - left. split; [reflexivity|]. intros c Hin.
    destruct (Hall c Hin) as (e & He & Hge). apply sge_NegInf_eq in Hge. subst e.
    apply Hexact; [apply Hvalid, Hin | exact He].
  - right. exists pre, post, s.
    assert (Hin : forall c, In c pre \/ c = col \/ In c post -> validCol board c).
    { intros c Hc. apply Hvalid. rewrite Hsplit. apply in_app_iff. simpl.
      destruct Hc as [Hc|[->|Hc]]; auto. }
    split; [exact Hsplit|].
    split; [apply Hexact; [apply Hin; right; left; reflexivity | exact He]|].
    split; [intros ->; discriminate|]. split.
    + intros c Hc. destruct (Hpre c Hc) as (e & He' & Hlt'). exists e.
      split; [apply Hexact; [apply Hin; left; exact Hc | exact He'] | exact Hlt'].
    + intros c Hc. destruct (Hpo c Hc) as (e & He' & Hge'). exists e.
      split; [apply Hexact; [apply Hin; right; right; exact Hc | exact He'] | exact Hge'].
Qed.

(** X4. On a board that is not terminal and at a depth other than 0,
    [getComputerMove] returns the first (lowest) valid column whose child
    has the largest exact minimax score: pruning does not change the
    move. The random column is returned only when every move has score
    minus infinity. *)
Theorem getComputerMove_first_best :
  forall (board : GameBoard) (depth : Z) (rng : Rand),
    wf_board board -> isTerminalNode board = false -> depth <> 0 ->
    exists col : Z,
      getComputerMove board depth rng = Ok col /\
      ((col = randomColumn board rng /\
        forall c, In c (getValidColumns board) -> childScore board depth c = Ok NegInf) \/
       (exists (pre post : list Z) (v : score),
           getValidColumns board = pre ++ col :: post /\
           childScore board depth col = Ok v /\ v <> NegInf /\
           (forall c, In c pre ->
                      exists e, childScore board depth c = Ok e /\ slt e v = true) /\
           (forall c, In c post ->
                      exists e, childScore board depth c = Ok e /\ sge v e = true))).
Proof.
  intros board depth rng Hwf Hterm Hd. now apply getComputerMove_root.
Qed.

Lemma getComputerMove_first_best_witness :
  exists col : Z,
    getComputerMove midgameBoard 3 zeroRand = Ok col /\
    ((col = randomColumn midgameBoard zeroRand /\
      forall c, In c (getValidColumns midgameBoard) ->
                childScore midgameBoard 3 c = Ok NegInf) \/
     (exists (pre post : list Z) (v : score),
         getValidColumns midgameBoard = pre ++ col :: post /\
         childScore midgameBoard 3 col = Ok v /\ v <> NegInf /\
         (forall c, In c pre ->
                    exists e, childScore midgameBoard 3 c = Ok e /\ slt e v = true) /\
         (forall c, In c post ->
                    exists e, childScore midgameBoard 3 c = Ok e /\ sge v e = true))).
Proof.
  apply (getComputerMove_first_best midgameBoard 3 zeroRand).
  - split; [reflexivity | repeat constructor].
  - vm_compute. reflexivity.
  - discriminate.
Defined.

(** ** An immediate win at depth 1 *)

Lemma getValidColumns_sorted (board : GameBoard) :
  StronglySorted Z.lt (getValidColumns board).
Proof.
  rewrite getValidColumns_filter.
  apply StronglySorted_map_of_nat, StronglySorted_filter, StronglySorted_seq.
Qed.

Lemma StronglySorted_middle {A : Type} (R : A -> A -> Prop) (pre post : list A) (x : A) :
  StronglySorted R (pre ++ x :: post) -> Forall (R x) post.
Proof.
  induction pre as [|y pre IH]; simpl; intros H; inversion H; subst; auto.
Qed.

Lemma leafScore_PosInf (board : GameBoard) :
  leafScore board = PosInf <-> checkWin board Computer = true.
Proof.
  unfold leafScore.
  destruct (checkWin board Computer); [tauto|].
  destruct (checkWin board Player); [split; discriminate|].
  destruct (isBoardFull board); split; discriminate.
Qed.

Lemma childScore_depth1 (board : GameBoard) (col : Z) (newBoard : GameBoard) :
  dropPiece board col Computer = Ok newBoard ->
  childScore board 1 col = Ok (leafScore newBoard).
Proof.
  intros Hd. unfold childScore. rewrite Hd. cbn [rbind].
  unfold fullMinimax, searchFuel.
  apply (fullMinimax_fuel_leaf (Rows * Columns)). reflexivity.
Qed.

(** X5. At depth 1, when some valid column wins at once for the
    Computer, [getComputerMove] returns such a column, and the lowest of
    them. *)
Theorem getComputerMove_depth1_takes_first_win :
  forall (board : GameBoard) (rng : Rand) (c0 : Z),
    wf_board board -> isTerminalNode board = false ->
    In c0 (getValidColumns board) -> winsAt board c0 ->
    exists col : Z,
      getComputerMove board 1 rng = Ok col /\
      In col (getValidColumns board) /\
      winsAt board col /\
      forall c, In c (getValidColumns board) -> c < col -> ~ winsAt board c.
Proof.
  intros board rng c0 Hwf Hterm Hc0 (nb0 & Hd0 & Hw0).
  destruct (getComputerMove_root board 1 rng Hwf Hterm ltac:(discriminate))
    as (col & Hmove & Hchoice).
  exists col. split; [exact Hmove|].
  pose proof (childScore_depth1 board c0 nb0 Hd0) as Hs0.
  apply leafScore_PosInf in Hw0. rewrite Hw0 in Hs0.
  destruct Hchoice as [[_ Hall]|(pre & post & v & Hsplit & Hv & _ & Hpre & Hpost)].
  - rewrite (Hall c0 Hc0) in Hs0. discriminate.
  - assert (Hvinf : v = PosInf).
    { rewrite Hsplit in Hc0. apply in_app_iff in Hc0.
      destruct Hc0 as [Hin|[->|Hin]].
      - destruct (Hpre c0 Hin) as (e & He & Hlt). rewrite Hs0 in He.
        inversion He; subst. destruct v; discriminate.
      - rewrite Hs0 in Hv. now inversion Hv.
      - destruct (Hpost c0 Hin) as (e & He & Hge). rewrite Hs0 in He.
        inversion He; subst. now apply sge_PosInf_eq. }
    subst v.
    assert (Hcol : In col (getValidColumns board))
      by (rewrite Hsplit; apply in_app_iff; simpl; auto).
    split; [exact Hcol|]. split.
    + pose proof Hcol as Hvc. apply In_getValidColumns in Hvc.
      destruct (dropPiece_child board col Computer Hwf ltac:(discriminate) Hvc)
        as (nb & Hd & _ & _).
      exists nb. split; [exact Hd|].
      rewrite (childScore_depth1 board col nb Hd) in Hv.
      apply leafScore_PosInf. now inversion Hv.
    + intros c Hc Hlt (nb & Hd & Hw).
      pose proof (getValidColumns_sorted board) as Hsorted. rewrite Hsplit in Hsorted.
      assert (Hinpre : In c pre).
      { rewrite Hsplit in Hc. apply in_app_iff in Hc.
        destruct Hc as [Hin|[->|Hin]]; [exact Hin | lia |].
        apply StronglySorted_middle in Hsorted. rewrite Forall_forall in Hsorted.
        apply Hsorted in Hin. lia. }
      destruct (Hpre c Hinpre) as (e & He & Hlte).
      rewrite (childScore_depth1 board c nb Hd) in He.
      apply leafScore_PosInf in Hw. rewrite Hw in He. inversion He; subst. discriminate.
Qed.

Lemma getComputerMove_depth1_takes_first_win_witness :
  exists col : Z,
    getComputerMove computerThreeBoard 1 zeroRand = Ok col /\
    In col (getValidColumns computerThreeBoard) /\
    winsAt computerThreeBoard col /\
    forall c, In c (getValidColumns computerThreeBoard) -> c < col ->
              ~ winsAt computerThreeBoard c.
Proof.
  apply (getComputerMove_depth1_takes_first_win computerThreeBoard zeroRand 3).
  - split; [reflexivity | repeat constructor].
  - vm_compute. reflexivity.
  - vm_compute. tauto.
  - eexists. split; vm_compute; reflexivity.
Defined.

(** ** Depths that the search never exhausts *)

Lemma maxLoop_ext (rec1 rec2 : GameBoard -> score -> score -> M (Z * score))
    (board : GameBoard) (cols : list Z) :
  wf_board board ->
  (forall nb a b rng, wf_board nb -> S (countEmpty nb) = countEmpty board ->
                      rec1 nb a b rng = rec2 nb a b rng) ->
  Forall (validCol board) cols ->
  forall value column alpha beta rng,
    maxLoop rec1 board cols value column alpha beta rng
    = maxLoop rec2 board cols value column alpha beta rng.
Proof.
  intros Hwf Hrec. induction 1 as [|c cols Hc Hall IH];
    intros value column alpha beta rng; [reflexivity|].
  destruct (dropPiece_child board c Computer Hwf ltac:(discriminate) Hc)
    as (nb & Hd & Hwf' & Hcount).
  cbn [maxLoop]. unfold bind, lift. rewrite Hd, (Hrec nb alpha beta rng Hwf' Hcount).
  destruct (rec2 nb alpha beta rng) as [[[c1 s1] r1]| |]; auto.
  cbn [snd]. rewrite max_update. destruct (sge _ beta); auto.
Qed.

Lemma minLoop_ext (rec1 rec2 : GameBoard -> score -> score -> M (Z * score))
    (board : GameBoard) (cols : list Z) :
  wf_board board ->
  (forall nb a b rng, wf_board nb -> S (countEmpty nb) = countEmpty board ->
                      rec1 nb a b rng = rec2 nb a b rng) ->
  Forall (validCol board) cols ->
  forall value column alpha beta rng,
    minLoop rec1 board cols value column alpha beta rng
    = minLoop rec2 board cols value column alpha beta rng.
Proof.
  intros Hwf Hrec. induction 1 as [|c cols Hc Hall IH];
    intros value column alpha beta rng; [reflexivity|].
  destruct (dropPiece_child board c Player Hwf ltac:(discriminate) Hc)
    as (nb & Hd & Hwf' & Hcount).
  cbn [minLoop]. unfold bind, lift. rewrite Hd, (Hrec nb alpha beta rng Hwf' Hcount).
  destruct (rec2 nb alpha beta rng) as [[[c1 s1] r1]| |]; auto.
  cbn [snd]. rewrite min_update. destruct (sge alpha _); auto.
Qed.

Lemma beyond_child (board newBoard : GameBoard) (depth : Z) :
  wf_board newBoard -> S (countEmpty newBoard) = countEmpty board ->
  beyond board depth -> beyond newBoard (wrap64 (depth - 1)).
Proof.
  intros Hwf Hcount [Hint Hd].
  pose proof (countCells_le (fun c => c =? Empty) newBoard Hwf) as Hle.
  fold (countEmpty newBoard) in Hle. unfold Rows, Columns in Hle.
  unfold beyond, int64, wrap64 in *.
  change (2 ^ 63) with 9223372036854775808 in *.
  change (2 ^ 64) with 18446744073709551616 in *.
  Z.div_mod_to_equations. lia.
Qed.

Lemma minimax_fuel_beyond (fuel : nat) :
  forall (board : GameBoard) (d1 d2 : Z) (alpha beta : score)
         (maximizingPlayer : bool) (rng : Rand),
    wf_board board -> (countEmpty board < fuel)%nat ->
    beyond board d1 -> beyond board d2 ->
    minimax_fuel fuel board d1 alpha beta maximizingPlayer rng
    = minimax_fuel fuel board d2 alpha beta maximizingPlayer rng.
Proof.
  induction fuel as [|fuel IH]; intros board d1 d2 alpha beta mx rng Hwf Hcount H1 H2;
    [lia|].
  assert (E1 : (d1 =? 0) = false) by (apply Z.eqb_neq; destruct H1 as [_ [|]]; lia).
  assert (E2 : (d2 =? 0) = false) by (apply Z.eqb_neq; destruct H2 as [_ [|]]; lia).
  cbn [minimax_fuel]. rewrite E1, E2. cbn [orb].
  destruct (isTerminalNode board) eqn:Hterm; [reflexivity|].
  pose proof (not_terminal_valid_columns board Hterm) as Hne.
  destruct (random_column (getValidColumns board) rng Hne) as (column & _ & Hrand).
  destruct mx; rewrite !Hrand.
  - apply maxLoop_ext; auto; [|apply getValidColumns_validCol].
    intros nb a b r Hwf' Hc. apply IH; auto; [lia| |]; now apply (beyond_child board).
  - apply minLoop_ext; auto; [|apply getValidColumns_validCol].
    intros nb a b r Hwf' Hc. apply IH; auto; [lia| |]; now apply (beyond_child board).
Qed.


(** ** Moves and the shape of the position *)

(** Either the column is full and the board comes back as it was, or the
    piece lands in the lowest Empty row. *)
Lemma dropPiece_cases (board : GameBoard) (col player : Z) :
  0 <= col < Z.of_nat Columns ->
  (dropPiece board col player = Ok board /\
   forall row, (row < Rows)%nat -> cell board row (Z.to_nat col) <> Empty) \/
  (exists row,
      lowestEmptyRow board (Z.to_nat col) row /\
      dropPiece board col player = Ok (setCell board row (Z.to_nat col) player)).
Proof.
  intros Hcol. unfold dropPiece.
  replace ((0 <=? col) && (col <? Z.of_nat Columns)) with true
    by (symmetry; apply andb_true_iff; split; [apply Z.leb_le | apply Z.ltb_lt]; lia).
  destruct (existsb (fun r => cell board r (Z.to_nat col) =? Empty) (seq 0 Rows)) eqn:E.
  - right. apply existsb_exists in E. destruct E as (r & Hr & He).
    apply in_seq in Hr. apply Z.eqb_eq in He.
    destruct (dropPiece_loop_lowest board (Z.to_nat col) player Rows)
      as (row & Hrow & Hrow_e & Hbelow & Hloop); [exists r; split; [lia | exact He]|].
    exists row. rewrite Hloop. repeat split; auto.
  - left.
    assert (Hfull : forall row, (row < Rows)%nat -> cell board row (Z.to_nat col) <> Empty).
    { intros row Hrow He.
      assert (Hex : existsb (fun r => cell board r (Z.to_nat col) =? Empty) (seq 0 Rows)
                    = true).
      { apply existsb_exists. exists row. split; [apply in_seq; lia | now apply Z.eqb_eq]. }
      rewrite Hex in E. discriminate. }
    split; [|exact Hfull]. f_equal. apply dropPiece_loop_full.
    intros row Hin. apply Hfull. apply in_rev, in_seq in Hin. lia.
Qed.

(** A piece in the lowest Empty row of its column keeps gravity. *)
Lemma gravity_setCell (board : GameBoard) (row col : nat) (player : Z) :
  wf_board board -> gravity board -> (col < Columns)%nat -> player <> Empty ->
  lowestEmptyRow board col row ->
  gravity (setCell board row col player).
Proof.
  intros Hwf Hg Hcol Hp (Hrow & He & Hbelow) r r' c Hr Hne.
  destruct (Nat.eq_dec c col) as [->|Hc].
  - destruct (Nat.lt_trichotomy r' row) as [Hlt|[->|Hgt]].
    + exfalso. rewrite cell_setCell_neq in Hne by (intros E; inversion E; lia).
      apply (Hg r row col) in Hne; [contradiction | lia].
    + rewrite cell_setCell_eq by auto. exact Hp.
    + rewrite cell_setCell_neq by (intros E; inversion E; lia).
      apply Hbelow. lia.
  - rewrite cell_setCell_neq in * by (intros E; inversion E; contradiction).
    now apply (Hg r r' c).
Qed.

(** X7. [dropPiece] keeps gravity: on a board where no Empty cell lies
    below a piece, a drop in any column of the board, full or not, leaves
    such a board. *)
Theorem dropPiece_keeps_gravity :
  forall (board : GameBoard) (col player : Z),
    wf_board board -> gravity board ->
    0 <= col < Z.of_nat Columns -> player <> Empty ->
    exists newBoard : GameBoard,
      dropPiece board col player = Ok newBoard /\
      wf_board newBoard /\ gravity newBoard.
Proof.
  intros board col player Hwf Hg Hcol Hp.
  destruct (dropPiece_cases board col player Hcol) as [[Hd _]|(row & Hlow & Hd)].
  - now exists board.
  - exists (setCell board row (Z.to_nat col) player).
    split; [exact Hd|]. split; [now apply wf_board_setCell|].
    apply gravity_setCell; auto. lia.
Qed.

Lemma gravity_midgameBoard : gravity midgameBoard.
Proof.
  intros r r' c Hr. unfold Rows in Hr.
  assert (Hc : (c < 7)%nat \/ (7 <= c)%nat) by lia. destruct Hc as [Hc|Hc].
  - do 7 (destruct c as [|c]; [
        do 6 (destruct r as [|r]; [
            do 6 (destruct r' as [|r']; [vm_compute; try congruence; lia|]); lia|]);
        lia|]).
    lia.
  - intros H. exfalso. apply H. unfold cell.
    do 6 (destruct r as [|r]; [apply nth_overflow; simpl; lia|]). lia.
Qed.

Lemma dropPiece_keeps_gravity_witness :
  exists newBoard : GameBoard,
    dropPiece midgameBoard 3 Player = Ok newBoard /\
    wf_board newBoard /\ gravity newBoard.
Proof.
  apply (dropPiece_keeps_gravity midgameBoard 3 Player).
  - split; [reflexivity | repeat constructor].
  - exact gravity_midgameBoard.
  - unfold Columns. lia.
  - discriminate.
Defined.

(** X8. Under gravity the test of the top row is a test of the whole
    column: [isBoardFull] holds exactly when no cell of the board is
    Empty, and [getValidColumns] lists exactly the columns that have an
    Empty cell. *)
Theorem top_row_tests_under_gravity :
  forall board : GameBoard,
    gravity board ->
    (isBoardFull board = true <->
     forall row col : nat,
       (row < Rows)%nat -> (col < Columns)%nat -> cell board row col <> Empty) /\
    (forall col : Z,
        In col (getValidColumns board) <->
        0 <= col < Z.of_nat Columns /\
        exists row : nat, (row < Rows)%nat /\ cell board row (Z.to_nat col) = Empty).
Proof.
  intros board Hg.
  assert (Htop : forall row col, (row < Rows)%nat ->
                   cell board 0 col <> Empty -> cell board row col <> Empty).
  { intros row col Hrow H0. destruct row as [|row]; [exact H0|].
    apply (Hg 0%nat (S row) col); [lia | exact H0]. }
  split.
  - rewrite isBoardFull_true. split.
    + intros Hfull row col Hrow Hcol. apply Htop; auto.
    + intros Hall col Hcol. apply Hall; [unfold Rows; lia | exact Hcol].
  - intros col. rewrite In_getValidColumns. split.
    + intros [Hcol He]. split; [exact Hcol|]. exists 0%nat. split; [unfold Rows; lia | exact He].
    + intros [Hcol (row & Hrow & He)]. split; [exact Hcol|].
      destruct (Z.eq_dec (cell board 0 (Z.to_nat col)) Empty) as [H0|H0]; [exact H0|].
      exfalso. exact (Htop row _ Hrow H0 He).
Qed.

Lemma top_row_tests_under_gravity_witness :
  (isBoardFull midgameBoard = true <->
   forall row col : nat,
     (row < Rows)%nat -> (col < Columns)%nat -> cell midgameBoard row col <> Empty) /\
  (forall col : Z,
      In col (getValidColumns midgameBoard) <->
      0 <= col < Z.of_nat Columns /\
      exists row : nat, (row < Rows)%nat /\ cell midgameBoard row (Z.to_nat col) = Empty).
Proof.
  apply (top_row_tests_under_gravity midgameBoard). exact gravity_midgameBoard.
Defined.

(** X9. A move in a valid column closes no other column, and closes its
    own exactly when the piece lands in the top row. *)
Theorem dropPiece_valid_columns :
  forall (board : GameBoard) (col player : Z),
    wf_board board -> In col (getValidColumns board) -> player <> Empty ->
    exists (newBoard : GameBoard) (row : nat),
      dropPiece board col player = Ok newBoard /\
      lowestEmptyRow board (Z.to_nat col) row /\
      forall c : Z,
        In c (getValidColumns newBoard) <->
        In c (getValidColumns board) /\ (c = col -> row <> 0%nat).
Proof.
  intros board col player Hwf Hin Hp.
  apply In_getValidColumns in Hin. destruct Hin as [Hcol Htop].
  destruct (dropPiece_valid board col player Hwf Hcol Htop) as (row & Hd & Hlow).
  exists (setCell board row (Z.to_nat col) player), row.
  split; [exact Hd|]. split; [exact Hlow|].
  destruct Hlow as (Hrow & He & _).
  intros c. rewrite !In_getValidColumns.
  assert (Hr : 0 <= c < Z.of_nat Columns \/ ~ 0 <= c < Z.of_nat Columns) by lia.
  destruct Hr as [Hr|Hr]; [|tauto].
  destruct (Z.eq_dec c col) as [->|Hc].
  - destruct row as [|row].
    + rewrite cell_setCell_eq by (auto; lia). split; [intros [_ H]; contradiction|].
      intros [_ H]. exfalso. now apply H.
    + rewrite cell_setCell_neq by discriminate. split; [|tauto].
      intros H. split; [exact H | discriminate].
  - rewrite cell_setCell_neq by (intros E; inversion E; lia). tauto.
Qed.

Lemma dropPiece_valid_columns_witness :
  exists (newBoard : GameBoard) (row : nat),
    dropPiece midgameBoard 3 Computer = Ok newBoard /\
    lowestEmptyRow midgameBoard (Z.to_nat 3) row /\
    forall c : Z,
      In c (getValidColumns newBoard) <->
      In c (getValidColumns midgameBoard) /\ (c = 3 -> row <> 0%nat).
Proof.
  apply (dropPiece_valid_columns midgameBoard 3 Computer).
  - split; [reflexivity | repeat constructor].
  - vm_compute. tauto.
  - discriminate.
Defined.

(** ** Moves and wins *)

Lemma anyLoop_mono (outer inner : list nat) (t1 t2 : nat -> nat -> bool) :
  (forall i j, t1 i j = true -> t2 i j = true) ->
  anyLoop outer inner t1 = true -> anyLoop outer inner t2 = true.
Proof.
  intros H. rewrite !anyLoop_true. intros (i & j & Hi & Hj & Ht).
  exists i, j. auto.
Qed.

Lemma checkWin_orb (board : GameBoard) (player : Z) :
  checkWin board player
  = winHorizontal board player || winVertical board player
    || winFalling board player || winRising board player.
Proof.
  unfold checkWin.
  change (anyLoop (seq 0 Rows) _ _) with (winHorizontal board player).
  change (anyLoop (seq 0 Columns) _ _) with (winVertical board player).
  change (anyLoop (seq 0 (Rows - 3)) _ _) with (winFalling board player).
  change (anyLoop (seq 3 (Rows - 3)) _ _) with (winRising board player).
  destruct (winHorizontal board player), (winVertical board player),
    (winFalling board player), (winRising board player); reflexivity.
Qed.

(** A win stays a win on a board that keeps the cells of [player]. *)
Lemma checkWin_mono (b1 b2 : GameBoard) (player : Z) :
  (forall r c, cell b1 r c = player -> cell b2 r c = player) ->
  checkWin b1 player = true -> checkWin b2 player = true.
Proof.
  intros Hcells.
  assert (H4 : forall a b c d a' b' c' d' : Z,
             (a = player -> a' = player) -> (b = player -> b' = player) ->
             (c = player -> c' = player) -> (d = player -> d' = player) ->
             (a =? player) && (b =? player) && (c =? player) && (d =? player) = true ->
             (a' =? player) && (b' =? player) && (c' =? player) && (d' =? player) = true).
  { intros a b c d a' b' c' d' Ha Hb Hc Hd. rewrite !four_eqb. tauto. }
  rewrite !checkWin_orb, !orb_true_iff.
  unfold winHorizontal, winVertical, winFalling, winRising.
  intros [[[H|H]|H]|H]; [left; left; left | left; left; right | left; right | right];
    revert H; apply anyLoop_mono; intros i j; apply H4; apply Hcells.
Qed.

(** X10. A move never undoes a win and never gives the other side one:
    after a drop of [player], whoever had four in a row still has, and
    any [other] side has four in a row only if it had before. *)
Theorem dropPiece_and_wins :
  forall (board newBoard : GameBoard) (col player other : Z),
    wf_board board -> player <> Empty -> other <> Empty ->
    dropPiece board col player = Ok newBoard ->
    (checkWin board other = true -> checkWin newBoard other = true) /\
    (other <> player -> checkWin newBoard other = checkWin board other).
Proof.
  intros board nb col player other Hwf Hp Ho Hd.
  assert (Hcol : 0 <= col < Z.of_nat Columns).
  { unfold dropPiece in Hd.
    destruct (Z.leb_spec 0 col), (Z.ltb_spec col (Z.of_nat Columns));
      cbn [andb] in Hd; try discriminate. lia. }
  assert (Hkeep : forall r c, cell board r c = other -> cell nb r c = other).
  { destruct (dropPiece_cases board col player Hcol)
      as [[Hd' _]|(row & (Hrow & He & _) & Hd')];
      rewrite Hd' in Hd; inversion Hd; subst; auto.
    intros r c Hc.
    destruct (Nat.eq_dec r row) as [->|Hr];
      [destruct (Nat.eq_dec c (Z.to_nat col)) as [->|Hc']|].
    - congruence.
    - rewrite cell_setCell_neq by congruence. exact Hc.
    - rewrite cell_setCell_neq by congruence. exact Hc. }
  split; [now apply checkWin_mono|].
  intros Hne.
  assert (Hback : forall r c, cell nb r c = other -> cell board r c = other).
  { destruct (dropPiece_cases board col player Hcol)
      as [[Hd' _]|(row & (Hrow & He & _) & Hd')];
      rewrite Hd' in Hd; inversion Hd; subst; auto.
    intros r c Hc.
    destruct (Nat.eq_dec r row) as [->|Hr];
      [destruct (Nat.eq_dec c (Z.to_nat col)) as [->|Hc']|].
    - rewrite cell_setCell_eq in Hc by (auto; lia). congruence.
    - rewrite cell_setCell_neq in Hc by congruence. exact Hc.
    - rewrite cell_setCell_neq in Hc by congruence. exact Hc. }
  destruct (checkWin board other) eqn:E1.
  - now apply (checkWin_mono board nb).
  - destruct (checkWin nb other) eqn:E2; [|reflexivity].
    apply (checkWin_mono nb board other Hback) in E2. congruence.
Qed.

Lemma dropPiece_and_wins_witness :
  (checkWin computerThreeBoard Player = true ->
   checkWin (setCell computerThreeBoard 5 3 Computer) Player = true) /\
  (Player <> Computer ->
   checkWin (setCell computerThreeBoard 5 3 Computer) Player
   = checkWin computerThreeBoard Player).
Proof.
  apply (dropPiece_and_wins computerThreeBoard _ 3 Computer Player).
  - split; [reflexivity | repeat constructor].
  - discriminate.
  - discriminate.
  - vm_compute. reflexivity.
Defined.

(** ** Wins and the evaluator *)

Lemma evaluateSegment_100 (a b c d player : Z) :
  evaluateSegment [a; b; c; d] player = 100 <->
  a = player /\ b = player /\ c = player /\ d = player.
Proof.
  unfold evaluateSegment, countCell, Empty. cbn [fold_left].
  destruct (Z.eqb_spec a player), (Z.eqb_spec b player),
    (Z.eqb_spec c player), (Z.eqb_spec d player);
    destruct (a =? 0), (b =? 0), (c =? 0), (d =? 0); cbn;
    (split; [intros H; try discriminate H; repeat split; assumption
            | intros (? & ? & ? & ?); try reflexivity; contradiction]).
Qed.

Lemma anyLoop_flat_map (outer inner : list nat) (test : nat -> nat -> bool)
    (f : nat -> nat -> Segment) (P : Segment -> Prop) :
  (forall i j, test i j = true <-> P (f i j)) ->
  (anyLoop outer inner test = true <->
   exists seg, In seg (flat_map (fun i => map (f i) inner) outer) /\ P seg).
Proof.
  intros H. rewrite anyLoop_true. split.
  - intros (i & j & Hi & Hj & Ht). exists (f i j). split; [|now apply H].
    apply in_flat_map. exists i. split; [exact Hi|]. now apply in_map.
  - intros (seg & Hin & HP). apply in_flat_map in Hin. destruct Hin as (i & Hi & Hin).
    apply in_map_iff in Hin. destruct Hin as (j & <- & Hj).
    exists i, j. repeat split; auto. now apply H.
Qed.

Lemma zsum_map_ge {A : Type} (f : A -> Z) (l : list A) (x : A) :
  (forall y, 0 <= f y) -> In x l -> f x <= zsum (map f l).
Proof.
  intros Hf. induction l as [|y l IH]; simpl; [intros []|].
  intros [->|Hin].
  - assert (0 <= zsum (map f l)).
    { clear IH. induction l as [|z l IHl]; simpl; [lia|]. specialize (Hf z). lia. }
    lia.
  - specialize (IH Hin). specialize (Hf y). lia.
Qed.

(** X11. [checkWin] and the evaluator agree on what a win is: a player
    has won exactly when one of the 69 segments scores 100 for that
    player, and then the player's lines are worth at least 100. *)
Theorem checkWin_iff_segment_of_100 :
  forall (board : GameBoard) (player : Z),
    (checkWin board player = true <->
     exists seg : Segment,
       In seg allSegments /\ evaluateSegment (cellsOf board seg) player = 100) /\
    (wf_board board -> checkWin board player = true ->
     100 <= evaluateLines board player).
Proof.
  intros board player.
  assert (Hiff : checkWin board player = true <->
                 exists seg : Segment,
                   In seg allSegments /\
                   evaluateSegment (cellsOf board seg) player = 100).
  { rewrite checkWin_orb, !orb_true_iff.
    unfold winHorizontal, winVertical, winFalling, winRising.
    rewrite (anyLoop_flat_map (seq 0 Rows) _ _
               (fun row col => [(row, col); (row, col + 1); (row, col + 2); (row, col + 3)]%nat)
               (fun seg => evaluateSegment (cellsOf board seg) player = 100))
      by (intros i j; cbn [cellsOf map fst snd]; rewrite evaluateSegment_100; apply four_eqb).
    rewrite (anyLoop_flat_map (seq 0 Columns) _ _
               (fun col row => [(row, col); (row + 1, col); (row + 2, col); (row + 3, col)]%nat)
               (fun seg => evaluateSegment (cellsOf board seg) player = 100))
      by (intros i j; cbn [cellsOf map fst snd]; rewrite evaluateSegment_100; apply four_eqb).
    rewrite (anyLoop_flat_map (seq 0 (Rows - 3)) _ _
               (fun row col =>
                  [(row, col); (row + 1, col + 1); (row + 2, col + 2); (row + 3, col + 3)]%nat)
               (fun seg => evaluateSegment (cellsOf board seg) player = 100))
      by (intros i j; cbn [cellsOf map fst snd]; rewrite evaluateSegment_100; apply four_eqb).
    rewrite (anyLoop_flat_map (seq 3 (Rows - 3)) _ _
               (fun row col =>
                  [(row, col); (row - 1, col + 1); (row - 2, col + 2); (row - 3, col + 3)]%nat)
               (fun seg => evaluateSegment (cellsOf board seg) player = 100))
      by (intros i j; cbn [cellsOf map fst snd]; rewrite evaluateSegment_100; apply four_eqb).
    fold horizontalSegments verticalSegments fallingSegments risingSegments.
    unfold allSegments. split.
    - intros [[[(seg & Hin & H)|(seg & Hin & H)]|(seg & Hin & H)]|(seg & Hin & H)];
        exists seg; (split; [|exact H]); rewrite !in_app_iff; tauto.
    - intros (seg & Hin & H). rewrite !in_app_iff in Hin.
      destruct Hin as [Hin|[Hin|[Hin|Hin]]];
        [left; left; left | left; left; right | left; right | right]; now exists seg. }
  split; [exact Hiff|].
  intros Hwf Hwin. apply Hiff in Hwin. destruct Hwin as (seg & Hin & H100).
  rewrite evaluateLines_zsum by exact Hwf. rewrite <- H100.
  apply (zsum_map_ge (fun seg => evaluateSegment (cellsOf board seg) player) allSegments seg);
    [|exact Hin].
  intros y. apply evaluateSegment_range.
Qed.

(** X12. The evaluator cannot overflow: on every board the lines of a
    player are worth between 0 and 6900, and [evaluateBoard] lies between
    -6900 and 6900. *)
Theorem evaluateBoard_bounded :
  forall board : GameBoard,
    wf_board board ->
    (forall player : Z, 0 <= evaluateLines board player <= 6900) /\
    -6900 <= evaluateBoard board <= 6900.
Proof.
  intros board Hwf.
  assert (H : forall player : Z, 0 <= evaluateLines board player <= 6900).
  { intros player. rewrite evaluateLines_zsum by exact Hwf.
    pose proof (zsum_map_range (fun seg => evaluateSegment (cellsOf board seg) player)
                  allSegments (fun seg => evaluateSegment_range _ _)) as HR.
    change (length allSegments) with 69%nat in HR. lia. }
  split; [exact H|].
  unfold evaluateBoard. cbn zeta.
  pose proof (H Computer). pose proof (H Player). lia.
Qed.

Lemma evaluateBoard_bounded_witness :
  (forall player : Z, 0 <= evaluateLines midgameBoard player <= 6900) /\
  -6900 <= evaluateBoard midgameBoard <= 6900.
Proof.
  apply (evaluateBoard_bounded midgameBoard).
  split; [reflexivity | repeat constructor].
Defined.

(** ** Blocking a threat *)

Lemma lowestEmptyRow_unique (board : GameBoard) (col r1 r2 : nat) :
  lowestEmptyRow board col r1 -> lowestEmptyRow board col r2 -> r1 = r2.
Proof.
  intros (H1 & E1 & B1) (H2 & E2 & B2).
  destruct (Nat.lt_trichotomy r1 r2) as [Hlt|[->|Hgt]]; [|reflexivity|].
  - exfalso. apply (B1 r2); [lia | exact E2].
  - exfalso. apply (B2 r1); [lia | exact E1].
Qed.

(** A piece put on an Empty cell keeps every win. *)
Lemma checkWin_setCell_keep (board : GameBoard) (row col : nat) (p q : Z) :
  cell board row col = Empty -> q <> Empty ->
  checkWin board q = true -> checkWin (setCell board row col p) q = true.
Proof.
  intros He Hq. apply checkWin_mono. intros r c Hc.
  destruct (Nat.eq_dec r row) as [->|Hr];
    [destruct (Nat.eq_dec c col) as [->|Hc']|].
  - congruence.
  - rewrite cell_setCell_neq by congruence. exact Hc.
  - rewrite cell_setCell_neq by congruence. exact Hc.
Qed.

(** A piece of [p] makes no win for another side. *)
Lemma checkWin_setCell_other (board : GameBoard) (row col : nat) (p q : Z) :
  wf_board board -> (row < Rows)%nat -> (col < Columns)%nat -> q <> p ->
  checkWin (setCell board row col p) q = true -> checkWin board q = true.
Proof.
  intros Hwf Hrow Hcol Hq. apply checkWin_mono. intros r c Hc.
  destruct (Nat.eq_dec r row) as [->|Hr];
    [destruct (Nat.eq_dec c col) as [->|Hc']|].
  - rewrite cell_setCell_eq in Hc by auto. congruence.
  - rewrite cell_setCell_neq in Hc by congruence. exact Hc.
  - rewrite cell_setCell_neq in Hc by congruence. exact Hc.
Qed.

Lemma smin_NegInf_l (x : score) : smin NegInf x = NegInf.
Proof. score_cases. Qed.

Lemma smin_NegInf_r (x : score) : smin x NegInf = NegInf.
Proof. score_cases. Qed.

(** The unpruned search returns. *)
Lemma fullMinimax_fuel_total (fuel : nat) (board : GameBoard) (depth : Z)
    (maximizingPlayer : bool) :
  wf_board board -> (countEmpty board < fuel)%nat ->
  exists e, fullMinimax_fuel fuel board depth maximizingPlayer = Ok e.
Proof.
  intros Hwf Hc.
  destruct (minimax_fuel_sound fuel board depth NegInf PosInf maximizingPlayer zeroRand
              Hwf Hc eq_refl) as (_ & _ & _ & e & _ & He & _).
  now exists e.
Qed.

(** A minimizing level with a child of score minus infinity. *)
Lemma fullLoop_min_NegInf (rec : GameBoard -> result score) (board : GameBoard)
    (cols : list Z) (b : Z) (nb : GameBoard) :
  (forall c, In c cols ->
             exists nc e, dropPiece board c Player = Ok nc /\ rec nc = Ok e) ->
  In b cols -> dropPiece board b Player = Ok nb -> rec nb = Ok NegInf ->
  forall value, fullLoop rec smin Player board cols value = Ok NegInf.
Proof.
  intros Htot Hin Hd Hr.
  assert (Hneg : forall cs, (forall c, In c cs ->
                   exists nc e, dropPiece board c Player = Ok nc /\ rec nc = Ok e) ->
                 fullLoop rec smin Player board cs NegInf = Ok NegInf).
  { induction cs as [|c cs IH]; intros Ht; [reflexivity|].
    destruct (Ht c ltac:(simpl; auto)) as (nc & e & Hdc & Hrc).
    cbn [fullLoop]. rewrite Hdc. cbn [rbind]. rewrite Hrc. cbn [rbind].
    rewrite smin_NegInf_l. apply IH. intros; apply Ht; simpl; auto. }
  induction cols as [|c cols IH]; intros value; [destruct Hin|].
  cbn [fullLoop].
  destruct Hin as [->|Hin].
  - rewrite Hd. cbn [rbind]. rewrite Hr. cbn [rbind]. rewrite smin_NegInf_r.
    apply Hneg. intros; apply Htot; simpl; auto.
  - destruct (Htot c ltac:(simpl; auto)) as (nc & e & Hdc & Hrc).
    rewrite Hdc. cbn [rbind]. rewrite Hrc. cbn [rbind].
    apply IH; auto. intros; apply Htot; simpl; auto.
Qed.

(** After a Computer move elsewhere that does not win, the Player's
    threat at [b] still stands, and the position scores minus infinity
    as soon as the search looks one ply further. *)
Lemma childScore_unblocked_fuel (fuel : nat) (board : GameBoard) (depth : Z) (b c : Z) :
  wf_board board -> isTerminalNode board = false ->
  (countEmpty board < S fuel)%nat ->
  wrap64 (depth - 1) <> 0 ->
  In b (getValidColumns board) -> threatAt board b ->
  In c (getValidColumns board) -> c <> b -> ~ winsAt board c ->
  rbind (dropPiece board c Computer)
        (fun nb => fullMinimax_fuel (S fuel) nb (wrap64 (depth - 1)) false)
  = Ok NegInf.
Proof.
  intros Hwf Hterm Hfuel Hd Hb (nbb & Hdb & Hwb) Hc Hcb Hnowin.
  apply In_getValidColumns in Hb. destruct Hb as [Hbr Hbtop].
  apply In_getValidColumns in Hc. destruct Hc as [Hcr Hctop].
  destruct (dropPiece_valid board c Computer Hwf Hcr Hctop) as (rc & Hdc & Hlc).
  destruct (dropPiece_valid board b Player Hwf Hbr Hbtop) as (rb & Hdb' & Hlb).
  rewrite Hdb in Hdb'. inversion Hdb'; subst nbb. clear Hdb'.
  pose proof Hlc as (Hrc & Hec & _). pose proof Hlb as (Hrb & Heb & Hbelow).
  set (nc := setCell board rc (Z.to_nat c) Computer) in *.
  assert (Hwfc : wf_board nc) by now apply wf_board_setCell.
  assert (Hcolb : forall r, cell nc r (Z.to_nat b) = cell board r (Z.to_nat b)).
  { intros r. unfold nc. apply cell_setCell_neq. intros E. inversion E. lia. }
  assert (Hlb' : lowestEmptyRow nc (Z.to_nat b) rb).
  { split; [exact Hrb|]. split; [now rewrite Hcolb|].
    intros r Hr. rewrite Hcolb. now apply Hbelow. }
  destruct (dropPiece_valid nc b Player Hwfc Hbr ltac:(rewrite Hcolb; exact Hbtop))
    as (rb' & Hdcb & Hlb'').
  rewrite (lowestEmptyRow_unique _ _ _ _ Hlb'' Hlb') in Hdcb. clear rb' Hlb''.
  set (ncb := setCell nc rb (Z.to_nat b) Player) in *.
  (* the position after the Computer's move is not terminal *)
  unfold isTerminalNode in Hterm. apply orb_false_iff in Hterm.
  destruct Hterm as [Hterm Hfull]. apply orb_false_iff in Hterm.
  destruct Hterm as [HwP HwC].
  assert (HcP : checkWin nc Player = false).
  { destruct (checkWin nc Player) eqn:E; [|reflexivity].
    apply checkWin_setCell_other in E; auto; [congruence | lia | discriminate]. }
  assert (HcC : checkWin nc Computer = false).
  { destruct (checkWin nc Computer) eqn:E; [|reflexivity].
    exfalso. apply Hnowin. now exists nc. }
  assert (HcF : isBoardFull nc = false).
  { destruct (isBoardFull nc) eqn:E; [|reflexivity].
    rewrite isBoardFull_true in E. exfalso.
    apply (E (Z.to_nat b)); [lia|]. now rewrite Hcolb. }
  assert (Htermc : isTerminalNode nc = false)
    by (unfold isTerminalNode; now rewrite HcP, HcC, HcF).
  (* the Player's reply at [b] wins *)
  assert (HwinP : checkWin ncb Player = true).
  { revert Hwb. apply checkWin_mono. intros r k Hk.
    destruct (Nat.eq_dec r rb) as [->|Hr];
      [destruct (Nat.eq_dec k (Z.to_nat b)) as [->|Hk']|].
    - unfold ncb. apply cell_setCell_eq; auto. lia.
    - unfold ncb. rewrite cell_setCell_neq by congruence.
      rewrite cell_setCell_neq in Hk by congruence.
      destruct (Nat.eq_dec rb rc) as [->|Hr'];
        [destruct (Nat.eq_dec k (Z.to_nat c)) as [->|Hk'']|].
      + rewrite Hec in Hk. discriminate.
      + unfold nc. rewrite cell_setCell_neq by congruence. exact Hk.
      + unfold nc. rewrite cell_setCell_neq by congruence. exact Hk.
    - unfold ncb. rewrite cell_setCell_neq by congruence.
      rewrite cell_setCell_neq in Hk by congruence.
      destruct (Nat.eq_dec r rc) as [->|Hr'];
        [destruct (Nat.eq_dec k (Z.to_nat c)) as [->|Hk'']|].
      + rewrite Hec in Hk. discriminate.
      + unfold nc. rewrite cell_setCell_neq by congruence. exact Hk.
      + unfold nc. rewrite cell_setCell_neq by congruence. exact Hk. }
  assert (HwinC : checkWin ncb Computer = false).
  { destruct (checkWin ncb Computer) eqn:E; [|reflexivity].
    apply checkWin_setCell_other in E; auto; [congruence | lia | discriminate]. }
  (* unfold the search of the child *)
  rewrite Hdc. cbn [rbind fullMinimax_fuel].
  apply Z.eqb_neq in Hd. rewrite Hd, Htermc. cbn [orb].
  assert (Hcount : (S (countEmpty nc) = countEmpty board)%nat).
  { destruct (dropPiece_child board c Computer Hwf ltac:(discriminate)
                (conj Hcr Hctop)) as (x & Hx & _ & Hcnt).
    rewrite Hdc in Hx. inversion Hx; subst x. exact Hcnt. }
  apply (fullLoop_min_NegInf _ nc (getValidColumns nc) b ncb).
  - intros k Hk. apply In_getValidColumns in Hk.
    destruct (dropPiece_child nc k Player Hwfc ltac:(discriminate) Hk)
      as (nk & Hdk & Hwfk & Hcntk).
    destruct (fullMinimax_fuel_total fuel nk
                (wrap64 (wrap64 (depth - 1) - 1)) true Hwfk ltac:(lia)) as (e & He).
    exists nk, e. split; [exact Hdk | exact He].
  - apply In_getValidColumns. split; [exact Hbr|]. now rewrite Hcolb.
  - exact Hdcb.
  - destruct fuel as [|f]; [lia|].
    rewrite fullMinimax_fuel_leaf
      by (apply orb_true_iff; right; unfold isTerminalNode; now rewrite HwinP).
    unfold leafScore. now rewrite HwinC, HwinP.
Qed.

Lemma childScore_unblocked (board : GameBoard) (depth : Z) (b c : Z) :
  wf_board board -> isTerminalNode board = false ->
  wrap64 (depth - 1) <> 0 ->
  In b (getValidColumns board) -> threatAt board b ->
  In c (getValidColumns board) -> c <> b -> ~ winsAt board c ->
  childScore board depth c = Ok NegInf.
Proof.
  intros Hwf Hterm Hd Hb Ht Hc Hcb Hnowin.
  unfold childScore, fullMinimax, searchFuel.
  apply (childScore_unblocked_fuel (Rows * Columns) board depth b c); auto.
  exact (searchFuel_enough board Hwf).
Qed.

(** X13. Blocking. When the Player threatens to win at once in the valid
    column [b], the Computer cannot win at once, and the search looks at
    least two plies ahead, every other column scores minus infinity:
    [getComputerMove] returns [b] unless [b] scores minus infinity too. *)
Theorem getComputerMove_blocks :
  forall (board : GameBoard) (depth : Z) (rng : Rand) (b : Z),
    wf_board board -> isTerminalNode board = false ->
    int64 depth -> depth <> 0 -> depth <> 1 ->
    In b (getValidColumns board) -> threatAt board b ->
    (forall c, In c (getValidColumns board) -> ~ winsAt board c) ->
    exists col : Z,
      getComputerMove board depth rng = Ok col /\
      (forall c, In c (getValidColumns board) -> c <> b ->
                 childScore board depth c = Ok NegInf) /\
      (childScore board depth b <> Ok NegInf -> col = b).
Proof.
  intros board depth rng b Hwf Hterm Hint Hd0 Hd1 Hb Hthreat Hnowin.
  assert (Hd : wrap64 (depth - 1) <> 0).
  { unfold int64, wrap64 in *.
    change (2 ^ 63) with 9223372036854775808 in *.
    change (2 ^ 64) with 18446744073709551616 in *.
    Z.div_mod_to_equations. lia. }
  assert (Hothers : forall c, In c (getValidColumns board) -> c <> b ->
                              childScore board depth c = Ok NegInf).
  { intros c Hc Hcb. apply (childScore_unblocked board depth b c); auto. }
  destruct (getComputerMove_root board depth rng Hwf Hterm Hd0) as (col & Hmove & Hchoice).
  exists col. split; [exact Hmove|]. split; [exact Hothers|].
  intros Hbs.
  destruct Hchoice as [[_ Hall]|(pre & post & v & Hsplit & Hv & Hvne & _)].
  - exfalso. apply Hbs. now apply Hall.
  - destruct (Z.eq_dec col b) as [->|Hne]; [reflexivity|].
    exfalso. rewrite Hothers in Hv; auto.
    + inversion Hv. congruence.
    + rewrite Hsplit. apply in_app_iff. simpl. auto.
Qed.

Lemma smin_not_NegInf (x y : score) : x <> NegInf -> y <> NegInf -> smin x y <> NegInf.
Proof. intros Hx Hy. unfold smin. now destruct (slt y x). Qed.

(** A minimizing level none of whose children scores minus infinity. *)
Lemma fullLoop_min_not_NegInf (rec : GameBoard -> result score) (board : GameBoard)
    (cols : list Z) :
  (forall c, In c cols ->
             exists nc e, dropPiece board c Player = Ok nc /\ rec nc = Ok e /\ e <> NegInf) ->
  forall value, value <> NegInf ->
    exists e, fullLoop rec smin Player board cols value = Ok e /\ e <> NegInf.
Proof.
  induction cols as [|c cols IH]; intros Htot value Hv.
  - now exists value.
  - destruct (Htot c ltac:(simpl; auto)) as (nc & e & Hd & Hr & He).
    cbn [fullLoop]. rewrite Hd. cbn [rbind]. rewrite Hr. cbn [rbind].
    apply IH; [intros; apply Htot; simpl; auto | now apply smin_not_NegInf].
Qed.

Lemma leafScore_NegInf (board : GameBoard) :
  leafScore board = NegInf -> checkWin board Player = true.
Proof.
  unfold leafScore.
  destruct (checkWin board Computer); [discriminate|].
  destruct (checkWin board Player); [reflexivity|].
  destruct (isBoardFull board); discriminate.
Qed.

(** When the block leaves the Player no immediate win, two plies see that
    it does not lose. *)
Lemma childScore_block_fuel (fuel : nat) (board : GameBoard) (b : Z) :
  wf_board board -> isTerminalNode board = false ->
  (countEmpty board < S fuel)%nat ->
  In b (getValidColumns board) -> ~ winsAt board b ->
  (forall nb, dropPiece board b Computer = Ok nb ->
              forall k, In k (getValidColumns nb) -> ~ threatAt nb k) ->
  exists e,
    rbind (dropPiece board b Computer)
          (fun nb => fullMinimax_fuel (S fuel) nb (wrap64 (2 - 1)) false) = Ok e /\
    e <> NegInf.
Proof.
  intros Hwf Hterm Hfuel Hb Hnowin Hnothreat.
  apply In_getValidColumns in Hb.
  destruct (dropPiece_child board b Computer Hwf ltac:(discriminate) Hb)
    as (nb & Hd & Hwfb & Hcount).
  specialize (Hnothreat nb Hd). rewrite Hd. cbn [rbind].
  change (wrap64 (2 - 1)) with 1.
  assert (HcC : checkWin nb Computer = false).
  { destruct (checkWin nb Computer) eqn:E; [|reflexivity].
    exfalso. apply Hnowin. now exists nb. }
  destruct (isTerminalNode nb) eqn:Htb.
  - destruct fuel as [|f].
    + rewrite fullMinimax_fuel_leaf by (apply orb_true_iff; now right).
      exists (leafScore nb). split; [reflexivity|]. intros E.
      apply leafScore_NegInf in E.
      destruct Hb as [Hbr Hbtop].
      destruct (dropPiece_valid board b Computer Hwf Hbr Hbtop) as (rb & Hd' & (Hrb & _)).
      rewrite Hd in Hd'. inversion Hd'; subst nb.
      apply checkWin_setCell_other in E; auto; [|lia|discriminate].
      unfold isTerminalNode in Hterm. rewrite E in Hterm. discriminate.
    + rewrite fullMinimax_fuel_leaf by (apply orb_true_iff; now right).
      exists (leafScore nb). split; [reflexivity|]. intros E.
      apply leafScore_NegInf in E.
      destruct Hb as [Hbr Hbtop].
      destruct (dropPiece_valid board b Computer Hwf Hbr Hbtop) as (rb & Hd' & (Hrb & _)).
      rewrite Hd in Hd'. inversion Hd'; subst nb.
      apply checkWin_setCell_other in E; auto; [|lia|discriminate].
      unfold isTerminalNode in Hterm. rewrite E in Hterm. discriminate.
  - cbn [fullMinimax_fuel]. rewrite Htb. cbn [Z.eqb orb].
    apply fullLoop_min_not_NegInf; [|discriminate].
    intros k Hk. pose proof Hk as Hk'. apply In_getValidColumns in Hk'.
    destruct (dropPiece_child nb k Player Hwfb ltac:(discriminate) Hk')
      as (nk & Hdk & Hwfk & Hcntk).
    exists nk, (leafScore nk).
    split; [exact Hdk|].
    destruct fuel as [|f]; [lia|].
    split; [apply fullMinimax_fuel_leaf; reflexivity|].
    intros E. apply leafScore_NegInf in E. apply (Hnothreat k Hk). now exists nk.
Qed.

(** X14. Two plies suffice to block: when the Player threatens to win
    at once in the valid column [b], the Computer cannot win at once,
    and the Computer's piece in [b] leaves the Player no immediate win,
    [getComputerMove] at depth 2 returns [b], whatever the random draw. *)
Theorem getComputerMove_depth2_blocks :
  forall (board : GameBoard) (rng : Rand) (b : Z),
    wf_board board -> isTerminalNode board = false ->
    In b (getValidColumns board) -> threatAt board b ->
    (forall c, In c (getValidColumns board) -> ~ winsAt board c) ->
    (forall nb, dropPiece board b Computer = Ok nb ->
                forall k, In k (getValidColumns nb) -> ~ threatAt nb k) ->
    getComputerMove board 2 rng = Ok b.
Proof.
  intros board rng b Hwf Hterm Hb Hthreat Hnowin Hnothreat.
  destruct (childScore_block_fuel (Rows * Columns) board b Hwf Hterm
              (searchFuel_enough board Hwf) Hb (Hnowin b Hb) Hnothreat)
    as (e & He & Hne).
  assert (Hbs : childScore board 2 b = Ok e) by exact He.
  assert (Hothers : forall c, In c (getValidColumns board) -> c <> b ->
                              childScore board 2 c = Ok NegInf).
  { intros c Hc Hcb. apply (childScore_unblocked board 2 b c); auto. discriminate. }
  destruct (getComputerMove_root board 2 rng Hwf Hterm ltac:(discriminate))
    as (col & Hmove & Hchoice).
  rewrite Hmove. f_equal.
  destruct Hchoice as [[_ Hall]|(pre & post & v & Hsplit & Hv & Hvne & _)].
  - exfalso. rewrite (Hall b Hb) in Hbs. inversion Hbs. congruence.
  - destruct (Z.eq_dec col b) as [->|Hcb]; [reflexivity|].
    exfalso. rewrite Hothers in Hv; auto.
    + inversion Hv. congruence.
    + rewrite Hsplit. apply in_app_iff. simpl. auto.
Qed.

Ltac no_win_at :=
  let nb := fresh "nb" in
  let Hd := fresh "Hd" in
  let Hw := fresh "Hw" in
  intros (nb & Hd & Hw); vm_compute in Hd; inversion Hd; subst nb;
  vm_compute in Hw; discriminate.

Lemma getComputerMove_depth2_blocks_witness :
  getComputerMove playerThreeBoard 2 zeroRand = Ok 3.
Proof.
  apply (getComputerMove_depth2_blocks playerThreeBoard zeroRand 3).
  - split; [reflexivity | repeat constructor].
  - vm_compute. reflexivity.
  - vm_compute. tauto.
  - eexists. split; vm_compute; reflexivity.
  - intros c Hc. vm_compute in Hc.
    destruct Hc as [<-|[<-|[<-|[<-|[<-|[<-|[<-|[]]]]]]]]; no_win_at.
  - intros nb Hd k Hk. vm_compute in Hd. inversion Hd; subst nb. vm_compute in Hk.
    destruct Hk as [<-|[<-|[<-|[<-|[<-|[<-|[<-|[]]]]]]]]; no_win_at.
Defined.

Lemma getComputerMove_blocks_witness :
  exists col : Z,
    getComputerMove playerThreeBoard 5 zeroRand = Ok col /\
    (forall c, In c (getValidColumns playerThreeBoard) -> c <> 3 ->
               childScore playerThreeBoard 5 c = Ok NegInf) /\
    (childScore playerThreeBoard 5 3 <> Ok NegInf -> col = 3).
Proof.
  apply (getComputerMove_blocks playerThreeBoard 5 zeroRand 3).
  - split; [reflexivity | repeat constructor].
  - vm_compute. reflexivity.
  - unfold int64. split; [vm_compute; discriminate | reflexivity].
  - discriminate.
  - discriminate.
  - vm_compute. tauto.
  - eexists. split; vm_compute; reflexivity.
  - intros c Hc. vm_compute in Hc.
    destruct Hc as [<-|[<-|[<-|[<-|[<-|[<-|[<-|[]]]]]]]]; no_win_at.
Defined.


(** * The game screen *)

Section GuiFrame.

Import String.
Import Gui.

(** ** The empty board *)

Lemma cell_zeroBoard (r c : nat) : cell zeroBoard r c = Empty.
Proof.
  unfold cell, zeroBoard.
  do 6 (destruct r as [|r]; [do 7 (destruct c as [|c]; [reflexivity|]); now destruct c|]).
  now destruct r, c.
Qed.

Lemma wf_zeroBoard : wf_board zeroBoard.
Proof. split; [reflexivity | repeat constructor]. Qed.

Lemma gravity_zeroBoard : gravity zeroBoard.
Proof. intros r r' c _ H. exfalso. apply H. apply cell_zeroBoard. Qed.

Lemma cellsOk_zeroBoard : cellsOk zeroBoard.
Proof. intros r c. left. apply cell_zeroBoard. Qed.

(** ** What the steps of a frame leave alone *)

(** The invariant reads five fields only. *)
Lemma Inv_same (g g' : ConnectFourGame) :
  state g' = state g -> board g' = board g -> turn g' = turn g ->
  gameInProgress g' = gameInProgress g -> gameResult g' = gameResult g ->
  Inv g -> Inv g'.
Proof.
  unfold Inv. intros -> -> -> -> ->. auto.
Qed.

Lemma initUI_same (g : ConnectFourGame) :
  state (initUI g) = state g /\ board (initUI g) = board g /\
  turn (initUI g) = turn g /\ gameInProgress (initUI g) = gameInProgress g /\
  gameResult (initUI g) = gameResult g.
Proof.
  destruct g as [st b t ip res hc ih ct tt btns ai]. unfold initUI. cbn.
  destruct (st =? StateLogin); [cbn; auto 6|].
  destruct (st =? StateGameMode); [cbn; auto 6|].
  destruct (st =? StateGame); [cbn; auto 6|].
  destruct (st =? StateGameOver); cbn; auto 6.
Qed.

Lemma Inv_initUI (g : ConnectFourGame) : Inv g -> Inv (initUI g).
Proof.
  destruct (initUI_same g) as (H1 & H2 & H3 & H4 & H5). now apply Inv_same.
Qed.

Lemma hoverLoop_same (hit : nat -> bool) (cols : list nat) (g : ConnectFourGame) :
  state (hoverLoop hit cols g) = state g /\ board (hoverLoop hit cols g) = board g /\
  turn (hoverLoop hit cols g) = turn g /\
  gameInProgress (hoverLoop hit cols g) = gameInProgress g /\
  gameResult (hoverLoop hit cols g) = gameResult g.
Proof.
  induction cols as [|c cols IH]; cbn; [auto 6|].
  destruct (hit c); [cbn; auto 6 | exact IH].
Qed.

Lemma Inv_hover (g : ConnectFourGame) (f : Frame) : Inv g -> Inv (hover g f).
Proof.
  intros H. unfold hover.
  destruct ((state g =? StateGame) && gameInProgress g && (turn g =? Player)); [|exact H].
  destruct (overBoard f).
  - destruct (hoverLoop_same (columnHit f) (seq 0 Columns)
                (withHoverColumn (withIsHovering g false) (-1))) as (H1 & H2 & H3 & H4 & H5).
    revert H. now apply Inv_same.
  - revert H. now apply Inv_same.
Qed.

(** ** Leaving and entering the game *)

Lemma Inv_to_menu (g : ConnectFourGame) : Inv g -> Inv (withState g StateGameMode).
Proof.
  unfold Inv. cbn. intros (Hwf & Hg & Hc & _ & _).
  split; [exact Hwf|]. split; [exact Hg|]. split; [exact Hc|].
  split; intros E; discriminate E.
Qed.

Lemma Inv_new_game (g : ConnectFourGame) : Inv (withState (initializeGame g) StateGame).
Proof.
  unfold Inv. destruct g as [st b t ip res hc ih ct tt btns ai]. cbn.
  change (fold_left _ (seq 0 Rows) zeroBoard) with zeroBoard.
  split; [exact wf_zeroBoard|]. split; [exact gravity_zeroBoard|].
  split; [exact cellsOk_zeroBoard|]. split; [|discriminate].
  intros _. split; [reflexivity|]. split; [vm_compute; reflexivity|].
  left. split; reflexivity.
Qed.

Lemma Inv_runAction (a : Action) (g : ConnectFourGame) : Inv g -> Inv (runAction a g).
Proof.
  intros H. destruct a; cbn [runAction]; auto;
    apply Inv_initUI; first [now apply Inv_to_menu | apply Inv_new_game].
Qed.

Lemma Inv_buttonLoop (hit : nat -> bool) (btns : list Action) (g g' : ConnectFourGame) :
  Inv g -> forall i, buttonLoop hit i btns g = Some g' -> Inv g'.
Proof.
  intros H. induction btns as [|a btns IH]; intros i E; [discriminate|].
  cbn [buttonLoop] in E. destruct (hit i).
  - inversion E; subst. now apply Inv_runAction.
  - now apply (IH (S i)).
Qed.

Lemma Inv_keyboard (g : ConnectFourGame) (f : Frame) : Inv g -> Inv (keyboard g f).
Proof.
  intros H. unfold keyboard.
  destruct (activeInput g); auto. destruct (enter f); auto.
  destruct (state g =? StateLogin); auto.
  now apply Inv_initUI, Inv_to_menu.
Qed.

Lemma Inv_focusClick (g : ConnectFourGame) (f : Frame) : Inv g -> Inv (focusClick g f).
Proof.
  intros H. unfold focusClick. destruct (inputHit f); [|exact H].
  destruct g; exact H.
Qed.

End GuiFrame.

Section GuiMoves.

Import String.
Import Gui.

(** ** A move on a board in play *)

Lemma pieces_setCell_same (b : GameBoard) (row col : nat) (v : Z) :
  wf_board b -> (row < Rows)%nat -> (col < Columns)%nat ->
  cell b row col = Empty -> v <> Empty ->
  pieces v (setCell b row col v) = S (pieces v b).
Proof.
  intros Hwf Hrow Hcol He Hv. unfold pieces.
  pose proof (countCells_setCell (fun c => c =? v) b row col v Hwf Hrow Hcol) as H.
  cbv beta in H. rewrite He, Z.eqb_refl in H.
  destruct (Z.eqb_spec Empty v) as [E|_]; [congruence|]. simpl in H. lia.
Qed.

Lemma pieces_setCell_other (b : GameBoard) (row col : nat) (v w : Z) :
  wf_board b -> (row < Rows)%nat -> (col < Columns)%nat ->
  cell b row col = Empty -> w <> Empty -> w <> v ->
  pieces w (setCell b row col v) = pieces w b.
Proof.
  intros Hwf Hrow Hcol He Hw Hwv. unfold pieces.
  pose proof (countCells_setCell (fun c => c =? w) b row col v Hwf Hrow Hcol) as H.
  cbv beta in H. rewrite He in H.
  destruct (Z.eqb_spec Empty w) as [E|_]; [congruence|].
  destruct (Z.eqb_spec v w) as [E|_]; [congruence|]. simpl in H. lia.
Qed.

Lemma cellsOk_setCell (b : GameBoard) (row col : nat) (v : Z) :
  wf_board b -> (row < Rows)%nat -> (col < Columns)%nat ->
  v = Player \/ v = Computer -> cellsOk b -> cellsOk (setCell b row col v).
Proof.
  intros Hwf Hrow Hcol Hv Hok r c.
  destruct (Nat.eq_dec r row) as [->|Hr];
    [destruct (Nat.eq_dec c col) as [->|Hc]|].
  - rewrite cell_setCell_eq by auto. tauto.
  - rewrite cell_setCell_neq by congruence. apply Hok.
  - rewrite cell_setCell_neq by congruence. apply Hok.
Qed.

(** The board after a move of [mover] in a valid column of a board in
    play: it keeps its shape, and the other side has not won. *)
Lemma move_on_board (b : GameBoard) (col mover other : Z) :
  wf_board b -> gravity b -> cellsOk b -> isTerminalNode b = false ->
  validCol b col ->
  (mover = Player /\ other = Computer) \/ (mover = Computer /\ other = Player) ->
  exists nb,
    dropPiece b col mover = Ok nb /\
    wf_board nb /\ gravity nb /\ cellsOk nb /\
    checkWin nb other = false /\
    pieces mover nb = S (pieces mover b) /\ pieces other nb = pieces other b.
Proof.
  intros Hwf Hg Hok Hterm [Hcol Htop] Hsides.
  assert (Hm : mover <> Empty) by (destruct Hsides as [[-> _]|[-> _]]; discriminate).
  assert (Ho : other <> Empty) by (destruct Hsides as [[_ ->]|[_ ->]]; discriminate).
  assert (Hom : other <> mover)
    by (destruct Hsides as [[-> ->]|[-> ->]]; discriminate).
  destruct (dropPiece_valid b col mover Hwf Hcol Htop) as (row & Hd & Hlow).
  pose proof Hlow as (Hrow & He & _).
  assert (Hc : (Z.to_nat col < Columns)%nat) by lia.
  exists (setCell b row (Z.to_nat col) mover).
  split; [exact Hd|]. split; [now apply wf_board_setCell|].
  split; [now apply gravity_setCell|].
  split; [apply cellsOk_setCell; auto; destruct Hsides as [[-> _]|[-> _]]; auto|].
  split.
  - destruct (checkWin (setCell b row (Z.to_nat col) mover) other) eqn:E; [|reflexivity].
    apply checkWin_setCell_other in E; auto.
    unfold isTerminalNode in Hterm. apply orb_false_iff in Hterm.
    destruct Hterm as [Hterm _]. apply orb_false_iff in Hterm.
    destruct Hsides as [[_ ->]|[_ ->]]; destruct Hterm; congruence.
  - split; [now apply pieces_setCell_same | now apply pieces_setCell_other].
Qed.

Lemma isTerminalNode_false (b : GameBoard) :
  checkWin b Player = false -> checkWin b Computer = false -> isBoardFull b = false ->
  isTerminalNode b = false.
Proof. unfold isTerminalNode. now intros -> -> ->. Qed.

(** The engine's answer on a board in play is a valid column. *)
Lemma getComputerMove_in_play (b : GameBoard) (depth : Z) (r : Rand) :
  wf_board b -> isTerminalNode b = false -> depth <> 0 ->
  exists col, getComputerMove b depth r = Ok col /\ validCol b col.
Proof.
  intros Hwf Hterm Hd. unfold getComputerMove, minimax.
  destruct (minimax_fuel_total searchFuel b depth NegInf PosInf true r Hwf
              (searchFuel_enough b Hwf)) as (col & s & r' & Hmm & _).
  rewrite Hmm. exists col. split; [reflexivity|].
  apply In_getValidColumns.
  exact (minimax_fuel_column _ _ _ _ _ _ _ _ _ _ Hterm Hd Hmm).
Qed.

(** ** The two moves of [Update] keep the invariant *)

Lemma Inv_playerMove (g : ConnectFourGame) :
  Inv g -> exists g', playerMove g = Ok g' /\ Inv g'.
Proof.
  intros H. unfold playerMove.
  destruct ((state g =? StateGame) && gameInProgress g && (turn g =? Player)
            && isHovering g && (0 <=? hoverColumn g)
            && (hoverColumn g <? Z.of_nat Columns)) eqn:Hguard; [|now exists g].
  repeat (apply andb_true_iff in Hguard; destruct Hguard as [Hguard ?]).
  destruct (Z.eqb_spec (cell (board g) 0 (Z.to_nat (hoverColumn g))) Empty)
    as [Htop|_]; [|now exists g].
  apply Z.eqb_eq in Hguard.
  match goal with H : (turn g =? Player) = true |- _ => apply Z.eqb_eq in H; rename H into Hturn end.
  match goal with H : (0 <=? _) = true |- _ => apply Z.leb_le in H; rename H into Hlo end.
  match goal with H : (_ <? _) = true |- _ => apply Z.ltb_lt in H; rename H into Hhi end.
  destruct H as (Hwf & Hg & Hok & Hplay & _).
  destruct (Hplay Hguard) as (Hip & Hterm & Hcount).
  destruct Hcount as [[_ Hcount]|[Hc _]]; [|rewrite Hturn in Hc; discriminate].
  destruct (move_on_board (board g) (hoverColumn g) Player Computer Hwf Hg Hok Hterm
              (conj (conj Hlo Hhi) Htop) (or_introl (conj eq_refl eq_refl)))
    as (nb & Hd & Hwf' & Hg' & Hok' & Hother & Hmine & Hyours).
  rewrite Hd. cbn [rbind]. cbn [board withBoard].
  destruct (checkWin nb Player) eqn:Hwin.
  - eexists. split; [reflexivity|]. apply Inv_initUI. unfold Inv. cbn.
    split; [exact Hwf'|]. split; [exact Hg'|]. split; [exact Hok'|].
    split; [intros E; discriminate E|]. intros _. split; [reflexivity|].
    left. auto.
  - destruct (isBoardFull nb) eqn:Hfull.
    + eexists. split; [reflexivity|]. apply Inv_initUI. unfold Inv. cbn.
      split; [exact Hwf'|]. split; [exact Hg'|]. split; [exact Hok'|].
      split; [intros E; discriminate E|]. intros _. split; [reflexivity|].
      right; right. auto.
    + eexists. split; [reflexivity|]. unfold Inv. cbn.
      split; [exact Hwf'|]. split; [exact Hg'|]. split; [exact Hok'|].
      split; [|intros E; rewrite Hguard in E; discriminate E].
      intros _. split; [exact Hip|]. split; [now apply isTerminalNode_false|].
      right. split; [reflexivity|]. rewrite Hmine, Hyours, Hcount. reflexivity.
Qed.

Lemma Inv_computerLogic (g : ConnectFourGame) (f : Frame) :
  Inv g -> exists g', computerLogic g f = Ok g' /\ Inv g'.
Proof.
  intros H. unfold computerLogic.
  destruct ((state g =? StateGame) && gameInProgress g && (turn g =? Computer))
    eqn:Hguard; [|now exists g].
  repeat (apply andb_true_iff in Hguard; destruct Hguard as [Hguard ?]).
  apply Z.eqb_eq in Hguard.
  match goal with H : (turn g =? Computer) = true |- _ => apply Z.eqb_eq in H; rename H into Hturn end.
  destruct (negb (computerThinking g)).
  { eexists. split; [reflexivity|]. revert H. now apply Inv_same. }
  cbn [thinkingTimer withThinkingTimer board].
  destruct (thinkingTimer g - 1 <=? 0).
  2:{ eexists. split; [reflexivity|]. revert H. now apply Inv_same. }
  destruct H as (Hwf & Hg & Hok & Hplay & _).
  destruct (Hplay Hguard) as (Hip & Hterm & Hcount).
  destruct Hcount as [[Hc _]|[_ Hcount]]; [rewrite Hturn in Hc; discriminate|].
  destruct (getComputerMove_in_play (board g) 5 (rng f) Hwf Hterm ltac:(discriminate))
    as (col & Hmove & Hvalid).
  rewrite Hmove. cbn [rbind].
  destruct (move_on_board (board g) col Computer Player Hwf Hg Hok Hterm Hvalid
              (or_intror (conj eq_refl eq_refl)))
    as (nb & Hd & Hwf' & Hg' & Hok' & Hother & Hmine & Hyours).
  rewrite Hd. cbn [rbind]. cbn [board withBoard withComputerThinking].
  destruct (checkWin nb Computer) eqn:Hwin.
  - eexists. split; [reflexivity|]. apply Inv_initUI. unfold Inv. cbn.
    split; [exact Hwf'|]. split; [exact Hg'|]. split; [exact Hok'|].
    split; [intros E; discriminate E|]. intros _. split; [reflexivity|].
    right; left. auto.
  - destruct (isBoardFull nb) eqn:Hfull.
    + eexists. split; [reflexivity|]. apply Inv_initUI. unfold Inv. cbn.
      split; [exact Hwf'|]. split; [exact Hg'|]. split; [exact Hok'|].
      split; [intros E; discriminate E|]. intros _. split; [reflexivity|].
      right; right. auto.
    + eexists. split; [reflexivity|]. unfold Inv. cbn.
      split; [exact Hwf'|]. split; [exact Hg'|]. split; [exact Hok'|].
      split; [|intros E; rewrite Hguard in E; discriminate E].
      intros _. split; [exact Hip|]. split; [now apply isTerminalNode_false|].
      left. split; [reflexivity|]. rewrite Hmine, Hyours, Hcount. reflexivity.
Qed.

Lemma Inv_Update (g : ConnectFourGame) (f : Frame) :
  Inv g -> exists g', Update g f = Ok g' /\ Inv g'.
Proof.
  intros H. unfold Update.
  set (g1 := if resized f then initUI g else g).
  assert (H1 : Inv g1) by (unfold g1; destruct (resized f); [now apply Inv_initUI | exact H]).
  pose proof (Inv_hover g1 f H1) as H2.
  destruct (clicked f).
  - destruct (Inv_playerMove _ H2) as (g3 & Hpm & H3). rewrite Hpm. cbn [rbind].
    destruct (buttonLoop (buttonHit f) 0 (buttons g3) g3) as [g4|] eqn:Hb.
    + exists g4. split; [reflexivity|]. exact (Inv_buttonLoop _ _ _ _ H3 _ Hb).
    + apply Inv_computerLogic, Inv_keyboard, Inv_focusClick, H3.
  - apply Inv_computerLogic, Inv_keyboard, H2.
Qed.

Lemma Inv_new : Inv NewConnectFourGame.
Proof.
  unfold NewConnectFourGame. apply Inv_initUI. unfold Inv. cbn.
  split; [exact wf_zeroBoard|]. split; [exact gravity_zeroBoard|].
  split; [exact cellsOk_zeroBoard|]. split; intros E; discriminate E.
Qed.

Lemma reachable_Inv (g : ConnectFourGame) : reachable g -> Inv g.
Proof.
  induction 1 as [|g g' f _ IH Hu]; [exact Inv_new|].
  destruct (Inv_Update g f IH) as (g'' & Hu' & H'').
  rewrite Hu in Hu'. inversion Hu'; subst. exact H''.
Qed.

End GuiMoves.

Section GuiProperties.

Import String.
Import Gui.

(** ** The hover column *)

Lemma hoverOk_same (g g' : ConnectFourGame) :
  isHovering g' = isHovering g -> hoverColumn g' = hoverColumn g ->
  hoverOk g -> hoverOk g'.
Proof. unfold hoverOk. intros -> ->. auto. Qed.

Lemma initUI_hover (g : ConnectFourGame) :
  isHovering (initUI g) = isHovering g /\ hoverColumn (initUI g) = hoverColumn g.
Proof.
  destruct g as [st b t ip res hc ih ct tt btns ai]. unfold initUI. cbn.
  destruct (st =? StateLogin); [cbn; auto|].
  destruct (st =? StateGameMode); [cbn; auto|].
  destruct (st =? StateGame); [cbn; auto|].
  destruct (st =? StateGameOver); cbn; auto.
Qed.

Lemma hoverOk_initUI (g : ConnectFourGame) : hoverOk g -> hoverOk (initUI g).
Proof. destruct (initUI_hover g) as [H1 H2]. now apply hoverOk_same. Qed.

Lemma hoverOk_hoverLoop (hit : nat -> bool) (cols : list nat) (g : ConnectFourGame) :
  Forall (fun c => (c < Columns)%nat) cols -> hoverOk g -> hoverOk (hoverLoop hit cols g).
Proof.
  induction 1 as [|c cols Hc Hall IH]; intros H; cbn [hoverLoop]; [exact H|].
  destruct (hit c); [|now apply IH].
  right. unfold Columns in *. cbn. split; [reflexivity | lia].
Qed.

Lemma hoverOk_hover (g : ConnectFourGame) (f : Frame) : hoverOk g -> hoverOk (hover g f).
Proof.
  intros H. unfold hover.
  destruct ((state g =? StateGame) && gameInProgress g && (turn g =? Player)); [|exact H].
  destruct (overBoard f).
  - apply hoverOk_hoverLoop; [|left; split; reflexivity].
    apply Forall_forall. intros c Hc. apply in_seq in Hc. lia.
  - left. split; reflexivity.
Qed.

Lemma hoverOk_runAction (a : Action) (g : ConnectFourGame) :
  hoverOk g -> hoverOk (runAction a g).
Proof.
  intros H. destruct a; cbn [runAction]; auto; apply hoverOk_initUI;
    first [ revert H; now apply hoverOk_same
          | left; destruct g; split; reflexivity ].
Qed.

Lemma hoverOk_buttonLoop (hit : nat -> bool) (btns : list Action) (g g' : ConnectFourGame) :
  hoverOk g -> forall i, buttonLoop hit i btns g = Some g' -> hoverOk g'.
Proof.
  intros H. induction btns as [|a btns IH]; intros i E; [discriminate|].
  cbn [buttonLoop] in E. destruct (hit i).
  - inversion E; subst. now apply hoverOk_runAction.
  - now apply (IH (S i)).
Qed.

Lemma hoverOk_keyboard (g : ConnectFourGame) (f : Frame) :
  hoverOk g -> hoverOk (keyboard g f).
Proof.
  intros H. unfold keyboard.
  destruct (activeInput g); auto. destruct (enter f); auto.
  destruct (state g =? StateLogin); auto.
Qed.

Lemma hoverOk_focusClick (g : ConnectFourGame) (f : Frame) :
  hoverOk g -> hoverOk (focusClick g f).
Proof.
  intros H. unfold focusClick. destruct (inputHit f); [|exact H].
  destruct g; exact H.
Qed.

Lemma hoverOk_playerMove (g g' : ConnectFourGame) :
  playerMove g = Ok g' -> hoverOk g -> hoverOk g'.
Proof.
  unfold playerMove. intros E H.
  destruct (_ && _) in E; [|inversion E; now subst].
  destruct (_ =? Empty) in E; [|inversion E; now subst].
  destruct (dropPiece _ _ _) as [nb| |]; try discriminate. cbn [rbind] in E.
  destruct (checkWin _ _) in E;
    [|destruct (isBoardFull _) in E]; inversion E; subst;
    try apply hoverOk_initUI; revert H; now apply hoverOk_same.
Qed.

Lemma hoverOk_computerLogic (g g' : ConnectFourGame) (f : Frame) :
  computerLogic g f = Ok g' -> hoverOk g -> hoverOk g'.
Proof.
  unfold computerLogic. intros E H.
  destruct (_ && _) in E; [|inversion E; now subst].
  destruct (negb _) in E;
    [inversion E; subst; revert H; now apply hoverOk_same|].
  destruct (_ <=? 0) in E;
    [|inversion E; subst; revert H; now apply hoverOk_same].
  destruct (getComputerMove _ _ _) as [col| |]; try discriminate. cbn [rbind] in E.
  destruct (dropPiece _ _ _) as [nb| |]; try discriminate. cbn [rbind] in E.
  destruct (checkWin _ _) in E;
    [|destruct (isBoardFull _) in E]; inversion E; subst;
    try apply hoverOk_initUI; revert H; now apply hoverOk_same.
Qed.

Lemma hoverOk_Update (g g' : ConnectFourGame) (f : Frame) :
  Update g f = Ok g' -> hoverOk g -> hoverOk g'.
Proof.
  unfold Update. intros E H.
  set (g1 := if resized f then initUI g else g) in *.
  assert (H1 : hoverOk g1)
    by (unfold g1; destruct (resized f); [now apply hoverOk_initUI | exact H]).
  pose proof (hoverOk_hover g1 f H1) as H2.
  destruct (clicked f).
  - destruct (playerMove (hover g1 f)) as [g3| |] eqn:Hpm; try discriminate.
    cbn [rbind] in E. pose proof (hoverOk_playerMove _ _ Hpm H2) as H3.
    destruct (buttonLoop (buttonHit f) 0 (buttons g3) g3) as [g4|] eqn:Hb.
    + inversion E; subst. exact (hoverOk_buttonLoop _ _ _ _ H3 _ Hb).
    + exact (hoverOk_computerLogic _ _ _ E
               (hoverOk_keyboard _ f (hoverOk_focusClick _ f H3))).
  - exact (hoverOk_computerLogic _ _ _ E (hoverOk_keyboard _ f H2)).
Qed.

Lemma reachable_hoverOk (g : ConnectFourGame) : reachable g -> hoverOk g.
Proof.
  induction 1 as [|g g' f _ IH Hu].
  - left. split; reflexivity.
  - exact (hoverOk_Update g g' f Hu IH).
Qed.

Lemma reachable_run (fs : list Frame) :
  forall g g', reachable g -> run g fs = Ok g' -> reachable g'.
Proof.
  induction fs as [|f fs IH]; intros g g' Hr E; cbn [run] in E.
  - inversion E; now subst.
  - destruct (Update g f) as [g1| |] eqn:Hu; try discriminate. cbn [rbind] in E.
    apply (IH g1 g'); [|exact E]. exact (reach_update g g1 f Hr Hu).
Qed.

Lemma reachable_startedGame : reachable startedGame.
Proof.
  apply (reachable_run startFrames NewConnectFourGame); [exact reach_new|].
  vm_compute. reflexivity.
Qed.

Lemma reachable_playedGame : reachable playedGame.
Proof.
  apply (reachable_run playedFrames NewConnectFourGame); [exact reach_new|].
  vm_compute. reflexivity.
Qed.

(** X15. In every game that a run of the screen can reach, the game
    logic of [Update] does not panic, whatever the frame brings: the
    Player's piece is dropped in a column of the board, the engine is
    asked on a board in play only, and its answer is a column where the
    Computer's piece lands. *)
Theorem Update_never_panics :
  forall (g : ConnectFourGame) (f : Frame),
    reachable g -> exists g' : ConnectFourGame, Update g f = Ok g' /\ reachable g'.
Proof.
  intros g f Hr.
  destruct (Inv_Update g f (reachable_Inv g Hr)) as (g' & Hu & _).
  exists g'. split; [exact Hu|]. exact (reach_update g g' f Hr Hu).
Qed.

Lemma Update_never_panics_witness :
  exists g' : ConnectFourGame, Update startedGame (clickColumn 3) = Ok g' /\ reachable g'.
Proof.
  apply (Update_never_panics startedGame (clickColumn 3)). exact reachable_startedGame.
Defined.

(** X16. While the game screen is shown ([state == StateGame]) the game
    is in progress on a 6x7 board of Empty, Player and Computer cells
    that obeys gravity, on which nobody has four in a row and a column is
    open. *)
Theorem game_screen_board_in_play :
  forall g : ConnectFourGame,
    reachable g -> state g = StateGame ->
    gameInProgress g = true /\
    wf_board (board g) /\ gravity (board g) /\ cellsOk (board g) /\
    checkWin (board g) Player = false /\ checkWin (board g) Computer = false /\
    isBoardFull (board g) = false.
Proof.
  intros g Hr Hs.
  destruct (reachable_Inv g Hr) as (Hwf & Hg & Hok & Hplay & _).
  destruct (Hplay Hs) as (Hip & Hterm & _).
  unfold isTerminalNode in Hterm. apply orb_false_iff in Hterm.
  destruct Hterm as [Hterm Hfull]. apply orb_false_iff in Hterm.
  destruct Hterm as [HP HC]. auto 10.
Qed.

Lemma game_screen_board_in_play_witness :
  gameInProgress startedGame = true /\
  wf_board (board startedGame) /\ gravity (board startedGame) /\
  cellsOk (board startedGame) /\
  checkWin (board startedGame) Player = false /\
  checkWin (board startedGame) Computer = false /\
  isBoardFull (board startedGame) = false.
Proof.
  apply (game_screen_board_in_play startedGame).
  - exact reachable_startedGame.
  - reflexivity.
Defined.

(** X17. The sides alternate, the Player first: while the game screen
    is shown, either it is the Player's turn and both sides have as many
    pieces on the board, or it is the Computer's turn and the Player has
    one piece more. *)
Theorem game_screen_turns_alternate :
  forall g : ConnectFourGame,
    reachable g -> state g = StateGame ->
    (turn g = Player /\ pieces Player (board g) = pieces Computer (board g)) \/
    (turn g = Computer /\ pieces Player (board g) = S (pieces Computer (board g))).
Proof.
  intros g Hr Hs.
  destruct (reachable_Inv g Hr) as (_ & _ & _ & Hplay & _).
  destruct (Hplay Hs) as (_ & _ & Hcount). exact Hcount.
Qed.

Lemma game_screen_turns_alternate_witness :
  (turn startedGame = Player /\
   pieces Player (board startedGame) = pieces Computer (board startedGame)) \/
  (turn startedGame = Computer /\
   pieces Player (board startedGame) = S (pieces Computer (board startedGame))).
Proof.
  apply (game_screen_turns_alternate startedGame).
  - exact reachable_startedGame.
  - reflexivity.
Defined.

(** X18. The message of the game-over screen tells what the board
    shows: "You Won!" with four in a row for the Player and none for the
    Computer, "Computer Won!" the other way round, "It's a Tie!" on a
    full board with no four in a row; the game is then no longer in
    progress. *)
Theorem game_over_message :
  forall g : ConnectFourGame,
    reachable g -> state g = StateGameOver ->
    gameInProgress g = false /\
    ((gameResult g = "You Won!"%string /\
      checkWin (board g) Player = true /\ checkWin (board g) Computer = false) \/
     (gameResult g = "Computer Won!"%string /\
      checkWin (board g) Computer = true /\ checkWin (board g) Player = false) \/
     (gameResult g = "It's a Tie!"%string /\ isBoardFull (board g) = true /\
      checkWin (board g) Player = false /\ checkWin (board g) Computer = false)).
Proof.
  intros g Hr Hs.
  destruct (reachable_Inv g Hr) as (_ & _ & _ & _ & Hover).
  exact (Hover Hs).
Qed.

Lemma game_over_message_witness :
  gameInProgress playedGame = false /\
  ((gameResult playedGame = "You Won!"%string /\
    checkWin (board playedGame) Player = true /\
    checkWin (board playedGame) Computer = false) \/
   (gameResult playedGame = "Computer Won!"%string /\
    checkWin (board playedGame) Computer = true /\
    checkWin (board playedGame) Player = false) \/
   (gameResult playedGame = "It's a Tie!"%string /\
    isBoardFull (board playedGame) = true /\
    checkWin (board playedGame) Player = false /\
    checkWin (board playedGame) Computer = false)).
Proof.
  apply (game_over_message playedGame).
  - exact reachable_playedGame.
  - reflexivity.
Defined.

(** X19. The hover column is always either -1 with [isHovering] false,
    or a column of the board with [isHovering] true: the test
    [g.board[0][g.hoverColumn]] that [Draw] makes under
    [isHovering && hoverColumn >= 0] stays inside the array. *)
Theorem hover_column_in_range :
  forall g : ConnectFourGame,
    reachable g ->
    (isHovering g = false /\ hoverColumn g = -1) \/
    (isHovering g = true /\ 0 <= hoverColumn g < Z.of_nat Columns).
Proof.
  intros g Hr. exact (reachable_hoverOk g Hr).
Qed.

Lemma hover_column_in_range_witness :
  (isHovering playedGame = false /\ hoverColumn playedGame = -1) \/
  (isHovering playedGame = true /\ 0 <= hoverColumn playedGame < Z.of_nat Columns).
Proof.
  apply (hover_column_in_range playedGame). exact reachable_playedGame.
Defined.

End GuiProperties.

(** * The console game *)

Section CliProperties.

Import Cli.

(** ** The list of columns that are not full *)

Lemma removeColumn_absent (column : Z) (cols : list Z) :
  ~ In column cols -> removeColumn column cols = cols.
Proof.
  induction cols as [|c cols IH]; intros H; [reflexivity|]. cbn [removeColumn].
  destruct (Z.eqb_spec c column) as [->|_]; [exfalso; apply H; simpl; auto|].
  rewrite IH; [reflexivity|]. intros Hin. apply H. simpl; auto.
Qed.

Lemma In_removeColumn (column : Z) (cols : list Z) (c : Z) :
  StronglySorted Z.lt cols ->
  (In c (removeColumn column cols) <-> In c cols /\ c <> column).
Proof.
  induction 1 as [|x cols Hs IH Hall]; [simpl; tauto|]. cbn [removeColumn].
  rewrite Forall_forall in Hall.
  destruct (Z.eqb_spec x column) as [->|Hne].
  - simpl. split.
    + intros Hin. split; [auto|]. apply Hall in Hin. lia.
    + intros [[E|Hin] Hc]; [congruence | exact Hin].
  - simpl. rewrite IH. split.
    + intros [<-|[Hin Hc]]; auto.
    + intros [[E|Hin] Hc]; auto.
Qed.

Lemma sorted_removeColumn (column : Z) (cols : list Z) :
  StronglySorted Z.lt cols -> StronglySorted Z.lt (removeColumn column cols).
Proof.
  induction 1 as [|x cols Hs IH Hall]; [constructor|]. cbn [removeColumn].
  destruct (Z.eqb_spec x column) as [->|Hne]; [exact Hs|].
  constructor; [exact IH|]. rewrite Forall_forall in *.
  intros y Hy. apply In_removeColumn in Hy; [|exact Hs]. apply Hall, Hy.
Qed.

(** The grid after a piece has come to rest in [row] of [column]. *)
Lemma inSync_after (g : Grid) (row : nat) (column player : Z) :
  inSync g -> (row < rows)%nat -> 0 <= column < Z.of_nat columns -> player <> empty ->
  inSync (mkGrid (setCell (board g) row (Z.to_nat column) player) (winner g)
                 (if Nat.eqb row 0 then removeColumn column (nonFullCols g)
                  else nonFullCols g)).
Proof.
  intros (Hwf & Hs & Hin) Hrow Hcol Hp. unfold inSync. cbn [board nonFullCols].
  split; [now apply wf_board_setCell|].
  destruct row as [|row]; cbn [Nat.eqb].
  - split; [now apply sorted_removeColumn|].
    intros c. rewrite In_removeColumn by exact Hs. rewrite Hin.
    assert (Hr : 0 <= c < Z.of_nat columns \/ ~ 0 <= c < Z.of_nat columns) by lia.
    destruct Hr as [Hr|Hr]; [|tauto].
    destruct (Z.eq_dec c column) as [->|Hc].
    + rewrite cell_setCell_eq by (auto; unfold columns, Columns in *; lia). tauto.
    + rewrite cell_setCell_neq by (intros E; inversion E; lia). tauto.
  - split; [exact Hs|]. intros c. rewrite Hin.
    rewrite cell_setCell_neq by discriminate. tauto.
Qed.

(** X20. [drop] keeps the list of open columns in step with the board.
    On a grid whose [nonFullCols] lists, in ascending order, the columns
    with an empty top cell, a drop into a listed column puts the piece in
    the lowest empty row, takes the column off the list exactly when that
    row is the top one, and leaves such a grid. *)
Theorem drop_keeps_nonFullCols_in_sync :
  forall (g : Grid) (column player : Z),
    inSync g -> In column (nonFullCols g) -> player <> empty ->
    exists (g' : Grid) (row : nat),
      drop g column player = Ok g' /\
      inSync g' /\
      (row < rows)%nat /\
      cell (board g) row (Z.to_nat column) = empty /\
      (forall r : nat, (row < r < rows)%nat -> cell (board g) r (Z.to_nat column) <> empty) /\
      board g' = setCell (board g) row (Z.to_nat column) player /\
      winner g' = winner g /\
      nonFullCols g' = (if Nat.eqb row 0 then removeColumn column (nonFullCols g)
                        else nonFullCols g).
Proof.
  intros g column player Hsync Hin Hp.
  pose proof Hsync as (Hwf & Hs & Hiff). apply Hiff in Hin. destruct Hin as [Hcol Htop].
  unfold drop.
  replace ((0 <=? column) && (column <? Z.of_nat columns)) with true
    by (symmetry; apply andb_true_iff; split; [apply Z.leb_le | apply Z.ltb_lt]; lia).
  change (rev (seq 0 rows)) with [5; 4; 3; 2; 1; 0]%nat.
  assert (Hlow : forall (row : nat),
             (row < rows)%nat ->
             cell (board g) row (Z.to_nat column) = empty ->
             (forall r, (row < r < rows)%nat -> cell (board g) r (Z.to_nat column) <> empty) ->
             forall g',
               g' = mkGrid (setCell (board g) row (Z.to_nat column) player) (winner g)
                      (if Nat.eqb row 0 then removeColumn column (nonFullCols g)
                       else nonFullCols g) ->
               exists (g'' : Grid) (row' : nat),
                 Ok g' = Ok g'' /\ inSync g'' /\ (row' < rows)%nat /\
                 cell (board g) row' (Z.to_nat column) = empty /\
                 (forall r, (row' < r < rows)%nat ->
                            cell (board g) r (Z.to_nat column) <> empty) /\
                 board g'' = setCell (board g) row' (Z.to_nat column) player /\
                 winner g'' = winner g /\
                 nonFullCols g'' = (if Nat.eqb row' 0
                                    then removeColumn column (nonFullCols g)
                                    else nonFullCols g)).
  { intros row Hrow He Hbelow g' ->. eexists _, row.
    split; [reflexivity|]. split; [now apply inSync_after|]. auto 10. }
  assert (Hrows : forall (k : nat) (r : nat),
             (k < r < rows)%nat ->
             (forall i, (k < i < rows)%nat -> cell (board g) i (Z.to_nat column) <> empty) ->
             cell (board g) r (Z.to_nat column) <> empty) by auto.
  unfold rows in *.
  cbn [drop_loop].
  destruct (Z.eqb_spec (cell (board g) 5 (Z.to_nat column)) empty) as [E5|E5].
  { apply (Hlow 5%nat ltac:(lia) E5); [|reflexivity]. intros r Hr. lia. }
  cbn [Nat.eqb].
  destruct (Z.eqb_spec (cell (board g) 4 (Z.to_nat column)) empty) as [E4|E4].
  { apply (Hlow 4%nat ltac:(lia) E4); [|reflexivity]. intros r Hr. assert (r = 5%nat) by lia. now subst. }
  destruct (Z.eqb_spec (cell (board g) 3 (Z.to_nat column)) empty) as [E3|E3].
  { apply (Hlow 3%nat ltac:(lia) E3); [|reflexivity]. intros r Hr.
    assert (Hc : r = 4%nat \/ r = 5%nat) by lia. destruct Hc; now subst. }
  destruct (Z.eqb_spec (cell (board g) 2 (Z.to_nat column)) empty) as [E2|E2].
  { apply (Hlow 2%nat ltac:(lia) E2); [|reflexivity]. intros r Hr.
    assert (Hc : r = 3%nat \/ r = 4%nat \/ r = 5%nat) by lia.
    destruct Hc as [|[|]]; now subst. }
  destruct (Z.eqb_spec (cell (board g) 1 (Z.to_nat column)) empty) as [E1|E1].
  { apply (Hlow 1%nat ltac:(lia) E1); [|reflexivity]. intros r Hr.
    assert (Hc : r = 2%nat \/ r = 3%nat \/ r = 4%nat \/ r = 5%nat) by lia.
    destruct Hc as [|[|[|]]]; now subst. }
  cbn [board withNonFullCols].
  destruct (Z.eqb_spec (cell (board g) 0 (Z.to_nat column)) empty) as [E0|E0];
    [|contradiction].
  apply (Hlow 0%nat ltac:(lia) E0); [|reflexivity]. intros r Hr.
  assert (Hc : r = 1%nat \/ r = 2%nat \/ r = 3%nat \/ r = 4%nat \/ r = 5%nat) by lia.
  destruct Hc as [|[|[|[|]]]]; now subst.
Qed.

Lemma inSync_initGrid : inSync initGrid.
Proof.
  split; [split; [reflexivity | repeat constructor]|].
  split; [repeat constructor; lia|].
  intros c. split.
  - intros H. vm_compute in H.
    destruct H as [<-|[<-|[<-|[<-|[<-|[<-|[<-|[]]]]]]]]; vm_compute; intuition congruence.
  - intros [Hc _]. unfold columns in Hc.
    assert (H : c = 0 \/ c = 1 \/ c = 2 \/ c = 3 \/ c = 4 \/ c = 5 \/ c = 6) by lia.
    destruct H as [->|[->|[->|[->|[->|[->| ->]]]]]]; vm_compute; tauto.
Qed.

Lemma drop_keeps_nonFullCols_in_sync_witness :
  exists (g' : Grid) (row : nat),
    drop initGrid 3 local = Ok g' /\
    inSync g' /\
    (row < rows)%nat /\
    cell (board initGrid) row (Z.to_nat 3) = empty /\
    (forall r : nat, (row < r < rows)%nat ->
                     cell (board initGrid) r (Z.to_nat 3) <> empty) /\
    board g' = setCell (board initGrid) row (Z.to_nat 3) local /\
    winner g' = winner initGrid /\
    nonFullCols g' = (if Nat.eqb row 0 then removeColumn 3 (nonFullCols initGrid)
                      else nonFullCols initGrid).
Proof.
  apply (drop_keeps_nonFullCols_in_sync initGrid 3 local).
  - exact inSync_initGrid.
  - vm_compute. tauto.
  - discriminate.
Defined.

End CliProperties.

Section CliMoves.

Import Cli.

(** ** The computer's move *)

(** X21. With a single column left in [nonFullCols] (or none)
    [computerMove] panics: it calls [rand.Intn] with
    [len(g.nonFullCols)-1], which is then not positive. *)
Theorem computerMove_panics_on_last_column :
  forall (fuel : nat) (g : Grid) (rng : Rand),
    (length (nonFullCols g) <= 1)%nat ->
    computerMove (S fuel) g rng = Panic.
Proof.
  intros fuel g rng Hlen. cbn [computerMove]. unfold bind, Intn.
  destruct (Z.leb_spec (Z.of_nat (length (nonFullCols g)) - 1) 0) as [_|H];
    [reflexivity | lia].
Qed.

Lemma computerMove_panics_on_last_column_witness :
  computerMove 1 lastColumnGrid zeroRand = Panic.
Proof.
  apply (computerMove_panics_on_last_column 0 lastColumnGrid zeroRand).
  vm_compute. lia.
Defined.

Lemma sorted_nth_lt_last (l : list Z) :
  StronglySorted Z.lt l ->
  forall i : nat, (S i < length l)%nat -> nth i l 0 < last l 0.
Proof.
  induction 1 as [|x l Hs IH Hall]; intros i Hi; [simpl in Hi; lia|].
  destruct l as [|y l]; [simpl in Hi; lia|].
  destruct i as [|i].
  - cbn [nth]. rewrite Forall_forall in Hall. apply Hall.
    change (last (x :: y :: l) 0) with (last (y :: l) 0).
    clear. revert y. induction l as [|z l IHl]; intros y; [simpl; auto|].
    change (last (y :: z :: l) 0) with (last (z :: l) 0). right. apply IHl.
  - change (nth (S i) (x :: y :: l) 0) with (nth i (y :: l) 0).
    change (last (x :: y :: l) 0) with (last (y :: l) 0).
    apply IH. simpl in *. lia.
Qed.

(** X22. With two or more open columns, on a grid whose [nonFullCols]
    is in step with the board, [computerMove] returns after one pass of
    its loop with a piece of the opponent dropped in an open column; the
    column is drawn among all but the last of the list, so the rightmost
    open column is never played. *)
Theorem computerMove_never_rightmost :
  forall (fuel : nat) (g : Grid) (rng : Rand),
    inSync g -> (2 <= length (nonFullCols g))%nat ->
    exists (column : Z) (g' : Grid),
      computerMove (S fuel) g rng = Ok (g', fun k => rng (S k)) /\
      drop g column opponent = Ok g' /\
      In column (nonFullCols g) /\
      column < last (nonFullCols g) 0.
Proof.
  intros fuel g rng Hsync Hlen.
  pose proof Hsync as (Hwf & Hs & Hiff).
  set (n := Z.of_nat (length (nonFullCols g)) - 1).
  assert (Hn : 0 < n) by (unfold n; lia).
  pose proof (Z.mod_pos_bound (rng O) n Hn) as Hi.
  set (i := rng O mod n) in *.
  assert (Hnth : nth_error (nonFullCols g) (Z.to_nat i)
                 = Some (nth (Z.to_nat i) (nonFullCols g) 0))
    by (apply nth_error_nth'; unfold n in *; lia).
  set (column := nth (Z.to_nat i) (nonFullCols g) 0) in *.
  assert (Hin : In column (nonFullCols g)) by (apply nth_error_In in Hnth; exact Hnth).
  pose proof Hin as Hcol. apply Hiff in Hcol. destruct Hcol as [Hrange Htop].
  assert (Hdrop : exists g', drop g column opponent = Ok g').
  { unfold drop.
    replace ((0 <=? column) && (column <? Z.of_nat columns)) with true
      by (symmetry; apply andb_true_iff; split; [apply Z.leb_le | apply Z.ltb_lt]; lia).
    eexists. reflexivity. }
  destruct Hdrop as (g' & Hdrop).
  exists column, g'. split; [|split; [exact Hdrop|split; [exact Hin|]]].
  - cbn [computerMove]. unfold bind, Intn, lift, index. fold n.
    destruct (Z.leb_spec n 0) as [|_]; [lia|]. fold i.
    destruct (Z.ltb_spec i 0) as [|_]; [lia|].
    rewrite Hnth. fold column.
    replace ((0 <=? column) && (column <? Z.of_nat columns)) with true
      by (symmetry; apply andb_true_iff; split; [apply Z.leb_le | apply Z.ltb_lt]; lia).
    rewrite Htop, Z.eqb_refl, Hdrop. reflexivity.
  - apply sorted_nth_lt_last; [exact Hs|]. unfold n in *. lia.
Qed.

Lemma computerMove_never_rightmost_witness :
  exists (column : Z) (g' : Grid),
    computerMove 1 initGrid zeroRand = Ok (g', fun k => zeroRand (S k)) /\
    drop initGrid column opponent = Ok g' /\
    In column (nonFullCols initGrid) /\
    column < last (nonFullCols initGrid) 0.
Proof.
  apply (computerMove_never_rightmost 0 initGrid zeroRand).
  - exact inSync_initGrid.
  - vm_compute. lia.
Defined.

(** ** The winner *)

Lemma winLoop_spec (outer inner : list nat) (test : nat -> nat -> bool)
    (value : nat -> nat -> Z) :
  forall w,
    (winLoop outer inner test value w = w /\
     forall i j, In i outer -> In j inner -> test i j = false) \/
    (exists i j, In i outer /\ In j inner /\ test i j = true /\
                 winLoop outer inner test value w = value i j).
Proof.
  assert (Hinner : forall i w,
             (fold_left (fun w2 j => if test i j then value i j else w2) inner w = w /\
              forall j, In j inner -> test i j = false) \/
             (exists j, In j inner /\ test i j = true /\
                        fold_left (fun w2 j => if test i j then value i j else w2) inner w
                        = value i j)).
  { intros i. induction inner as [|j inner IH]; intros w; [left; split; [reflexivity|intros j []]|].
    cbn [fold_left]. destruct (test i j) eqn:E.
    - destruct (IH (value i j)) as [[Heq Hall]|(j' & Hj' & Ht & Heq)].
      + right. exists j. split; [simpl; auto|]. split; [exact E | exact Heq].
      + right. exists j'. split; [simpl; auto|]. split; [exact Ht | exact Heq].
    - destruct (IH w) as [[Heq Hall]|(j' & Hj' & Ht & Heq)].
      + left. split; [exact Heq|]. intros j0 [<-|Hin]; auto.
      + right. exists j'. split; [simpl; auto|]. split; [exact Ht | exact Heq]. }
  unfold winLoop. induction outer as [|i outer IH]; intros w;
    [left; split; [reflexivity | intros i j []]|].
  cbn [fold_left].
  destruct (IH (fold_left (fun w2 j => if test i j then value i j else w2) inner w))
    as [[Heq Hall]|(i' & j' & Hi' & Hj' & Ht & Heq)].
  - destruct (Hinner i w) as [[Heq' Hall']|(j' & Hj' & Ht & Heq')].
    + left. split; [now rewrite Heq, Heq'|]. intros i0 j0 [<-|Hin] Hj; auto.
    + right. exists i, j'. split; [simpl; auto|]. split; [exact Hj'|].
      split; [exact Ht|]. now rewrite Heq.
  - right. exists i', j'. split; [simpl; auto|]. auto.
Qed.

Lemma sameFour_true (a b c d : Z) :
  sameFour a b c d = true <-> a <> empty /\ b = a /\ c = a /\ d = a.
Proof.
  unfold sameFour. rewrite !andb_true_iff, negb_true_iff, Z.eqb_neq, !Z.eqb_eq.
  intuition congruence.
Qed.

Lemma horizontal_line (b : GameBoard) (i j : nat) :
  In i (seq 0 rows) -> In j (seq 0 (columns - 3)) ->
  sameFour (cell b i j) (cell b i (j + 1)) (cell b i (j + 2)) (cell b i (j + 3)) = true ->
  line b (cell b i j).
Proof.
  intros Hi Hj Ht. apply in_seq in Hi. apply in_seq in Hj.
  apply sameFour_true in Ht. destruct Ht as (Hne & H1 & H2 & H3).
  split; [exact Hne|].
  apply (FourHorizontal b _ i j); [unfold rows, Rows in *; lia
                                  | unfold columns, Columns in *; lia|].
  apply forall_lt_4. rewrite Nat.add_0_r. auto.
Qed.

Lemma vertical_line (b : GameBoard) (i j : nat) :
  In i (seq 0 (rows - 3)) -> In j (seq 0 columns) ->
  sameFour (cell b i j) (cell b (i + 1) j) (cell b (i + 2) j) (cell b (i + 3) j) = true ->
  line b (cell b i j).
Proof.
  intros Hi Hj Ht. apply in_seq in Hi. apply in_seq in Hj.
  apply sameFour_true in Ht. destruct Ht as (Hne & H1 & H2 & H3).
  split; [exact Hne|].
  apply (FourVertical b _ i j); [unfold rows, Rows in *; lia
                                | unfold columns, Columns in *; lia|].
  apply forall_lt_4. rewrite Nat.add_0_r. auto.
Qed.

Lemma falling_line (b : GameBoard) (i j : nat) :
  In i (seq 0 (rows - 3)) -> In j (seq 0 (columns - 3)) ->
  sameFour (cell b i j) (cell b (i + 1) (j + 1)) (cell b (i + 2) (j + 2))
           (cell b (i + 3) (j + 3)) = true ->
  line b (cell b i j).
Proof.
  intros Hi Hj Ht. apply in_seq in Hi. apply in_seq in Hj.
  apply sameFour_true in Ht. destruct Ht as (Hne & H1 & H2 & H3).
  split; [exact Hne|].
  apply (FourFalling b _ i j); [unfold rows, Rows in *; lia
                               | unfold columns, Columns in *; lia|].
  apply forall_lt_4. rewrite !Nat.add_0_r. auto.
Qed.

Lemma rising_line (b : GameBoard) (i j : nat) :
  In i (seq 3 (rows - 3)) -> In j (seq 0 (columns - 3)) ->
  sameFour (cell b i j) (cell b (i - 1) (j + 1)) (cell b (i - 2) (j + 2))
           (cell b (i - 3) (j + 3)) = true ->
  line b (cell b i j).
Proof.
  intros Hi Hj Ht. apply in_seq in Hi. apply in_seq in Hj.
  apply sameFour_true in Ht. destruct Ht as (Hne & H1 & H2 & H3).
  split; [exact Hne|].
  apply (FourRising b _ i j); [unfold rows, Rows in *; lia
                              | unfold columns, Columns in *; lia|].
  apply forall_lt_4. rewrite Nat.add_0_r, Nat.sub_0_r. auto.
Qed.

(** X23. [checkWin] of the console game changes the winner only: when
    some four cells in a row hold the same rune other than '.', the
    winner becomes the rune of such a line; when there is none, the
    winner stays as it was. *)
Theorem checkWin_sets_winner :
  forall g : Grid,
    board (checkWin g) = board g /\
    nonFullCols (checkWin g) = nonFullCols g /\
    ((exists v, line (board g) v) -> line (board g) (winner (checkWin g))) /\
    ((forall v, ~ line (board g) v) -> winner (checkWin g) = winner g).
Proof.
  intros g. split; [reflexivity|]. split; [reflexivity|].
  unfold checkWin. cbn [winner withWinner].
  set (b := board g).
  set (tH := fun i j => sameFour (cell b i j) (cell b i (j + 1)) (cell b i (j + 2))
                                 (cell b i (j + 3))).
  set (tV := fun i j => sameFour (cell b i j) (cell b (i + 1) j) (cell b (i + 2) j)
                                 (cell b (i + 3) j)).
  set (tF := fun i j => sameFour (cell b i j) (cell b (i + 1) (j + 1))
                                 (cell b (i + 2) (j + 2)) (cell b (i + 3) (j + 3))).
  set (tR := fun i j => sameFour (cell b i j) (cell b (i - 1) (j + 1))
                                 (cell b (i - 2) (j + 2)) (cell b (i - 3) (j + 3))).
  set (val := fun i j : nat => cell b i j).
  set (w0 := winner g).
  set (w1 := winLoop (seq 0 rows) (seq 0 (columns - 3)) tH val w0).
  set (w2 := winLoop (seq 0 (rows - 3)) (seq 0 columns) tV val w1).
  set (w3 := winLoop (seq 0 (rows - 3)) (seq 0 (columns - 3)) tF val w2).
  set (w4 := winLoop (seq 3 (rows - 3)) (seq 0 (columns - 3)) tR val w3).
  pose proof (winLoop_spec (seq 0 rows) (seq 0 (columns - 3)) tH val w0) as S1.
  pose proof (winLoop_spec (seq 0 (rows - 3)) (seq 0 columns) tV val w1) as S2.
  pose proof (winLoop_spec (seq 0 (rows - 3)) (seq 0 (columns - 3)) tF val w2) as S3.
  pose proof (winLoop_spec (seq 3 (rows - 3)) (seq 0 (columns - 3)) tR val w3) as S4.
  fold w1 in S1. fold w2 in S2. fold w3 in S3. fold w4 in S4.
  (* after each pair of loops the winner is the old one or the rune of a line *)
  assert (L1 : w1 = w0 \/ line b w1).
  { destruct S1 as [[E _]|(i & j & Hi & Hj & Ht & E)]; [now left|].
    right. rewrite E. now apply horizontal_line. }
  assert (L2 : w2 = w1 \/ line b w2).
  { destruct S2 as [[E _]|(i & j & Hi & Hj & Ht & E)]; [now left|].
    right. rewrite E. now apply vertical_line. }
  assert (L3 : w3 = w2 \/ line b w3).
  { destruct S3 as [[E _]|(i & j & Hi & Hj & Ht & E)]; [now left|].
    right. rewrite E. now apply falling_line. }
  assert (L4 : w4 = w3 \/ line b w4).
  { destruct S4 as [[E _]|(i & j & Hi & Hj & Ht & E)]; [now left|].
    right. rewrite E. now apply rising_line. }
  split.
  - intros (v & Hne & Hline).
    assert (Hdone : line b w1 \/ line b w2 \/ line b w3 \/ line b w4).
    { destruct Hline as [i j Hi Hj Hall|i j Hi Hj Hall|i j Hi Hj Hall|i j Hi Hj Hall];
        apply forall_lt_4 in Hall; rewrite ?Nat.add_0_r, ?Nat.sub_0_r in Hall;
        destruct Hall as (H0 & H1 & H2 & H3).
      - left. destruct S1 as [[_ Hall]|(i' & j' & Hi' & Hj' & Ht & E)].
        + exfalso.
          assert (Ht : tH i j = true)
            by (apply sameFour_true; repeat split; congruence).
          rewrite Hall in Ht; [discriminate| |]; apply in_seq;
            unfold rows, columns, Rows, Columns in *; lia.
        + rewrite E. now apply horizontal_line.
      - right; left. destruct S2 as [[_ Hall]|(i' & j' & Hi' & Hj' & Ht & E)].
        + exfalso.
          assert (Ht : tV i j = true)
            by (apply sameFour_true; repeat split; congruence).
          rewrite Hall in Ht; [discriminate| |]; apply in_seq;
            unfold rows, columns, Rows, Columns in *; lia.
        + rewrite E. now apply vertical_line.
      - right; right; left. destruct S3 as [[_ Hall]|(i' & j' & Hi' & Hj' & Ht & E)].
        + exfalso.
          assert (Ht : tF i j = true)
            by (apply sameFour_true; repeat split; congruence).
          rewrite Hall in Ht; [discriminate| |]; apply in_seq;
            unfold rows, columns, Rows, Columns in *; lia.
        + rewrite E. now apply falling_line.
      - right; right; right. destruct S4 as [[_ Hall]|(i' & j' & Hi' & Hj' & Ht & E)].
        + exfalso.
          assert (Ht : tR i j = true)
            by (apply sameFour_true; repeat split; congruence).
          rewrite Hall in Ht; [discriminate| |]; apply in_seq;
            unfold rows, columns, Rows, Columns in *; lia.
        + rewrite E. now apply rising_line. }
    destruct L4 as [E4|L4]; [|exact L4]. rewrite E4.
    destruct L3 as [E3|L3]; [|exact L3]. rewrite E3.
    destruct L2 as [E2|L2]; [|exact L2]. rewrite E2.
    destruct Hdone as [H|[H|[H|H]]]; congruence.
  - intros Hnone.
    destruct L4 as [E4|L4]; [|exfalso; exact (Hnone _ L4)].
    destruct L3 as [E3|L3]; [|exfalso; exact (Hnone _ L3)].
    destruct L2 as [E2|L2]; [|exfalso; exact (Hnone _ L2)].
    destruct L1 as [E1|L1]; [|exfalso; exact (Hnone _ L1)].
    congruence.
Qed.

End CliMoves.
